(** * bgg-scraper: the claim/lease coordinator, the rate limiter, the worker
      loop, the launcher, the worker process and the list scraper, embedded
      from the TypeScript sources.

    Layout of the development:
    - [Game], [Details], [CreateData], [Store] : the rows of the tables
      ([models/Game.ts] plus the two lease columns that [GameRepository]
      reads and writes);
    - [GameRepository]   : [claimGamesForProcessing], [releaseClaimedGames],
      [releaseAllClaimedGames], [updateGameWithAllDetails],
      [updateGameWithCommunityData], [createGame] and the queries;
    - [RateLimiter]      : [throttle], [processQueue] and [getQueueLength]
      over an explicit clock, a pass of the dispatch loop being one step;
    - [Async]            : the same [throttle] and [processQueue], followed
      from one [await] to the next;
    - [DetailScraper]    : [scrapeGameDetails] and its batch loop;
    - [Launcher]         : [runParallelScrapers];
    - [DetailMain]       : [main] of the worker process;
    - [ListScraper]      : [scrapeTop5000Games], [scrapePage], [saveGame]
      and [main] of the list scraper;
    - the predicates the properties are stated with, and the fixtures;
    - the properties, component by component.

    A database call is one step: what is proved of the coordinator is proved
    of calls that run one after the other.  What a browser session yields
    for a page is a parameter of the scrapers. *)

From Stdlib Require Import ZArith QArith Qminmax Qround Lqa Lia.
From stdpp Require Import base decidable option list strings sorting pretty.

Close Scope Q_scope.
Local Open Scope Z_scope.

(** ** Data model *)

(** A JavaScript [Date], as milliseconds since the epoch. *)
Definition Date := Z.

(** A JavaScript floating-point [number] that holds a measurement (weight,
    percentages).  The code only ever tests such a field against [null]. *)
Definition float := Q.

(** [interface Game] of [models/Game.ts], extended with the two lease columns
    [processingBy] and [processingAt] that the repository selects on. *)
Module Game.
Record t := mk {
  id : Z;
  rank : Z;
  name : string;
  bggUrl : string;
  year : option Z;
  minPlayers : option Z;
  maxPlayers : option Z;
  minPlayingTime : option Z;
  maxPlayingTime : option Z;
  weight : option float;
  languageDependenceId : option Z;
  officialAge : option Z;
  scrapedAt : Date;
  processingBy : option string;
  processingAt : option Date
}.

(** [data: { processingBy: by, processingAt: at }] *)
Definition set_lease (by_ : option string) (at_ : option Date) (g : t) : t :=
  mk (id g) (rank g) (name g) (bggUrl g) (year g) (minPlayers g)
     (maxPlayers g) (minPlayingTime g) (maxPlayingTime g) (weight g)
     (languageDependenceId g) (officialAge g) (scrapedAt g) by_ at_.

(** [Pick<Game, 'id' | 'bggUrl' | 'name'>] *)
Record pick := mkPick { pid : Z; pbggUrl : string; pname : string }.

(** [select: { id: true, bggUrl: true, name: true }] *)
Definition select (g : t) : pick := mkPick (id g) (bggUrl g) (name g).
End Game.

(** A row of one of the three join tables [gameCategory], [gameMechanism],
    [gameFamily]: the game and the category (mechanism, family) it links. *)
Record Link := mkLink { gameId : Z; targetId : Z }.

(** [Category], [Mechanism], [Family] and [LanguageDependence] all are an
    id with a unique text. *)
Record Named := mkNamed { nid : Z; ntext : string }.

(** [CommunityPlayerRating] *)
Record PlayerRating := mkPlayerRating {
  pr_gameId : Z;
  playerCount : Z;
  bestPercentage : option float;
  recommendedPercentage : option float;
  notRecommendedPercentage : option float;
  totalVotes : option Z
}.

(** [CommunityAgeRating] *)
Record AgeRating := mkAgeRating {
  ar_gameId : Z;
  age : Z;
  percentage : option float;
  voteCount : option Z
}.

(** The [details] argument of [updateGameWithAllDetails] ([GameDetails] of
    the detail scraper). *)
Module Details.
Record playerRating := mkPlayerRating {
  playerCount : Z;
  bestPercentage : option float;
  recommendedPercentage : option float;
  notRecommendedPercentage : option float;
  totalVotes : option Z
}.

Record ageRating := mkAgeRating {
  age : Z;
  percentage : option float;
  voteCount : option Z
}.

Record t := mk {
  year : option Z;
  minPlayers : option Z;
  maxPlayers : option Z;
  minPlayingTime : option Z;
  maxPlayingTime : option Z;
  weight : option float;
  officialAge : option Z;
  languageDependenceText : option string;
  categories : list string;
  mechanisms : list string;
  families : list string;
  communityPlayerRatings : list playerRating;
  communityAgeRatings : list ageRating
}.
End Details.

(** [interface GameCreateData] *)
Module CreateData.
Record t := mk {
  rank : Z;
  name : string;
  bggUrl : string;
  year : option Z;
  minPlayers : option Z;
  maxPlayers : option Z;
  minPlayingTime : option Z;
  maxPlayingTime : option Z;
  weight : option float;
  languageDependenceText : option string;
  officialAge : option Z;
  categories : list string;
  mechanisms : list string;
  families : list string
}.
End CreateData.

(** A thrown value, as the message it carries. *)
Definition Error := string.

(** The outcome of an awaited call: its value, or the error it threw. *)
Inductive Result (A : Type) : Type :=
  | Ok (a : A)
  | Throw (e : Error).
Arguments Ok {A} a.
Arguments Throw {A} e.

(** The database behind [PrismaService]: one list of rows per table. *)
Record Store := mkStore {
  games : list Game.t;
  languageDependences : list Named;
  categories : list Named;
  mechanisms : list Named;
  families : list Named;
  gameCategories : list Link;
  gameMechanisms : list Link;
  gameFamilies : list Link;
  communityPlayerRatings : list PlayerRating;
  communityAgeRatings : list AgeRating
}.

Definition set_games (gs : list Game.t) (s : Store) : Store :=
  mkStore gs (languageDependences s) (categories s) (mechanisms s)
    (families s) (gameCategories s) (gameMechanisms s) (gameFamilies s)
    (communityPlayerRatings s) (communityAgeRatings s).

(** ** GameRepository: the lease coordinator *)

Module GameRepository.

Definition is_null {A} (o : option A) : bool :=
  match o with None => true | Some _ => false end.

(** [{ gameCategories: { none: {} } }]: no row of the join table belongs to
    the game. *)
Definition none_for (g : Game.t) (links : list Link) : bool :=
  forallb (λ l, negb (gameId l =? Game.id g)) links.

(** The [OR] of the [where] clause shared by [findAllWithoutDetails] and
    [claimGamesForProcessing]: the completeness predicate, negated. *)
Definition needs_details (s : Store) (g : Game.t) : bool :=
  is_null (Game.weight g)
  || (none_for g (gameCategories s)
      && none_for g (gameMechanisms s)
      && none_for g (gameFamilies s)).

(** The whole [where] clause of the claim: unleased and pending. *)
Definition available (s : Store) (g : Game.t) : bool :=
  is_null (Game.processingBy g) && needs_details s g.

(** [orderBy: { id: 'asc' }] *)
Definition id_le (a b : Game.t) : Prop := Game.id a ≤ Game.id b.

#[global] Instance id_le_dec : RelDecision id_le.
Proof. intros a b. unfold id_le. apply _. Defined.

#[global] Instance id_le_total : Total id_le.
Proof. intros a b. unfold id_le. lia. Qed.

#[global] Instance id_le_trans : Transitive id_le.
Proof. intros a b c. unfold id_le. lia. Qed.

(** [findMany] of the claim: filter, order by id, take [batchSize], project. *)
Definition availableGames (batchSize : nat) (s : Store) : list Game.pick :=
  Game.select <$>
    take batchSize
      (merge_sort id_le (filter (λ g, Is_true (available s g)) (games s))).

(** [where: { id: { in: gameIds } }] *)
Definition id_in (gameIds : list Z) (g : Game.t) : bool :=
  bool_decide (Game.id g ∈ gameIds).

(** [tx.game.updateMany({ where, data })] on the lease columns. *)
Definition updateMany (where_ : Game.t → bool)
    (by_ : option string) (at_ : option Date) (s : Store) : Store :=
  set_games
    ((λ g, if where_ g then Game.set_lease by_ at_ g else g) <$> games s) s.

(** [result.count] of an [updateMany]: the rows its [where] matched. *)
Definition count (where_ : Game.t → bool) (s : Store) : nat :=
  length (filter (λ g, Is_true (where_ g)) (games s)).

(** [claimGamesForProcessing(workerId, batchSize)], run as the transaction
    it is written as; [now] is the value of [new Date()].  The batch size
    is a count of rows ([take: batchSize]). *)
Definition claimGamesForProcessing
    (workerId : string) (batchSize : nat) (now : Date) (s : Store)
    : list Game.pick * Store :=
  let found := availableGames batchSize s in
  match found with
  | [] => ([], s)
  | _ :: _ =>
      let gameIds := Game.pid <$> found in
      (found, updateMany (id_in gameIds) (Some workerId) (Some now) s)
  end.

(** The parameter default [batchSize: number = 10]. *)
Definition default_batchSize : nat := 10.

Definition leased_by (workerId : string) (g : Game.t) : bool :=
  bool_decide (Game.processingBy g = Some workerId).

Definition leased (g : Game.t) : bool := negb (is_null (Game.processingBy g)).

(** [releaseClaimedGames(workerId)] *)
Definition releaseClaimedGames (workerId : string) (s : Store) : Store :=
  updateMany (leased_by workerId) None None s.

(** [releaseAllClaimedGames()], returning [{ count }] and the new store. *)
Definition releaseAllClaimedGames (s : Store) : nat * Store :=
  (count leased s, updateMany leased None None s).

(** *** Persisting a scraped payload *)

(** The autoincrement primary key of a lookup table. *)
Definition next_id (rows : list Named) : Z :=
  1 + foldr Z.max 0 (nid <$> rows).

(** [upsert({ where: { name }, update: {}, create: { name } })] on a lookup
    table: the row found or created, and the table afterwards. *)
Definition upsert_named (text : string) (rows : list Named)
    : Named * list Named :=
  match List.find (λ r, bool_decide (ntext r = text)) rows with
  | Some r => (r, rows)
  | None => let r := mkNamed (next_id rows) text in (r, rows ++ [r])
  end.

(** [names.map(name => this.findOrCreateX(name).then(x => x.id))], the
    lookups of one table taken in list order. *)
Fixpoint findOrCreate_all (names : list string) (rows : list Named)
    : list Z * list Named :=
  match names with
  | [] => ([], rows)
  | n :: ns =>
      let '(r, rows1) := upsert_named n rows in
      let '(ids, rows2) := findOrCreate_all ns rows1 in
      (nid r :: ids, rows2)
  end.

Definition link_eqb (a b : Link) : bool :=
  (gameId a =? gameId b) && (targetId a =? targetId b).

(** [tx.gameCategory.upsert({ where: { gameId_categoryId }, update: {},
    create })]: a link is added when absent and never removed. *)
Definition upsert_link (l : Link) (links : list Link) : list Link :=
  if existsb (link_eqb l) links then links else links ++ [l].

Definition upsert_links (gid : Z) (ids : list Z) (links : list Link)
    : list Link :=
  foldl (λ acc i, upsert_link (mkLink gid i) acc) links ids.

(** [data] of [tx.game.update] in [updateGameWithAllDetails]: every scalar
    of the payload is written as extracted, [null] included. *)
Definition write_details (d : Details.t) (lang : option Z) (now : Date)
    (g : Game.t) : Game.t :=
  Game.mk (Game.id g) (Game.rank g) (Game.name g) (Game.bggUrl g)
    (Details.year d) (Details.minPlayers d) (Details.maxPlayers d)
    (Details.minPlayingTime d) (Details.maxPlayingTime d)
    (Details.weight d) lang (Details.officialAge d) now
    (Game.processingBy g) (Game.processingAt g).

Definition has_id (gid : Z) (g : Game.t) : bool := Game.id g =? gid.

(** [communityPlayerRating.upsert] keyed by [gameId_playerCount]. *)
Definition upsert_playerRating (gid : Z) (r : Details.playerRating)
    (rows : list PlayerRating) : list PlayerRating :=
  let row := mkPlayerRating gid (Details.playerCount r)
               (Details.bestPercentage r) (Details.recommendedPercentage r)
               (Details.notRecommendedPercentage r) (Details.totalVotes r) in
  let same x := (pr_gameId x =? gid) && (playerCount x =? Details.playerCount r) in
  if existsb same rows
  then (λ x, if same x then row else x) <$> rows
  else rows ++ [row].

(** [communityAgeRating.upsert] keyed by [gameId_age]. *)
Definition upsert_ageRating (gid : Z) (r : Details.ageRating)
    (rows : list AgeRating) : list AgeRating :=
  let row := mkAgeRating gid (Details.age r) (Details.percentage r)
               (Details.voteCount r) in
  let same x := (ar_gameId x =? gid) && (age x =? Details.age r) in
  if existsb same rows
  then (λ x, if same x then row else x) <$> rows
  else rows ++ [row].

(** The upserts of [updateGameWithCommunityData], in the order in which
    they are issued. *)
Definition community_upserts (gid : Z)
    (playerRatings : list Details.playerRating)
    (ageRatings : list Details.ageRating) (s : Store) : Store :=
  mkStore (games s) (languageDependences s) (categories s) (mechanisms s)
    (families s) (gameCategories s) (gameMechanisms s) (gameFamilies s)
    (foldl (λ acc r, upsert_playerRating gid r acc)
       (communityPlayerRatings s) playerRatings)
    (foldl (λ acc r, upsert_ageRating gid r acc)
       (communityAgeRatings s) ageRatings).

(** An upsert whose key has no row yet takes its [create] branch. *)
Definition creates_playerRating (gid : Z) (rows : list PlayerRating)
    (r : Details.playerRating) : bool :=
  negb (existsb
          (λ x, (pr_gameId x =? gid) && (playerCount x =? Details.playerCount r))
          rows).

Definition creates_ageRating (gid : Z) (rows : list AgeRating)
    (r : Details.ageRating) : bool :=
  negb (existsb (λ x, (ar_gameId x =? gid) && (age x =? Details.age r)) rows).

(** [updateGameWithCommunityData(gameId, { playerRatings, ageRatings })],
    one transaction.  [gameId] references the game table: a [create] for an
    id that no game has is refused, which rolls the transaction back.  The
    upserts before the first [create] only update, so a [create] is reached
    exactly when some key of the payload has no row at the start. *)
Definition updateGameWithCommunityData (gid : Z)
    (playerRatings : list Details.playerRating)
    (ageRatings : list Details.ageRating) (s : Store) : Result unit * Store :=
  if negb (existsb (has_id gid) (games s))
     && (existsb (creates_playerRating gid (communityPlayerRatings s))
           playerRatings
         || existsb (creates_ageRating gid (communityAgeRatings s)) ageRatings)
  then (Throw "Foreign key constraint failed on the field: gameId", s)
  else (Ok (), community_upserts gid playerRatings ageRatings s).

(** Step 1 of [updateGameWithAllDetails]: the lookups, outside of the
    transaction.  An empty text is falsy, so it is looked up as [null]. *)
Definition lookups (d : Details.t) (s : Store)
    : (option Z * list Z * list Z * list Z) * Store :=
  let '(lang, langs) :=
    match Details.languageDependenceText d with
    | Some text =>
        if bool_decide (text = "") then (None, languageDependences s)
        else let '(r, rows) := upsert_named text (languageDependences s) in
             (Some (nid r), rows)
    | None => (None, languageDependences s)
    end in
  let '(categoryIds, cats) := findOrCreate_all (Details.categories d) (categories s) in
  let '(mechanismIds, mechs) := findOrCreate_all (Details.mechanisms d) (mechanisms s) in
  let '(familyIds, fams) := findOrCreate_all (Details.families d) (families s) in
  ((lang, categoryIds, mechanismIds, familyIds),
   mkStore (games s) langs cats mechs fams (gameCategories s)
     (gameMechanisms s) (gameFamilies s) (communityPlayerRatings s)
     (communityAgeRatings s)).

(** [updateGameWithAllDetails(gameId, details)]; [now] is [new Date()].
    [tx.game.update] throws when no row has the id, which rolls the
    transaction back and leaves only the lookups of step 1 behind.  Step 3
    is a call of [updateGameWithCommunityData], after the transaction. *)
Definition updateGameWithAllDetails (gid : Z) (d : Details.t) (now : Date)
    (s : Store) : Result unit * Store :=
  let '((lang, categoryIds, mechanismIds, familyIds), s1) := lookups d s in
  if negb (existsb (has_id gid) (games s1))
  then (Throw "Record to update not found", s1)
  else
    let s2 :=
      mkStore
        ((λ g, if has_id gid g then write_details d lang now g else g)
           <$> games s1)
        (languageDependences s1) (categories s1) (mechanisms s1)
        (families s1)
        (upsert_links gid categoryIds (gameCategories s1))
        (upsert_links gid mechanismIds (gameMechanisms s1))
        (upsert_links gid familyIds (gameFamilies s1))
        (communityPlayerRatings s1) (communityAgeRatings s1) in
    updateGameWithCommunityData gid (Details.communityPlayerRatings d)
      (Details.communityAgeRatings d) s2.

(** *** Queries *)

(** [findByBggUrl(bggUrl)] *)
Definition findByBggUrl (url : string) (s : Store) : option Game.t :=
  List.find (λ g, bool_decide (Game.bggUrl g = url)) (games s).

(** [findAllWithoutDetails()]; with no [orderBy], rows come in table order. *)
Definition findAllWithoutDetails (s : Store) : list Game.pick :=
  Game.select <$> filter (λ g, Is_true (needs_details s g)) (games s).

(** The object [getStats()] resolves to. *)
Record Stats := mkStats {
  totalGames : Z;
  gamesWithDetails : Z;
  gamesWithCommunityData : Z;
  pendingDetails : Z
}.

(** [communityPlayerRatings: { some: {} }] *)
Definition has_player_rating (s : Store) (g : Game.t) : bool :=
  existsb (λ r, pr_gameId r =? Game.id g) (communityPlayerRatings s).

(** [getStats()] *)
Definition getStats (s : Store) : Stats :=
  let totalGames := Z.of_nat (length (games s)) in
  let gamesWithDetails :=
    Z.of_nat (length (filter (λ g, Game.weight g ≠ None) (games s))) in
  let gamesWithCommunityData :=
    Z.of_nat (length (filter (λ g, Is_true (has_player_rating s g)) (games s))) in
  mkStats totalGames gamesWithDetails gamesWithCommunityData
    (totalGames - gamesWithDetails).

(** One entry of [findAllWithDetails()]: the game with what its relations
    include, and the three lists of names mapped from the join rows. *)
Record GameWithDetails := mkGameWithDetails {
  game : Game.t;
  languageDependence : option Named;
  playerRatings : list PlayerRating;
  ageRatings : list AgeRating;
  categoryNames : list string;
  mechanismNames : list string;
  familyNames : list string
}.

(** The related row of a lookup table, by its id. *)
Definition named_by_id (i : Z) (rows : list Named) : option Named :=
  List.find (λ r, nid r =? i) rows.

(** [game.gameCategories.map(gc => gc.category.name)]: the join rows of the
    game, each with the name of the row it points to.  Reading [.name] of a
    relation that is not there throws; [None] stands for that. *)
Definition names_of (g : Game.t) (links : list Link) (rows : list Named)
    : option (list string) :=
  mapM (λ l, ntext <$> named_by_id (targetId l) rows)
    (filter (λ l, gameId l = Game.id g) links).

(** The entry of one game in the result of [findAllWithDetails()]. *)
Definition entry_of (s : Store) (g : Game.t) : option GameWithDetails :=
  cs ← names_of g (gameCategories s) (categories s);
  ms ← names_of g (gameMechanisms s) (mechanisms s);
  fs ← names_of g (gameFamilies s) (families s);
  Some
    (mkGameWithDetails g
       (Game.languageDependenceId g ≫= λ i, named_by_id i (languageDependences s))
       (filter (λ r, pr_gameId r = Game.id g) (communityPlayerRatings s))
       (filter (λ r, ar_gameId r = Game.id g) (communityAgeRatings s))
       cs ms fs).

(** [findAllWithDetails()] *)
Definition findAllWithDetails (s : Store) : Result (list GameWithDetails) :=
  match mapM (entry_of s) (games s) with
  | Some entries => Ok entries
  | None => Throw "Cannot read properties of null (reading 'name')"
  end.

(** *** Creating a game *)

(** The autoincrement primary key of the game table. *)
Definition next_game_id (gs : list Game.t) : Z :=
  1 + foldr Z.max 0 (Game.id <$> gs).

(** [tx.gameCategory.create({ data: { gameId, categoryId } })]: the pair is
    the key of the join table, the one [upsert] addresses as
    [gameId_categoryId], so a second row for it is refused. *)
Definition create_link (l : Link) (links : list Link) : option (list Link) :=
  if existsb (link_eqb l) links then None else Some (links ++ [l]).

(** One of the three [for] loops of [createGame]: for each name, upsert the
    lookup row, then create the join row. *)
Fixpoint link_all (gid : Z) (names : list string) (rows : list Named)
    (links : list Link) : option (list Named * list Link) :=
  match names with
  | [] => Some (rows, links)
  | n :: ns =>
      let '(r, rows1) := upsert_named n rows in
      match create_link (mkLink gid (nid r)) links with
      | Some links1 => link_all gid ns rows1 links1
      | None => None
      end
  end.

(** The row [tx.game.create] inserts: the given scalars, a fresh id, and the
    defaults of the columns that are not given. *)
Definition new_game (i : Z) (data : CreateData.t) (lang : option Z)
    (now : Date) : Game.t :=
  Game.mk i (CreateData.rank data) (CreateData.name data)
    (CreateData.bggUrl data) (CreateData.year data)
    (CreateData.minPlayers data) (CreateData.maxPlayers data)
    (CreateData.minPlayingTime data) (CreateData.maxPlayingTime data)
    (CreateData.weight data) lang (CreateData.officialAge data) now None None.

(** [createGame(gameData)], one transaction: a refused insert rolls
    everything back.  [bggUrl] is the unique column [findByBggUrl] looks
    games up by. *)
Definition createGame (data : CreateData.t) (now : Date) (s : Store)
    : Result Game.t * Store :=
  let '(lang, langs) :=
    match CreateData.languageDependenceText data with
    | Some text =>
        if bool_decide (text = "") then (None, languageDependences s)
        else let '(r, rows) := upsert_named text (languageDependences s) in
             (Some (nid r), rows)
    | None => (None, languageDependences s)
    end in
  if existsb (λ g, bool_decide (Game.bggUrl g = CreateData.bggUrl data)) (games s)
  then (Throw "Unique constraint failed on the fields: (bggUrl)", s)
  else
    let g := new_game (next_game_id (games s)) data lang now in
    match link_all (Game.id g) (CreateData.categories data) (categories s)
            (gameCategories s) with
    | None => (Throw "Unique constraint failed on the fields: (gameId,categoryId)", s)
    | Some (cats, gcs) =>
        match link_all (Game.id g) (CreateData.mechanisms data) (mechanisms s)
                (gameMechanisms s) with
        | None => (Throw "Unique constraint failed on the fields: (gameId,mechanismId)", s)
        | Some (mechs, gms) =>
            match link_all (Game.id g) (CreateData.families data) (families s)
                    (gameFamilies s) with
            | None => (Throw "Unique constraint failed on the fields: (gameId,familyId)", s)
            | Some (fams, gfs) =>
                (Ok g,
                 mkStore (games s ++ [g]) langs cats mechs fams gcs gms gfs
                   (communityPlayerRatings s) (communityAgeRatings s))
            end
        end
    end.

End GameRepository.

(** ** RateLimiter *)

Module RateLimiter.

(** [fn: () => Promise<T>]: an operation that, started at some time against
    the world outside of the limiter, settles with a value or an error. *)
Definition Fn (W T : Type) : Type := Date → W → Result T * W.

(** The closure that [throttle] pushes: it awaits [fn] and resolves or
    rejects the promise [throttle] returned, named by its allocation
    number. *)
Record Task (W T : Type) := mkTask { promise : nat; fn : Fn W T }.
Arguments mkTask {W T} _ _.
Arguments promise {W T} _.
Arguments fn {W T} _.

(** The fields of [class RateLimiter]. *)
Record t (W T : Type) := mk {
  queue : list (Task W T);
  running : bool;
  minDelay : Q;
  maxDelay : Q;
  lastRequestTime : Date
}.
Arguments mk {W T} _ _ _ _ _.
Arguments queue {W T} _.
Arguments running {W T} _.
Arguments minDelay {W T} _.
Arguments maxDelay {W T} _.
Arguments lastRequestTime {W T} _.

(** A limiter inside its event loop: the clock that [Date.now()] reads, the
    world the operations act on, the number of promises handed out, and the
    two observations the properties speak of, in the order they happened:
    which promise's operation was dispatched when, and how each promise
    settled. *)
Record Sys (W T : Type) := mkSys {
  limiter : t W T;
  clock : Date;
  world : W;
  promises : nat;
  dispatched : list (nat * Date);
  settled : list (nat * Result T)
}.
Arguments mkSys {W T} _ _ _ _ _ _.
Arguments limiter {W T} _.
Arguments clock {W T} _.
Arguments world {W T} _.
Arguments promises {W T} _.
Arguments dispatched {W T} _.
Arguments settled {W T} _.

(** What the environment contributes to one pass of the dispatch loop: the
    value of [Math.random()], by how much the timer fires later than asked,
    how long the operation takes to settle, and the [throttle] calls that
    other code makes while the dispatcher is suspended in this pass. *)
Record Turn (W T : Type) := mkTurn {
  random : Q;
  late : Z;
  elapsed : Z;
  arrivals : list (Fn W T)
}.
Arguments mkTurn {W T} _ _ _ _.
Arguments random {W T} _.
Arguments late {W T} _.
Arguments elapsed {W T} _.
Arguments arrivals {W T} _.

Section Model.
Context {W T : Type}.

(** [constructor(minDelay = 1000, maxDelay = 2000)] *)
Definition create (minDelay maxDelay : Q) : t W T :=
  mk [] false minDelay maxDelay 0.

Definition create_default : t W T := create 1000 2000.

Definition boot (minDelay maxDelay : Q) (clock0 : Date) (w : W) : Sys W T :=
  mkSys (create minDelay maxDelay) clock0 w 0 [] [].

Definition set_running (b : bool) (s : Sys W T) : Sys W T :=
  let l := limiter s in
  mkSys (mk (queue l) b (minDelay l) (maxDelay l) (lastRequestTime l))
    (clock s) (world s) (promises s) (dispatched s) (settled s).

(** [new Promise(...)] with [this.queue.push(closure)] in its executor. *)
Definition push (f : Fn W T) (s : Sys W T) : Sys W T :=
  let l := limiter s in
  mkSys
    (mk (queue l ++ [mkTask (promises s) f]) (running l) (minDelay l)
       (maxDelay l) (lastRequestTime l))
    (clock s) (world s) (S (promises s)) (dispatched s) (settled s).

(** [await new Promise(resolve => setTimeout(resolve, waitTime))]: the
    clock has moved on by at least [waitTime] when the loop resumes. *)
Definition sleep (waitTime : Q) (late : Z) (s : Sys W T) : Sys W T :=
  mkSys (limiter s) (clock s + Qceiling waitTime + late) (world s)
    (promises s) (dispatched s) (settled s).

(** The head of the loop body: read the clock, draw the delay, and sleep when
    the time since the last dispatch falls short of it. *)
Definition after_wait (e : Turn W T) (s : Sys W T) : Sys W T :=
  let now := clock s in
  let timeSinceLastRequest := now - lastRequestTime (limiter s) in
  let randomDelay :=
    (minDelay (limiter s)
     + random e * (maxDelay (limiter s) - minDelay (limiter s)))%Q in
  let waitTime := Qmax 0 (randomDelay - inject_Z timeSinceLastRequest) in
  if Qlt_le_dec 0 waitTime then sleep waitTime (late e) s else s.

(** The [throttle] calls that arrive while the dispatcher is suspended in a
    pass, as the pushes they come to with [running] set; [Async] below runs
    such calls through the guard of [processQueue]. *)
Definition enqueue_all (fs : list (Fn W T)) (s : Sys W T) : Sys W T :=
  foldl (λ acc f, push f acc) s fs.

(** One pass through the body of the [while] loop of [processQueue], taken
    as one step from the wait to the settlement of the task.  The calls that
    arrive during the pass land behind the task that it takes off the head.
    The loop enters a pass only with a task waiting, so [shift()] yields
    one. *)
Definition iteration (e : Turn W T) (s : Sys W T) : Sys W T :=
  let s1 := after_wait e s in
  let l := limiter s1 in
  match queue l with
  | [] => s1
  | task :: rest =>
      let lastRequestTime' := clock s1 in
      let '(outcome, w') := fn task lastRequestTime' (world s1) in
      enqueue_all (arrivals e)
        (mkSys (mk rest (running l) (minDelay l) (maxDelay l) lastRequestTime')
           (lastRequestTime' + elapsed e) w' (promises s1)
           (dispatched s1 ++ [(promise task, lastRequestTime')])
           (settled s1 ++ [(promise task, outcome)]))
  end.

(** [while (this.queue.length > 0) { ... } this.running = false].  The
    turns are what is observed of the loop: when they run out before the
    queue does, the dispatcher is left where it stands, still running. *)
Fixpoint loop (turns : list (Turn W T)) (s : Sys W T) : Sys W T :=
  match queue (limiter s) with
  | [] => set_running false s
  | _ :: _ =>
      match turns with
      | [] => s
      | e :: turns' => loop turns' (iteration e s)
      end
  end.

(** [processQueue()] *)
Definition processQueue (turns : list (Turn W T)) (s : Sys W T) : Sys W T :=
  if running (limiter s) || bool_decide (queue (limiter s) = [])
  then s
  else loop turns (set_running true s).

(** [throttle(fn)]: the promise it returns and the state once the
    dispatcher it may have started has gone through [turns]. *)
Definition throttle (f : Fn W T) (turns : list (Turn W T)) (s : Sys W T)
    : nat * Sys W T :=
  (promises s, processQueue turns (push f s)).

(** How a promise has settled, if it has. *)
Definition outcome_of (p : nat) (s : Sys W T) : option (Result T) :=
  snd <$> List.find (λ x, Nat.eqb (fst x) p) (settled s).

(** What happens around a limiter: a [throttle] call, with the turns its
    dispatcher goes through, or time going by. *)
Inductive Cmd : Type :=
  | Call (f : Fn W T) (turns : list (Turn W T))
  | Idle (dt : Z).

Definition step (s : Sys W T) (c : Cmd) : Sys W T :=
  match c with
  | Call f turns => snd (throttle f turns s)
  | Idle dt =>
      mkSys (limiter s) (clock s + dt) (world s) (promises s)
        (dispatched s) (settled s)
  end.

Definition run (cmds : list Cmd) (s : Sys W T) : Sys W T :=
  foldl step s cmds.

(** A turn the environment can produce: [Math.random()] lies in [0, 1),
    and a timer does not fire early. *)
Definition valid_turn (e : Turn W T) : Prop :=
  (0 <= random e)%Q ∧ (random e < 1)%Q ∧ 0 ≤ late e.

Definition valid_cmd (c : Cmd) : Prop :=
  match c with
  | Call _ turns => Forall valid_turn turns
  | Idle _ => True
  end.

(** Consecutive entries of [ts] lie at least [d] apart. *)
Definition paced (d : Q) (ts : list Date) : Prop :=
  ∀ i a b, ts !! i = Some a → ts !! S i = Some b →
    (inject_Z a + d <= inject_Z b)%Q.


(** [getQueueLength()] *)
Definition getQueueLength (s : Sys W T) : Z :=
  Z.of_nat (length (queue (limiter s))).
End Model.

Arguments Cmd : clear implicits.
End RateLimiter.

(** ** RateLimiter, await by await *)

(** [RateLimiter] above takes a pass of the dispatch loop as one step.  Here
    the same code is followed from one [await] to the next: a call of
    [processQueue] that gets past the guard of line 29 becomes an activation
    that runs until it suspends, at the timer of line 43 or at the task of
    line 49, and goes on when it is resumed.  A [throttle] call that arrives
    in between runs the guard against the [running] flag as the code has set
    it, and an operation is in flight from its dispatch to its
    settlement. *)
Module Async.
Import RateLimiter.

(** Where a suspended activation of [processQueue] stands: at the timer,
    which fires at [due], or at the task, whose operation has been started
    for promise [p] and settles at [due] with [outcome]. *)
Inductive Await (T : Type) : Type :=
  | Timer (due : Date)
  | Operation (p : nat) (outcome : Result T) (due : Date).
Arguments Timer {T} _.
Arguments Operation {T} _ _ _.

(** A limiter with the activations of its dispatch loop that are suspended. *)
Record Loop (W T : Type) := mkLoop {
  sys : Sys W T;
  suspended : list (Await T)
}.
Arguments mkLoop {W T} _ _.
Arguments sys {W T} _.
Arguments suspended {W T} _.

(** What happens to a limiter: a [throttle] call, the resumption of the
    [k]-th suspended activation, or time going by.  [x] is what the
    environment contributes to the stretch of code the event runs:
    [Math.random()], by how much the timer it sets fires later than asked,
    and how long the operation it starts takes to settle. *)
Inductive Event (W T : Type) : Type :=
  | Throttle (f : Fn W T) (x : Q * Z * Z)
  | Resume (k : nat) (x : Q * Z * Z)
  | Tick (dt : Z).
Arguments Throttle {W T} _ _.
Arguments Resume {W T} _ _.
Arguments Tick {W T} _.

Section Model.
Context {W T : Type}.

Definition boot (minDelay maxDelay : Q) (clock0 : Date) (w : W) : Loop W T :=
  mkLoop (RateLimiter.boot minDelay maxDelay clock0 w) [].

(** The clock has come to read [t]. *)
Definition at_time (t : Date) (s : Sys W T) : Sys W T :=
  mkSys (limiter s) t (world s) (promises s) (dispatched s) (settled s).

(** [resolve(result)] or [reject(error)] of the closure of [throttle]. *)
Definition resolve (p : nat) (outcome : Result T) (s : Sys W T) : Sys W T :=
  mkSys (limiter s) (clock s) (world s) (promises s) (dispatched s)
    (settled s ++ [(p, outcome)]).

(** Line 53: the activation ends. *)
Definition stop (s : Loop W T) : Loop W T :=
  mkLoop (set_running false (sys s)) (suspended s).

(** Lines 46 to 49: take the head of the queue, stamp the dispatch, start the
    task and suspend on it.  The operation is taken to act on the world when
    it is started; its promise settles when the activation is resumed.  With
    nothing to take, [if (task)] fails and so does the [while] test that
    follows. *)
Definition dispatch (elapsed : Z) (s : Loop W T) : Loop W T :=
  let l := limiter (sys s) in
  match queue l with
  | [] => stop s
  | task :: rest =>
      let lastRequestTime' := clock (sys s) in
      let '(outcome, w') := fn task lastRequestTime' (world (sys s)) in
      mkLoop
        (mkSys (mk rest (running l) (minDelay l) (maxDelay l) lastRequestTime')
           lastRequestTime' w' (promises (sys s))
           (dispatched (sys s) ++ [(promise task, lastRequestTime')])
           (settled (sys s)))
        (suspended s
           ++ [Operation (promise task) outcome (lastRequestTime' + elapsed)])
  end.

(** Lines 36 to 40. *)
Definition waitTime (random : Q) (s : Sys W T) : Q :=
  let now := clock s in
  let timeSinceLastRequest := now - lastRequestTime (limiter s) in
  let randomDelay :=
    (minDelay (limiter s)
     + random * (maxDelay (limiter s) - minDelay (limiter s)))%Q in
  Qmax 0 (randomDelay - inject_Z timeSinceLastRequest).

(** From the [while] test of line 35 to the next [await]. *)
Definition head (x : Q * Z * Z) (s : Loop W T) : Loop W T :=
  match queue (limiter (sys s)) with
  | [] => stop s
  | _ :: _ =>
      let waitTime := waitTime x.1.1 (sys s) in
      if Qlt_le_dec 0 waitTime
      then mkLoop (sys s)
             (suspended s
                ++ [Timer (clock (sys s) + Qceiling waitTime + x.1.2)])
      else dispatch x.2 s
  end.

(** The [k]-th suspended activation goes on, no sooner than its timer fires
    or its operation settles: after the timer with line 46, after the task
    with the settlement of the promise and the next [while] test.  The
    closure of [throttle] settles the promise and returns, which is what
    resumes the loop, so the two are one step. *)
Definition resume (k : nat) (x : Q * Z * Z) (s : Loop W T) : Loop W T :=
  match suspended s !! k with
  | None => s
  | Some (Timer due) =>
      dispatch x.2
        (mkLoop (at_time (Z.max (clock (sys s)) due) (sys s))
           (delete k (suspended s)))
  | Some (Operation p outcome due) =>
      head x
        (mkLoop (resolve p outcome (at_time (Z.max (clock (sys s)) due) (sys s)))
           (delete k (suspended s)))
  end.

(** [processQueue()], up to its first [await]. *)
Definition processQueue (x : Q * Z * Z) (s : Loop W T) : Loop W T :=
  if running (limiter (sys s)) || bool_decide (queue (limiter (sys s)) = [])
  then s
  else head x (mkLoop (set_running true (sys s)) (suspended s)).

(** [throttle(fn)]: the promise it returns, and the state when the call
    returns. *)
Definition throttle (f : Fn W T) (x : Q * Z * Z) (s : Loop W T)
    : nat * Loop W T :=
  (promises (sys s), processQueue x (mkLoop (push f (sys s)) (suspended s))).

Definition step (s : Loop W T) (ev : Event W T) : Loop W T :=
  match ev with
  | Throttle f x => snd (throttle f x s)
  | Resume k x => resume k x s
  | Tick dt => mkLoop (at_time (clock (sys s) + dt) (sys s)) (suspended s)
  end.

Definition run (events : list (Event W T)) (s : Loop W T) : Loop W T :=
  foldl step s events.
End Model.
End Async.

(** ** DetailScraper: the worker loop *)

Module DetailScraper.
Import GameRepository RateLimiter.

(** The lines the worker writes through its logger. *)
Inductive LogLine : Type :=
  | Starting (workerId : string)
  | NoMoreGames (workerId : string)
  | BatchStart (batchCount : nat) (size : nat)
  | Completed (workerId : string) (totalProcessed : nat) (name : string)
  | FailedToScrape (workerId : string) (name : string) (e : Error)
  | WorkerCompleted (workerId : string) (totalProcessed : nat)
  | WorkerError (workerId : string) (e : Error)
  | GameNotFound (gameId : Z)
  | ErrorScraping (name : string) (e : Error).

(** What the operations of a worker act on: the database and the log. *)
Record World := mkWorld { store : Store; log : list LogLine }.

Definition State := Sys World unit.

Definition logline (l : LogLine) (s : State) : State :=
  mkSys (limiter s) (clock s)
    (mkWorld (store (world s)) (log (world s) ++ [l]))
    (promises s) (dispatched s) (settled s).

Definition on_store (f : Store → Store) (s : State) : State :=
  mkSys (limiter s) (clock s)
    (mkWorld (f (store (world s))) (log (world s)))
    (promises s) (dispatched s) (settled s).

(** [findById(id)] *)
Definition findById (gid : Z) (s : Store) : option Game.pick :=
  Game.select <$> List.find (has_id gid) (games s).

Section Worker.
(** What the browser session yields for a game: the page loads, the login
    and the extractions of [scrapeGameDetailPage] up to the payload it
    hands to [updateGameWithDetails], or the error one of them throws. *)
Variable browser : Game.pick → Result Details.t.

(** Per promise: [Math.random()], the lateness of the timer, and how long
    the operation runs.  Only the worker itself calls its limiter. *)
Variable timing : nat → Q * Z * Z.

(** [initializeScraper()]: connect, launch, log in. *)
Variable initializeScraper : Result unit.

Variable workerId : string.
Variable batchSize : nat.

Definition turn_for (p : nat) : Turn World unit :=
  let '(r, l, d) := timing p in mkTurn r l d [].

(** [new RateLimiter(2000, 3000)], from the constructor of the scraper. *)
Definition start (clock0 : Date) (db : Store) : State :=
  boot 2000 3000 clock0 (mkWorld db []).

(** [scrapeGameDetailPage(game)] *)
Definition scrapeGameDetailPage (game : Game.pick) : Fn World unit :=
  λ now w,
    match browser game with
    | Ok details =>
        match updateGameWithAllDetails (Game.pid game) details now (store w) with
        | (Ok tt, db) => (Ok tt, mkWorld db (log w))
        | (Throw e, db) =>
            (Throw e, mkWorld db (log w ++ [ErrorScraping (Game.pname game) e]))
        end
    | Throw e =>
        (Throw e, mkWorld (store w) (log w ++ [ErrorScraping (Game.pname game) e]))
    end.

(** The [for] loop over a claimed batch.  [None]: an awaited promise never
    settles, and the loop stays where it is. *)
Fixpoint process_batch (gamesToScrape : list Game.pick)
    (totalProcessed : nat) (s : State) : option (nat * State) :=
  match gamesToScrape with
  | [] => Some (totalProcessed, s)
  | game :: rest =>
      let '(p, s1) :=
        throttle (scrapeGameDetailPage game) [turn_for (promises s)] s in
      match outcome_of p s1 with
      | Some (Ok _) =>
          process_batch rest (S totalProcessed)
            (logline (Completed workerId (S totalProcessed) (Game.pname game)) s1)
      | Some (Throw e) =>
          process_batch rest totalProcessed
            (logline (FailedToScrape workerId (Game.pname game) e) s1)
      | None => None
      end
  end.

(** [await new Promise(resolve => setTimeout(resolve, 1000))] *)
Definition pause (s : State) : State := step s (Idle 1000).

(** The [while (true)] loop, bounded by [fuel] passes. *)
Fixpoint batches (fuel : nat) (totalProcessed batchCount : nat) (s : State)
    : option (nat * State) :=
  match fuel with
  | O => None
  | S fuel' =>
      let '(gamesToScrape, db) :=
        claimGamesForProcessing workerId batchSize (clock s) (store (world s)) in
      let s1 := on_store (λ _, db) s in
      match gamesToScrape with
      | [] => Some (totalProcessed, logline (NoMoreGames workerId) s1)
      | _ :: _ =>
          let batchCount' := S batchCount in
          let s2 := logline (BatchStart batchCount' (length gamesToScrape)) s1 in
          match process_batch gamesToScrape totalProcessed s2 with
          | Some (total, s3) => batches fuel' total batchCount' (pause s3)
          | None => None
          end
      end
  end.

(** The body of the [try] block. *)
Definition try_body (gameId : option Z) (fuel : nat) (s : State)
    : option (Result unit * State) :=
  let s1 := on_store (releaseClaimedGames workerId) s in
  match gameId with
  | Some gid =>
      if gid =? 0 then
        match batches fuel 0 0 (logline (Starting workerId) s1) with
        | Some (total, s2) =>
            Some (Ok tt, logline (WorkerCompleted workerId total) s2)
        | None => None
        end
      else
        match findById gid (store (world s1)) with
        | None => Some (Ok tt, logline (GameNotFound gid) s1)
        | Some game =>
            let '(r, w) := scrapeGameDetailPage game (clock s1) (world s1) in
            Some (r, mkSys (limiter s1) (clock s1) w (promises s1)
                       (dispatched s1) (settled s1))
        end
  | None =>
      match batches fuel 0 0 (logline (Starting workerId) s1) with
      | Some (total, s2) =>
          Some (Ok tt, logline (WorkerCompleted workerId total) s2)
      | None => None
      end
  end.

(** [scrapeGameDetails(gameId?)]: [initializeScraper] stands before the
    [try]; the [catch] logs and rethrows; the [finally] releases the
    worker's leases whichever way the [try] block ended. *)
Definition scrapeGameDetails (gameId : option Z) (fuel : nat) (s : State)
    : option (Result unit * State) :=
  match initializeScraper with
  | Throw e => Some (Throw e, s)
  | Ok _ =>
      match try_body gameId fuel s with
      | None => None
      | Some (r, s1) =>
          let s2 :=
            match r with
            | Throw e => logline (WorkerError workerId e) s1
            | Ok _ => s1
            end in
          Some (r, on_store (releaseClaimedGames workerId) s2)
      end
  end.
End Worker.
End DetailScraper.

(** ** The parallel launcher *)

Module Launcher.
Import GameRepository.

(** What the launcher does to the outside, in order.  Messages are given
    without the pictograph they start with. *)
Inductive Effect : Type :=
  | ConsoleLog (msg : string)
  | ConsoleError (msg : string)
  | ConsoleErrorWith (msg : string) (e : Error)
  | RunSingleWorker (workerId : string) (debugMode : bool)
  | Spawn (args : list string) (WORKER_ID : string)
  | Exit (code : Z).

Definition usage : string :=
  "Usage: npm run scrape:details:parallel [numWorkers] [--debug] [--single-process]".

Definition includes (x : string) (l : list string) : bool :=
  bool_decide (x ∈ l).

Section Run.
(** [parseInt] of JavaScript; [None] is [NaN]. *)
Variable parseInt : string → option Z.

(** The argument check: the number of workers, or the lines printed before
    [process.exit(1)]. *)
Definition numWorkers_of (args : list string) (WORKERS : option string)
    : list Effect + Z :=
  match args with
  | [a] =>
      match parseInt a with
      | Some parsedWorkers =>
          if (parsedWorkers <? 1) || (20 <? parsedWorkers)
          then inl [ConsoleError "Number of workers must be between 1 and 20";
                    ConsoleError usage; Exit 1]
          else inr parsedWorkers
      | None =>
          inl [ConsoleError "Number of workers must be between 1 and 20";
               ConsoleError usage; Exit 1]
      end
  | [] =>
      match WORKERS with
      | Some text =>
          if bool_decide (text = "") then inr 5
          else match parseInt text with
               | Some n => if n =? 0 then inr 5 else inr n
               | None => inr 5
               end
      | None => inr 5
      end
  | _ :: _ :: _ =>
      inl [ConsoleError "Too many arguments"; ConsoleError usage; Exit 1]
  end.

(** [`worker-${i}`] for [i] from 1 to [numWorkers]. *)
Definition workerIds (numWorkers : Z) : list string :=
  (λ i : nat, "worker-" +:+ pretty (S i)) <$> seq 0 (Z.to_nat numWorkers).

(** The global cleanup in its [try]/[catch]; [fault] is the error the
    database call throws, when it does, and then the store is as it was. *)
Definition sweep (fault : option Error) (db : Store) : list Effect * Store :=
  match fault with
  | None =>
      let '(n, db') := releaseAllClaimedGames db in
      ([ConsoleLog ("Released " +:+ pretty n +:+ " previously claimed games")],
       db')
  | Some e =>
      ([ConsoleErrorWith "Failed to release claimed games:" e;
        ConsoleLog "Continuing anyway..."],
       db)
  end.

Definition start_worker (single debugMode : bool) (workerId : string)
    : list Effect :=
  if single then [RunSingleWorker workerId debugMode]
  else [ConsoleLog ("Starting worker " +:+ workerId +:+ "...");
        Spawn (["src/run-detail-scraper.ts"; workerId]
                 ++ (if debugMode then ["--debug"] else []))
              workerId].

(** [await Promise.all(workers)] in its [try]/[catch]. *)
Definition join (failed : option Error) : list Effect :=
  match failed with
  | None => [ConsoleLog "All workers completed successfully!"]
  | Some e => [ConsoleErrorWith "Some workers failed:" e; Exit 1]
  end.

(** [runParallelScrapers()]: [argv] is [process.argv.slice(2)], [DEBUG]
    and [WORKERS] the two environment variables, [fault] the failure of
    the cleanup call if there is one and [failed] the first rejection
    among the workers if there is one.  The result is what the launcher
    did and the store its workers start from. *)
Definition runParallelScrapers (argv : list string)
    (DEBUG WORKERS : option string) (fault failed : option Error)
    (db : Store) : list Effect * Store :=
  let args :=
    filter (λ arg, arg ≠ "--debug" ∧ arg ≠ "--single-process") argv in
  let debugMode :=
    bool_decide (DEBUG = Some "true") || includes "--debug" argv in
  match numWorkers_of args WORKERS with
  | inl out => (out, db)
  | inr numWorkers =>
      let '(swept, db') := sweep fault db in
      ([ConsoleLog ("Starting " +:+ pretty numWorkers
                      +:+ " parallel detail scrapers...");
        ConsoleLog "Releasing all claimed games from previous runs..."]
         ++ swept
         ++ concat (start_worker (includes "--single-process" argv) debugMode
                      <$> workerIds numWorkers)
         ++ join failed,
       db')
  end.
End Run.
End Launcher.

(** ** The worker process: [main] of [run-detail-scraper] *)

Module DetailMain.
Import GameRepository RateLimiter DetailScraper.

(** What [main] writes through the logger, and the exit it asks for. *)
Inductive Line : Type :=
  | DebugEnabled
  | StartingWorker (workerId : string)
  | ScrapingGame (gameId : Z)
  | ScrapingAll
  | InvalidGameId
  | Usage
  | Releasing
  | Released (count : nat)
  | CompletedSuccessfully
  | Failed (e : Error)
  | Exit (code : Z).

(** What the argument check decides on. *)
Inductive Mode : Type :=
  | WorkerMode (workerId : string)
  | SingleGame (gameId : Z)
  | AllGames
  | BadGameId
  | BadUsage.

(** A string in a condition: [undefined] and the empty string are falsy. *)
Definition truthy (x : option string) : bool :=
  match x with
  | Some text => negb (bool_decide (text = ""))
  | None => false
  end.

Section Main.
(** [parseInt] of JavaScript; [None] is [NaN]. *)
Variable parseInt : string → option Z.

(** The [if]/[else if]/[else] over [args.length]. *)
Definition mode_of (args : list string) (WORKER_ID : option string) : Mode :=
  match args with
  | [a] =>
      if String.prefix "worker-" a || truthy WORKER_ID
      then WorkerMode
             (if bool_decide (a = "") then default "" WORKER_ID else a)
      else match parseInt a with
           | Some gameId => SingleGame gameId
           | None => BadGameId
           end
  | [] => AllGames
  | _ :: _ :: _ => BadUsage
  end.

Variable browser : Game.pick → Result Details.t.
Variable timing : nat → Q * Z * Z.
Variable initializeScraper : Result unit.

(** [main()]: [generated] is the id the constructor of the scraper makes up
    when it is given none, [fault] the error of the cleanup call if it
    throws.  The scraper is built with a batch size of 5. *)
Definition main (argv : list string) (DEBUG WORKER_ID : option string)
    (generated : string) (fault : option Error) (fuel : nat)
    (clock0 : Date) (db : Store) : option (list Line * State) :=
  let debugMode :=
    bool_decide (DEBUG = Some "true") || bool_decide ("--debug" ∈ argv) in
  let debug := if debugMode then [DebugEnabled] else [] in
  let args := filter (λ arg, arg ≠ "--debug") argv in
  let scrape (announce : list Line) (workerId : string) (gameId : option Z) :=
    let sweeps :=
      match gameId with
      | Some gid => gid =? 0
      | None => true
      end in
    if sweeps then
      match fault with
      | Some e =>
          Some (debug ++ announce ++ [Releasing; Failed e; Exit 1],
                start clock0 db)
      | None =>
          let '(n, db') := releaseAllClaimedGames db in
          match scrapeGameDetails browser timing initializeScraper workerId 5
                  gameId fuel (start clock0 db') with
          | Some (Ok _, s) =>
              Some (debug ++ announce
                      ++ [Releasing; Released n; CompletedSuccessfully], s)
          | Some (Throw e, s) =>
              Some (debug ++ announce
                      ++ [Releasing; Released n; Failed e; Exit 1], s)
          | None => None
          end
      end
    else
      match scrapeGameDetails browser timing initializeScraper workerId 5
              gameId fuel (start clock0 db) with
      | Some (Ok _, s) => Some (debug ++ announce ++ [CompletedSuccessfully], s)
      | Some (Throw e, s) => Some (debug ++ announce ++ [Failed e; Exit 1], s)
      | None => None
      end in
  match mode_of args WORKER_ID with
  | WorkerMode workerId => scrape [StartingWorker workerId] workerId None
  | SingleGame gameId => scrape [ScrapingGame gameId] generated (Some gameId)
  | AllGames => scrape [ScrapingAll] generated None
  | BadGameId => Some (debug ++ [InvalidGameId; Exit 1], start clock0 db)
  | BadUsage => Some (debug ++ [Usage; Exit 1], start clock0 db)
  end.
End Main.
End DetailMain.

(** ** ListScraper: ingesting the ranking pages *)

Module ListScraper.
Import GameRepository RateLimiter.

(** [interface GameListItem] *)
Record GameListItem := mkItem { rank : Z; name : string; bggUrl : string }.

(** The [options] of [scrapeTop5000Games]; a missing key is [None]. *)
Record Options := mkOptions {
  startPage : option Z;
  endPage : option Z;
  maxPages : option Z
}.

(** The lines written at the levels [info], [warn] and [error]. *)
Inductive LogLine : Type :=
  | StartingToScrape (totalGames startPage endPage : Z)
  | Progress (current : nat) (total : Z) (page : Z)
  | SuccessfullyScraped (totalGames startPage endPage : Z)
  | ErrorScrapingList (e : Error)
  | ErrorScrapingPage (pageNumber : Z) (e : Error)
  | NoGamesFound (pageNumber : Z)
  | ErrorSavingGame (name : string) (e : Error)
  | UsageError
  | ScrapingCompleted (scraped : Z)
  | ScrapingFailed (e : Error)
  | Exit (code : Z).

Record World := mkWorld { store : Store; log : list LogLine }.

Definition State := Sys World unit.

Definition logline (l : LogLine) (s : State) : State :=
  mkSys (limiter s) (clock s)
    (mkWorld (store (world s)) (log (world s) ++ [l]))
    (promises s) (dispatched s) (settled s).

(** [x || d] on an optional page number: [undefined] and [0] are falsy.
    The numbers that reach it are integers, [main] having replaced a [NaN]
    by [1] already. *)
Definition or_else (x : option Z) (d : Z) : Z :=
  match x with
  | Some v => if v =? 0 then d else v
  | None => d
  end.

Definition given (x : option Z) : bool :=
  match x with
  | Some v => negb (v =? 0)
  | None => false
  end.

(** [startPage] and [endPage] as the head of [scrapeTop5000Games] computes
    them. *)
Definition page_range (options : Options) : Z * Z :=
  let startPage0 := or_else (startPage options) 1 in
  let endPage0 := or_else (endPage options) (or_else (maxPages options) 50) in
  match maxPages options with
  | Some m =>
      if negb (m =? 0) && negb (given (startPage options))
         && negb (given (endPage options))
      then (1, m)
      else (startPage0, endPage0)
  | None => (startPage0, endPage0)
  end.

(** The data [saveGame] hands to [createGame]: the three fields of the
    listing, everything else [null] or empty. *)
Definition create_data (game : GameListItem) : CreateData.t :=
  CreateData.mk (rank game) (name game) (bggUrl game)
    None None None None None None None None [] [] [].

(** [saveGame(game)] *)
Definition saveGame (game : GameListItem) (now : Date) (w : World)
    : Result unit * World :=
  match findByBggUrl (bggUrl game) (store w) with
  | Some _ => (Ok tt, w)
  | None =>
      match createGame (create_data game) now (store w) with
      | (Ok _, db) => (Ok tt, mkWorld db (log w))
      | (Throw e, db) =>
          (Throw e, mkWorld db (log w ++ [ErrorSavingGame (name game) e]))
      end
  end.

(** [for (const game of games) { await this.saveGame(game); }] *)
Fixpoint save_all (games : list GameListItem) (now : Date) (w : World)
    : Result unit * World :=
  match games with
  | [] => (Ok tt, w)
  | game :: rest =>
      match saveGame game now w with
      | (Ok _, w1) => save_all rest now w1
      | (Throw e, w1) => (Throw e, w1)
      end
  end.

Section Scraper.
(** What the browser session yields for a ranking page: the navigation, the
    login check, the wait for the rows and [extractGamesFromPage], or the
    error one of them throws. *)
Variable listing : Z → Result (list GameListItem).

Variable timing : nat → Q * Z * Z.
Variable initializeScraper : Result unit.

Definition turn_for (p : nat) : Turn World unit :=
  let '(r, l, d) := timing p in mkTurn r l d [].

(** [new RateLimiter(1500, 2500)], from the constructor of the scraper. *)
Definition start (clock0 : Date) (db : Store) : State :=
  boot 1500 2500 clock0 (mkWorld db []).

(** [scrapePage(pageNumber)]; its [catch] logs and rethrows. *)
Definition scrapePage (pageNumber : Z) : Fn World unit :=
  λ now w,
    let fail e (w1 : World) :=
      (Throw e, mkWorld (store w1) (log w1 ++ [ErrorScrapingPage pageNumber e])) in
    match listing pageNumber with
    | Ok games =>
        let w0 :=
          match games with
          | [] => mkWorld (store w) (log w ++ [NoGamesFound pageNumber])
          | _ :: _ => w
          end in
        match save_all games now w0 with
        | (Ok _, w1) => (Ok tt, w1)
        | (Throw e, w1) => fail e w1
        end
    | Throw e => fail e w
    end.

(** The [for] loop over the pages.  [None]: an awaited promise never
    settles. *)
Fixpoint pages_loop (pages : list Z) (currentProgress : nat) (totalPages : Z)
    (s : State) : option (Result unit * State) :=
  match pages with
  | [] => Some (Ok tt, s)
  | page :: rest =>
      let '(p, s1) := throttle (scrapePage page) [turn_for (promises s)] s in
      match outcome_of p s1 with
      | Some (Ok _) =>
          pages_loop rest (S currentProgress) totalPages
            (logline (Progress (S currentProgress) totalPages page) s1)
      | Some (Throw e) => Some (Throw e, s1)
      | None => None
      end
  end.

(** [scrapeTop5000Games(options)] *)
Definition scrapeTop5000Games (options : Options) (s : State)
    : option (Result unit * State) :=
  match initializeScraper with
  | Throw e => Some (Throw e, s)
  | Ok _ =>
      let '(startPage, endPage) := page_range options in
      let totalPages := endPage - startPage + 1 in
      let totalGames := totalPages * 100 in
      let s1 := logline (StartingToScrape totalGames startPage endPage) s in
      match pages_loop (seqZ startPage totalPages) 0 totalPages s1 with
      | Some (Ok _, s2) =>
          Some (Ok tt,
                logline (SuccessfullyScraped totalGames startPage endPage) s2)
      | Some (Throw e, s2) => Some (Throw e, logline (ErrorScrapingList e) s2)
      | None => None
      end
  end.

(** [getProgress()]: [scraped] and [total]. *)
Definition getProgress (s : State) : Z * Z :=
  (totalGames (getStats (store (world s))), 5000).

(** [main] of [run-list-scraper] *)
Variable parseInt : string → option Z.

Definition options_of (args : list string) : option Options :=
  match args with
  | [] => Some (mkOptions None None (Some 1))
  | [a] => Some (mkOptions None None (Some (or_else (parseInt a) 1)))
  | [a; b] =>
      Some (mkOptions (Some (or_else (parseInt a) 1))
              (Some (or_else (parseInt b) 1)) None)
  | _ => None
  end.

Definition main (argv : list string) (clock0 : Date) (db : Store)
    : option State :=
  let args := filter (λ arg, arg ≠ "--debug") argv in
  let s := start clock0 db in
  match options_of args with
  | None => Some (logline (Exit 1) (logline UsageError s))
  | Some options =>
      match scrapeTop5000Games options s with
      | Some (Ok _, s1) =>
          Some (logline (ScrapingCompleted (fst (getProgress s1))) s1)
      | Some (Throw e, s1) =>
          Some (logline (Exit 1) (logline (ScrapingFailed e) s1))
      | None => None
      end
  end.
End Scraper.
End ListScraper.

(** * Predicates the properties are stated with *)

Section CoordinatorPredicates.
Import GameRepository.

Implicit Types (s : Store) (g : Game.t).

(** The game has a row in a join table. *)
Definition has_link g (links : list Link) : Prop :=
  Exists (λ l, gameId l = Game.id g) links.

(** An item is pending when it has no weight, or no category, no mechanism
    and no family linked to it. *)
Definition pending s g : Prop :=
  Game.weight g = None
  ∨ (¬ has_link g (gameCategories s)
     ∧ ¬ has_link g (gameMechanisms s)
     ∧ ¬ has_link g (gameFamilies s)).

Definition unleased g : Prop := Game.processingBy g = None.

#[global] Instance pending_dec s g : Decision (pending s g).
Proof. unfold pending, has_link. apply _. Defined.

#[global] Instance unleased_dec g : Decision (unleased g).
Proof. unfold unleased. apply _. Defined.


(** The available rows in claim order. *)
Definition candidates s : list Game.t :=
  merge_sort id_le (filter (λ g, Is_true (available s g)) (games s)).

(** The lease columns are the only thing an [updateMany] of the coordinator
    writes. *)
Definition same_but_lease g g' : Prop :=
  Game.set_lease None None g' = Game.set_lease None None g.

Definition same_other_tables s s' : Prop :=
  languageDependences s' = languageDependences s
  ∧ categories s' = categories s
  ∧ mechanisms s' = mechanisms s
  ∧ families s' = families s
  ∧ gameCategories s' = gameCategories s
  ∧ gameMechanisms s' = gameMechanisms s
  ∧ gameFamilies s' = gameFamilies s
  ∧ communityPlayerRatings s' = communityPlayerRatings s
  ∧ communityAgeRatings s' = communityAgeRatings s.

(** The claim that a [releaseAllClaimedGames()] makes every row it released
    available to the next claim. *)
Definition release_all_makes_claimable : Prop :=
  ∀ s i g g',
    games s !! i = Some g → Game.processingBy g ≠ None →
    games (snd (releaseAllClaimedGames s)) !! i = Some g' →
    available (snd (releaseAllClaimedGames s)) g' = true.

(** A lease is all or nothing. *)
Definition lease_all_or_nothing g : Prop :=
  Game.processingBy g = None ↔ Game.processingAt g = None.

(** No item has two owners: rows that stand for the same item and are
    leased name the same worker. *)
Definition single_owner s : Prop :=
  Forall
    (λ g1,
       Forall
         (λ g2,
            Game.id g1 = Game.id g2 →
            Game.processingBy g1 ≠ None → Game.processingBy g2 ≠ None →
            Game.processingBy g1 = Game.processingBy g2)
         (games s))
    (games s).

Definition lease_invariant s : Prop :=
  Forall lease_all_or_nothing (games s) ∧ single_owner s.
End CoordinatorPredicates.

Section PayloadPredicates.
Import GameRepository.

(** The claim that a payload update never turns a complete item pending, so
    that no later claim selects it. *)
Definition completeness_is_monotone : Prop :=
  ∀ (s : Store) gid d now i g g',
    let s' := snd (updateGameWithAllDetails gid d now s) in
    games s !! i = Some g → needs_details s g = false →
    games s' !! i = Some g' →
    needs_details s' g' = false
    ∧ ∀ w (n : nat) t,
        Game.id g ∉ Game.pid <$> fst (claimGamesForProcessing w n t s').

(** The primary key of the game table. *)
Definition unique_ids (s : Store) : Prop := NoDup (Game.id <$> games s).

(** What a payload update may do to a row: nothing, or, on a row with the
    updated id, write the scalars of the payload. *)
Definition payload_written gid (d : Details.t) now (g g' : Game.t) : Prop :=
  g' = g
  ∨ (Game.id g = gid ∧ ∃ lang, g' = write_details d lang now g).
End PayloadPredicates.

Section LimiterPredicates.
Import RateLimiter.
Context {W T : Type}.

(** Dispatch order is submission order: the promises dispatched so far,
    followed by those still queued, are the promises in allocation order. *)
Definition fifo (s : Sys W T) : Prop :=
  (fst <$> dispatched s) ++ (promise <$> queue (limiter s))
  = seq 0 (promises s).

(** Promises settle in the order their operations were dispatched. *)
Definition settled_in_order (s : Sys W T) : Prop :=
  fst <$> settled s = fst <$> dispatched s.

(** Consecutive dispatches lie at least [minDelay] apart, and
    [lastRequestTime] is the time of the latest one. *)
Definition paced_dispatches (s : Sys W T) : Prop :=
  paced (minDelay (limiter s)) (snd <$> dispatched s)
  ∧ ∀ t, last (snd <$> dispatched s) = Some t → lastRequestTime (limiter s) = t.

(** The delay interval is one. *)
Definition interval_ok (s : Sys W T) : Prop :=
  (minDelay (limiter s) <= maxDelay (limiter s))%Q.

(** The two halves of what a limiter keeps true: the order of its
    dispatches, which no timing can disturb, and their pacing, which rests on
    the delays being an interval and on the turns being valid. *)
Definition ordered (s : Sys W T) : Prop := fifo s ∧ settled_in_order s.

Definition well_paced (s : Sys W T) : Prop :=
  paced_dispatches s ∧ interval_ok s.

(** The turns a command brings. *)
Definition turns_of (c : Cmd W T) : list (Turn W T) :=
  match c with
  | Call _ turns => turns
  | Idle _ => []
  end.

(** The tasks that [fs] become when pushed from promise number [p] on. *)
Definition tasks_from (p : nat) (fs : list (Fn W T)) : list (Task W T) :=
  imap (λ i f, mkTask (p + i) f) fs.

Definition quiet (e : Turn W T) : Prop := arrivals e = [].

(** The timing of a turn: [Math.random()], the lateness of the timer, the
    running time of the operation. *)
Definition valid_timing (x : Q * Z * Z) : Prop :=
  (0 <= x.1.1)%Q ∧ (x.1.1 < 1)%Q ∧ 0 ≤ x.1.2.

Definition turn (x : Q * Z * Z) (fs : list (Fn W T)) : Turn W T :=
  mkTurn x.1.1 x.1.2 x.2 fs.

(** Three operations submitted back to back: the first [throttle] starts the
    dispatcher, which runs until it first suspends; the other two calls
    follow before anything else happens. *)
Definition back_to_back (f0 f1 f2 : Fn W T) (x0 x1 x2 : Q * Z * Z) : Cmd W T :=
  Call f0 [turn x0 [f1; f2]; turn x1 []; turn x2 []].
End LimiterPredicates.

Section InterleavingPredicates.
Import RateLimiter Async.
Context {W T : Type}.

(** The promises whose operations are dispatched and have not settled. *)
Definition in_flight (s : Loop W T) : list nat :=
  omap (λ a, match a with
             | Operation p _ _ => Some p
             | Timer _ => None
             end) (suspended s).

(** There is one dispatcher at most: [running] is set exactly while one
    activation is suspended, it waits on a timer only with a task to
    dispatch after it, and with [running] clear nothing is queued. *)
Definition one_dispatcher (s : Loop W T) : Prop :=
  if running (limiter (sys s))
  then ∃ a, suspended s = [a]
            ∧ (∀ due, a = Timer due → queue (limiter (sys s)) ≠ [])
  else suspended s = [] ∧ queue (limiter (sys s)) = [].

(** Promises settle in the order of their dispatch: the settled ones, then
    those in flight, are the dispatched ones. *)
Definition settled_then_in_flight (s : Loop W T) : Prop :=
  (fst <$> settled (sys s)) ++ in_flight s = fst <$> dispatched (sys s).

Definition in_order (s : Loop W T) : Prop :=
  one_dispatcher s ∧ fifo (sys s) ∧ settled_then_in_flight s.

(** A timer that is set fires no sooner than [minDelay] after the latest
    dispatch. *)
Definition timers_keep_pace (s : Loop W T) : Prop :=
  ∀ due, Timer due ∈ suspended s →
    (inject_Z (lastRequestTime (limiter (sys s))) + minDelay (limiter (sys s))
     <= inject_Z due)%Q.

Definition in_pace (s : Loop W T) : Prop :=
  paced_dispatches (sys s) ∧ interval_ok (sys s) ∧ timers_keep_pace s.

(** An event the environment can produce: [Math.random()] lies in [0, 1),
    and a timer does not fire early. *)
Definition valid_event (ev : Event W T) : Prop :=
  match ev with
  | Throttle _ x => valid_timing x
  | Resume _ x => valid_timing x
  | Tick _ => True
  end.

(** The resumptions after which the dispatcher has drained the queue. *)
Definition pending_steps (s : Loop W T) : nat :=
  match suspended s with
  | [Timer _] => 2 * length (queue (limiter (sys s)))
  | [Operation _ _ _] => 2 * length (queue (limiter (sys s))) + 1
  | _ => 0
  end.

(** Three operations submitted back to back, and the dispatcher resumed
    whenever it is suspended. *)
Definition three_calls (f0 f1 f2 : Fn W T) (x0 x1 x2 : Q * Z * Z)
    (xs : list (Q * Z * Z)) : list (Event W T) :=
  Throttle f0 x0 :: Throttle f1 x1 :: Throttle f2 x2 :: (Resume 0 <$> xs).
End InterleavingPredicates.

Section PacingPredicates.
Import RateLimiter Async.

(** Only [Math.random()] is held to its range. *)
Definition random_in_range (ev : Event nat Z) : Prop :=
  match ev with
  | Throttle _ x => (0 <= x.1.1)%Q ∧ (x.1.1 < 1)%Q
  | Resume _ x => (0 <= x.1.1)%Q ∧ (x.1.1 < 1)%Q
  | Tick _ => True
  end.

(** The claim that consecutive dispatches lie at least [minDelay] apart
    whatever the limiter is constructed with and whenever its timers fire. *)
Definition always_paced : Prop :=
  ∀ (lo hi : Q) (clock0 : Date) (events : list (Event nat Z)),
    Forall random_in_range events →
    paced lo
      (snd <$> dispatched (sys (run events (Async.boot lo hi clock0 0%nat)))).
End PacingPredicates.

Section WorkerPredicates.
Import GameRepository RateLimiter DetailScraper.

(** Who holds which item. *)
Definition owners (st : Store) : list (Z * option string) :=
  (λ g, (Game.id g, Game.processingBy g)) <$> games st.

(** The rows no worker holds. *)
Definition free (st : Store) : nat :=
  length (filter (λ v, v.2 = None) (owners st)).

(** A worker between two [throttle] calls: its dispatcher has gone idle. *)
Definition idle (s : State) : Prop :=
  running (limiter s) = false ∧ queue (limiter s) = []
  ∧ fifo s ∧ settled_in_order s.

(** The game a log line gives the verdict on, if it is a verdict. *)
Definition verdict_name (l : LogLine) : option string :=
  match l with
  | Completed _ _ name => Some name
  | FailedToScrape _ name _ => Some name
  | _ => None
  end.

(** A call that returned rather than threw. *)
Definition returned {A} (r : Result A) : Prop :=
  match r with Ok _ => True | Throw _ => False end.

#[global] Instance returned_dec {A} (r : Result A) : Decision (returned r).
Proof. destruct r; simpl; apply _. Defined.

(** The attempt on an item goes through when the browser yields a payload
    and the store has a row of that id to write it to; it fails when the
    extraction throws or the row is missing, which makes the write throw. *)
Definition goes_through (browser : Game.pick → Result Details.t)
    (st : Store) (game : Game.pick) : Prop :=
  returned (browser game) ∧ Game.pid game ∈ Game.id <$> games st.

#[global] Instance goes_through_dec browser st game :
  Decision (goes_through browser st game).
Proof. unfold goes_through. apply _. Defined.

Definition is_verdict (l : LogLine) : Prop := is_Some (verdict_name l).

#[global] Instance is_verdict_dec l : Decision (is_verdict l).
Proof. unfold is_verdict. apply _. Defined.

(** The verdict an attempt calls for: [Completed] when it goes through,
    [FailedToScrape] when it does not, with the error of the browser when
    that is what failed. *)
Definition verdict_on (browser : Game.pick → Result Details.t)
    (workerId : string) (st : Store) (game : Game.pick) (line : LogLine)
    : Prop :=
  (goes_through browser st game
   ∧ ∃ k, line = Completed workerId k (Game.pname game))
  ∨ (¬ goes_through browser st game
     ∧ ∃ e, line = FailedToScrape workerId (Game.pname game) e
            ∧ ∀ e', browser game = Throw e' → e = e').

End WorkerPredicates.

Section LauncherPredicates.
Import Launcher.

(** The workers an effect list starts, in order. *)
Definition started (out : list Effect) : list string :=
  omap (λ eff,
          match eff with
          | RunSingleWorker workerId _ => Some workerId
          | Spawn _ workerId => Some workerId
          | _ => None
          end) out.

(** [process.argv.slice(2)] without the two flags. *)
Definition positional (argv : list string) : list string :=
  filter (λ arg, arg ≠ "--debug" ∧ arg ≠ "--single-process") argv.
End LauncherPredicates.

Section StorePredicates.
Import GameRepository.

(** No lease column is set: the state a successful global cleanup leaves
    behind when the lease columns went together before it. *)
Definition clean (s : Store) : Prop :=
  Forall (λ g, Game.processingBy g = None ∧ Game.processingAt g = None)
    (games s).

(** [bggUrl] is a unique column of the game table. *)
Definition unique_urls (s : Store) : Prop := NoDup (Game.bggUrl <$> games s).

(** The primary key of a lookup table. *)
Definition unique_named (rows : list Named) : Prop := NoDup (nid <$> rows).

(** Every join row points to a row of its lookup table. *)
Definition references (links : list Link) (rows : list Named) : Prop :=
  ∀ l, l ∈ links → ∃ r, r ∈ rows ∧ nid r = targetId l.

(** The foreign keys of the three join tables hold. *)
Definition consistent (s : Store) : Prop :=
  references (gameCategories s) (categories s)
  ∧ references (gameMechanisms s) (mechanisms s)
  ∧ references (gameFamilies s) (families s).


(** The compound keys [gameId_playerCount] and [gameId_age]. *)
Definition pr_key (r : PlayerRating) : Z * Z := (pr_gameId r, playerCount r).

Definition ar_key (r : AgeRating) : Z * Z := (ar_gameId r, age r).

(** The row a player rating of a payload is stored as. *)
Definition pr_row (gid : Z) (r : Details.playerRating) : PlayerRating :=
  mkPlayerRating gid (Details.playerCount r) (Details.bestPercentage r)
    (Details.recommendedPercentage r) (Details.notRecommendedPercentage r)
    (Details.totalVotes r).

(** A row after the in-place halves of a sequence of upserts: each upsert
    that addresses the row ([same]) replaces it by the row it writes. *)
Definition settle {A R} (same : R → A → bool) (row : R → A) (rs : list R)
    (x : A) : A :=
  foldl (λ y r, if same r y then row r else y) x rs.

(** The row an age rating of a payload is stored as. *)
Definition ar_row (gid : Z) (r : Details.ageRating) : AgeRating :=
  mkAgeRating gid (Details.age r) (Details.percentage r) (Details.voteCount r).
End StorePredicates.

Section ListPredicates.
Import ListScraper.

(** The row a listing entry is stored as: its three fields, no details and
    no lease. *)
Definition stored_as (item : GameListItem) (g : Game.t) : Prop :=
  Game.rank g = rank item ∧ Game.name g = name item
  ∧ Game.bggUrl g = bggUrl item
  ∧ Game.weight g = None ∧ Game.year g = None
  ∧ Game.processingBy g = None ∧ Game.processingAt g = None.

(** The pages the loop of [scrapeTop5000Games] goes through. *)
Definition pages_of (options : Options) : list Z :=
  seqZ (page_range options).1
    ((page_range options).2 - (page_range options).1 + 1).
End ListPredicates.

Section RunPredicates.
Import RateLimiter DetailScraper.

(** The names a worker has given a verdict on, in order. *)
Definition verdicts (s : State) : list string :=
  omap verdict_name (log (world s)).

Definition is_completed (l : LogLine) : bool :=
  match l with
  | Completed _ _ _ => true
  | _ => false
  end.

(** The number of items a worker has logged as completed. *)
Definition completions (s : State) : nat :=
  length (filter (λ l, Is_true (is_completed l)) (log (world s))).

Definition is_failed (l : LogLine) : bool :=
  match l with
  | FailedToScrape _ _ _ => true
  | _ => false
  end.

(** The number of items a worker has logged as failed. *)
Definition failures (s : State) : nat :=
  length (filter (λ l, Is_true (is_failed l)) (log (world s))).

(** The modes in which [main] runs the global cleanup: every one but that
    of a game id other than 0. *)
Definition sweeping (m : DetailMain.Mode) : Prop :=
  match m with
  | DetailMain.WorkerMode _ => True
  | DetailMain.AllGames => True
  | DetailMain.SingleGame gameId => gameId = 0
  | _ => False
  end.
End RunPredicates.

Section DispatcherPredicates.
Import RateLimiter.
Context {W T : Type}.

(** A limiter between two [throttle] calls of a caller that awaits each
    one: nothing queued, the dispatcher stopped. *)
Definition at_rest (s : Sys W T) : Prop :=
  running (limiter s) = false ∧ queue (limiter s) = []
  ∧ fifo s ∧ settled_in_order s.

(** The dispatcher stops only when the queue is empty. *)
Definition stops_when_drained (s : Sys W T) : Prop :=
  running (limiter s) = false → queue (limiter s) = [].
End DispatcherPredicates.

(** * Fixtures *)

(** A row with the given id, weight and lease, everything else blank. *)
Definition row (i : Z) (weight : option float) (owner : option string)
    (stamp : option Date) : Game.t :=
  Game.mk i i ("game-" +:+ pretty i)
    ("https://boardgamegeek.com/boardgame/" +:+ pretty i)
    None None None None None weight None None 0 owner stamp.

(** A store with the given games and category links and nothing else. *)
Definition backlog (gs : list Game.t) (links : list Link) : Store :=
  mkStore gs [] [] [] [] links [] [] [] [].

(** Five items: 3 and 1 pending and free, 2 pending and leased, 4 complete and
    free, 5 complete and still leased. *)
Definition five_items : Store :=
  backlog
    [row 3 None None None;
     row 1 None None None;
     row 2 None (Some "worker-2") (Some 50);
     row 4 (Some (5 # 2)%Q) None None;
     row 5 (Some (7 # 2)%Q) (Some "worker-1") (Some 60)]
    [mkLink 4 1; mkLink 5 1].

(** Seven items that differ in what makes them pending: 6 and 9 have a
    weight and no link at all, 4 and 7 a weight and one link (a category, a
    family), 3 has links but no weight; 2 has no weight and 8 no link, and
    both are leased. *)
Definition shelf : Store :=
  mkStore
    [row 6 (Some 2%Q) None None;
     row 4 (Some (5 # 2)%Q) None None;
     row 7 (Some 3%Q) None None;
     row 3 None None None;
     row 9 (Some 4%Q) None None;
     row 2 None (Some "worker-2") (Some 50);
     row 8 (Some 3%Q) (Some "worker-1") (Some 60)]
    [] [mkNamed 1 "Economic"] [mkNamed 1 "Hand Management"]
    [mkNamed 1 "Crowdfunding"]
    [mkLink 4 1; mkLink 3 1] [mkLink 3 1] [mkLink 7 1] [] [].


(** A payload in which the extraction found nothing. *)
Definition blank_payload : Details.t :=
  Details.mk None None None None None None None None [] [] [] [] [].

(** A payload with a weight and one mechanism. *)
Definition weighted_payload : Details.t :=
  Details.mk (Some 2017) (Some 1) (Some 4) (Some 30) (Some 60)
    (Some (9 # 4)%Q) (Some 10) None [] ["Deck Building"] [] [] [].

(** Operations on a counter: one that succeeds with a value, one that fails. *)
Definition op_ok (v : Z) : RateLimiter.Fn nat Z := λ _ n, (Ok v, S n).

Definition op_fail (msg : string) : RateLimiter.Fn nat Z :=
  λ _ n, (Throw msg, S n).

Definition timing0 : Q * Z * Z := ((1 # 2)%Q, 0, 100).
Definition timing1 : Q * Z * Z := (0%Q, 5, 100).
Definition timing2 : Q * Z * Z := ((3 # 4)%Q, 0, 100).

(** Three operations back to back, the second failing; later, a fourth. *)
Definition demo_cmds : list (RateLimiter.Cmd nat Z) :=
  [back_to_back (op_ok 10) (op_fail "boom") (op_ok 30) timing0 timing1 timing2;
   RateLimiter.Idle 10000;
   RateLimiter.Call (op_ok 40) [turn timing1 []]].

(** The turns the dispatcher of three operations is resumed with. *)
Definition six_turns : list (Q * Z * Z) :=
  [timing0; timing1; timing1; timing2; timing2; timing0].

(** Three operations back to back, the second failing, and the dispatcher
    resumed until it stops; later, a fourth. *)
Definition demo_events : list (Async.Event nat Z) :=
  three_calls (op_ok 10) (op_fail "boom") (op_ok 30) timing0 timing1 timing2
    six_turns
  ++ [Async.Tick 10000; Async.Throttle (op_ok 40) timing1;
      Async.Resume 0 timing1; Async.Resume 0 timing1].

(** Timers that fire a millisecond early, under two operations submitted
    back to back. *)
Definition early : Q * Z * Z := (0%Q, -1, 100).

Definition early_events : list (Async.Event nat Z) :=
  [Async.Throttle (op_ok 10) early; Async.Throttle (op_ok 20) early;
   Async.Resume 0 early; Async.Resume 0 early; Async.Resume 0 early].

(** The same two operations with timers that fire on time. *)
Definition on_time_events : list (Async.Event nat Z) :=
  [Async.Throttle (op_ok 10) timing0; Async.Throttle (op_ok 20) timing0;
   Async.Resume 0 timing0; Async.Resume 0 timing0; Async.Resume 0 timing0].

(** A browser that fails on every page, one that fails on item 1 only, and
    one that fails on item 2 only. *)
Definition failing_browser : Game.pick → Result Details.t :=
  λ _, Throw "Timeout 30000ms exceeded".

Definition browser_failing_on_1 : Game.pick → Result Details.t :=
  λ game,
    if Game.pid game =? 1 then Throw "Timeout 30000ms exceeded"
    else Ok weighted_payload.

Definition browser_failing_on_2 : Game.pick → Result Details.t :=
  λ game,
    if Game.pid game =? 2 then Throw "Timeout 30000ms exceeded"
    else Ok weighted_payload.

Definition steady : nat → Q * Z * Z := λ _, ((1 # 2)%Q, 0, 700).

(** A browser that finds the same payload on every page. *)
Definition steady_browser : Game.pick → Result Details.t :=
  λ _, Ok weighted_payload.

(** Three pending items, none leased. *)
Definition three_pending : Store :=
  backlog [row 1 None None None; row 2 None None None; row 3 None None None] [].

(** A worker that has just claimed the one item of its backlog. *)
Definition one_item_claimed : DetailScraper.State :=
  DetailScraper.start 0
    (snd (GameRepository.claimGamesForProcessing "worker-1" 5 0
            (backlog [row 1 None None None] []))).

(** A [parseInt] for plain decimal numerals. *)
Fixpoint digits (text : string) (acc : Z) : option Z :=
  match text with
  | EmptyString => Some acc
  | String c rest =>
      let n := Z.of_nat (Ascii.nat_of_ascii c) - 48 in
      if (0 <=? n) && (n <=? 9) then digits rest (10 * acc + n) else None
  end.

Definition parse_decimal (text : string) : option Z :=
  match text with
  | EmptyString => None
  | String _ _ => digits text 0
  end.

(** The data of a game as a caller of [createGame] gives it. *)
Definition brass : CreateData.t :=
  CreateData.mk 1 "Brass: Birmingham"
    "https://boardgamegeek.com/boardgame/224517" (Some 2018) (Some 2) (Some 4)
    (Some 60) (Some 120) None None (Some 14) ["Economic"] ["Hand Management"]
    [].

(** A limiter with one task queued, 5000 ms after its start. *)
Definition one_queued : RateLimiter.Sys nat Z :=
  RateLimiter.push (op_ok 10) (RateLimiter.boot 1000 2000 5000 0%nat).

(** Two ranking pages, and a third that cannot be loaded. *)
Definition ranking : Z → Result (list ListScraper.GameListItem) :=
  λ page,
    if page =? 1 then
      Ok [ListScraper.mkItem 1 "Brass: Birmingham"
            "https://boardgamegeek.com/boardgame/224517";
          ListScraper.mkItem 2 "Pandemic Legacy: Season 1"
            "https://boardgamegeek.com/boardgame/161936"]
    else if page =? 2 then
      Ok [ListScraper.mkItem 3 "Gloomhaven"
            "https://boardgamegeek.com/boardgame/174430";
          ListScraper.mkItem 1 "Brass: Birmingham"
            "https://boardgamegeek.com/boardgame/224517"]
    else Throw "Timeout 30000ms exceeded".

(** The same game with a category named twice. *)
Definition brass_twice : CreateData.t :=
  CreateData.mk 1 "Brass: Birmingham"
    "https://boardgamegeek.com/boardgame/224517" (Some 2018) (Some 2) (Some 4)
    (Some 60) (Some 120) None None (Some 14) ["Economic"; "Economic"]
    ["Hand Management"] [].

(** * Properties *)

(** ** The lease coordinator *)

Section Coordinator.
Import GameRepository.

Implicit Types (s : Store) (g : Game.t) (w : string) (now : Date).
Implicit Types (cond : Game.t → bool) (owner : option string).
Implicit Types (stamp : option Date).

Lemma candidates_length s : length (candidates s) = count (available s) s.
Proof.
  unfold candidates, count.
  apply Permutation_length, merge_sort_Permutation.
Qed.

Lemma candidates_elem s g :
  g ∈ candidates s ↔ available s g ∧ g ∈ games s.
Proof.
  unfold candidates.
  rewrite (merge_sort_Permutation id_le), list_elem_of_filter.
  reflexivity.
Qed.

Lemma candidates_sorted s : StronglySorted id_le (candidates s).
Proof. apply StronglySorted_merge_sort; apply _. Qed.

Lemma availableGames_eq n s :
  availableGames n s = Game.select <$> take n (candidates s).
Proof. reflexivity. Qed.

Lemma pid_select (l : list Game.t) :
  Game.pid <$> (Game.select <$> l) = Game.id <$> l.
Proof. rewrite <- list_fmap_compose. reflexivity. Qed.

Lemma updateMany_games cond owner stamp s :
  Forall2 (λ g g', g' = if cond g then Game.set_lease owner stamp g else g)
    (games s) (games (updateMany cond owner stamp s)).
Proof.
  unfold updateMany. simpl.
  apply Forall2_fmap_r, Forall_Forall2_diag, Forall_forall.
  intros g _. reflexivity.
Qed.

Lemma updateMany_other_tables cond owner stamp s :
  same_other_tables s (updateMany cond owner stamp s).
Proof. repeat split. Qed.

Lemma claim_store w n now s :
  snd (claimGamesForProcessing w n now s)
  = updateMany (id_in (Game.pid <$> availableGames n s)) (Some w) (Some now) s.
Proof.
  unfold claimGamesForProcessing.
  destruct (availableGames n s) as [|r found] eqn:E; simpl; [|reflexivity].
  unfold updateMany, id_in. destruct s as [gs ? ? ? ? ? ? ? ? ?].
  unfold set_games; simpl. f_equal.
  symmetry. etrans; [|apply list_fmap_id].
  apply list_fmap_ext. intros i g _. reflexivity.
Qed.

Lemma claim_found w n now s :
  fst (claimGamesForProcessing w n now s) = availableGames n s.
Proof.
  unfold claimGamesForProcessing.
  destruct (availableGames n s); reflexivity.
Qed.

Lemma availableGames_from n s r :
  r ∈ availableGames n s →
  ∃ g, g ∈ games s ∧ available s g = true ∧ r = Game.select g.
Proof.
  rewrite availableGames_eq.
  intros (g & -> & Hg)%list_elem_of_fmap.
  exists g. apply elem_of_take in Hg as (i & Hi & _).
  apply list_elem_of_lookup_2, candidates_elem in Hi as [Ha Hin].
  split; [exact Hin|]. split; [|reflexivity].
  apply Is_true_true, Ha.
Qed.

Lemma availableGames_length n s :
  length (availableGames n s) = (n `min` count (available s) s)%nat.
Proof.
  rewrite availableGames_eq, length_fmap, length_take, candidates_length.
  reflexivity.
Qed.





(** *** Releasing *)

Lemma updateMany_elem cond owner stamp s g' :
  g' ∈ games (updateMany cond owner stamp s)
  ↔ ∃ g, g ∈ games s
        ∧ g' = if cond g then Game.set_lease owner stamp g else g.
Proof.
  unfold updateMany. simpl. rewrite list_elem_of_fmap.
  split; intros (g & H1 & H2); exists g; split; assumption.
Qed.

Lemma updateMany_untouched cond owner stamp s :
  (∀ g, g ∈ games s → cond g = false) → updateMany cond owner stamp s = s.
Proof.
  intros Hno. unfold updateMany. destruct s as [gs ? ? ? ? ? ? ? ? ?].
  unfold set_games; simpl in *. f_equal.
  etrans; [|apply list_fmap_id].
  apply list_fmap_ext. intros i g Hg.
  rewrite (Hno g); [reflexivity|].
  eapply list_elem_of_lookup_2, Hg.
Qed.

Lemma leased_by_spec w g :
  leased_by w g = true ↔ Game.processingBy g = Some w.
Proof. unfold leased_by. apply bool_decide_eq_true. Qed.

Lemma leased_spec g : leased g = true ↔ Game.processingBy g ≠ None.
Proof.
  unfold leased, is_null.
  destruct (Game.processingBy g); simpl; split; congruence.
Qed.

Lemma released_not_leased_by w s g' :
  g' ∈ games (releaseClaimedGames w s) → leased_by w g' = false.
Proof.
  intros (g & _ & ->)%updateMany_elem.
  destruct (leased_by w g) eqn:E; [|exact E].
  unfold leased_by. apply bool_decide_eq_false. simpl. discriminate.
Qed.

Lemma release_worker_idempotent w s :
  releaseClaimedGames w (releaseClaimedGames w s) = releaseClaimedGames w s
  ∧ ((∀ g, g ∈ games s → Game.processingBy g ≠ Some w) →
     releaseClaimedGames w s = s).
Proof.
  split.
  - apply updateMany_untouched. intros g. apply released_not_leased_by.
  - intros Hnone. apply updateMany_untouched. intros g Hg.
    apply bool_decide_eq_false, Hnone, Hg.
Qed.

(** C9. [releaseClaimedGames(w)] clears both lease columns of exactly the
    rows leased to [w], leaving their other columns, every other row and
    every other table as they were; releasing a second time changes nothing
    more; and with no row leased to [w] the store is left as it is. *)
Theorem release_worker_exact_idempotent w s :
  let s' := releaseClaimedGames w s in
  Forall2
    (λ g g',
       if bool_decide (Game.processingBy g = Some w)
       then Game.processingBy g' = None
            ∧ Game.processingAt g' = None
            ∧ same_but_lease g g'
       else g' = g)
    (games s) (games s')
  ∧ same_other_tables s s'
  ∧ releaseClaimedGames w s' = s'
  ∧ ((∀ g, g ∈ games s → Game.processingBy g ≠ Some w) → s' = s).
Proof.
  intros s'. subst s'. split; [|split; [|split]].
  - eapply Forall2_impl; [apply updateMany_games|].
    intros g g' ->. unfold leased_by.
    destruct (bool_decide _); [|reflexivity].
    repeat split.
  - apply updateMany_other_tables.
  - exact (proj1 (release_worker_idempotent w s)).
  - exact (proj2 (release_worker_idempotent w s)).
Qed.

Lemma needs_details_set_lease owner stamp s s' g :
  same_other_tables s s' →
  needs_details s' (Game.set_lease owner stamp g) = needs_details s g.
Proof.
  intros (_ & _ & _ & _ & Hc & Hm & Hf & _).
  unfold needs_details. rewrite Hc, Hm, Hf. reflexivity.
Qed.

Lemma needs_details_other_tables s s' g :
  same_other_tables s s' → needs_details s' g = needs_details s g.
Proof.
  intros (_ & _ & _ & _ & Hc & Hm & Hf & _).
  unfold needs_details. rewrite Hc, Hm, Hf. reflexivity.
Qed.

(** C8, amended. [releaseAllClaimedGames()] clears both lease columns of
    every leased row whoever owns it, leaves the other columns, the unleased
    rows and the other tables as they were, and returns the number of rows
    that were leased; afterwards no row is leased, and a row is available to
    a claim exactly when it is pending, so of the released rows exactly the
    pending ones have become claimable again. *)
Theorem release_all_clears_and_counts s :
  let n := fst (releaseAllClaimedGames s) in
  let s' := snd (releaseAllClaimedGames s) in
  n = length (filter (λ g, Game.processingBy g ≠ None) (games s))
  ∧ Forall2
      (λ g g',
         (if bool_decide (Game.processingBy g ≠ None)
          then same_but_lease g g'
          else g' = g)
         ∧ Game.processingBy g' = None
         ∧ (Game.processingBy g ≠ None → Game.processingAt g' = None)
         ∧ available s' g' = needs_details s g)
      (games s) (games s')
  ∧ same_other_tables s s'.
Proof.
  intros n s'. subst n s'. simpl.
  split; [|split].
  - unfold count. f_equal. apply list_filter_iff. intros g.
    rewrite Is_true_true. apply leased_spec.
  - eapply Forall2_impl; [apply updateMany_games|].
    intros g g' ->.
    pose proof (updateMany_other_tables leased None None s) as Hsame.
    unfold available.
    destruct (leased g) eqn:E.
    + rewrite bool_decide_eq_true_2 by (apply leased_spec, E).
      rewrite (needs_details_set_lease _ _ s) by exact Hsame.
      repeat split.
    + assert (Game.processingBy g = None) as Hnone.
      { destruct (Game.processingBy g) eqn:Eby; [|reflexivity].
        exfalso. assert (leased g = true) as Ht.
        { apply leased_spec. rewrite Eby. discriminate. }
        congruence. }
      rewrite bool_decide_eq_false_2 by (intros H; apply H, Hnone).
      rewrite (needs_details_other_tables s) by exact Hsame.
      rewrite Hnone. repeat split. intros H. exfalso. apply H. reflexivity.
  - apply updateMany_other_tables.
Qed.

(** *** The lease invariant *)

Lemma updateMany_invariant cond owner stamp s :
  (owner = None ↔ stamp = None) →
  (owner ≠ None →
   ∀ g1 g2, Game.id g1 = Game.id g2 → cond g1 = true → cond g2 = true) →
  lease_invariant s → lease_invariant (updateMany cond owner stamp s).
Proof.
  intros Hpair Hclosed [Hall Hone]. split.
  - apply Forall_forall. intros g' (g & Hg & ->)%updateMany_elem.
    destruct (cond g).
    + unfold lease_all_or_nothing. simpl. exact Hpair.
    + eapply Forall_forall in Hall; eauto.
  - unfold single_owner in *. rewrite !Forall_forall in *.
    intros g1' (g1 & Hg1 & ->)%updateMany_elem.
    rewrite Forall_forall.
    intros g2' (g2 & Hg2 & ->)%updateMany_elem.
    pose proof (Hone g1 Hg1) as H12. rewrite Forall_forall in H12.
    specialize (H12 g2 Hg2).
    pose proof (Hone g2 Hg2) as H21. rewrite Forall_forall in H21.
    specialize (H21 g1 Hg1).
    destruct (cond g1) eqn:E1, (cond g2) eqn:E2; simpl; intros Hid N1 N2.
    + reflexivity.
    + exfalso. assert (cond g2 = true); [|congruence].
      eapply (Hclosed N1 g1 g2); eauto.
    + exfalso. assert (cond g1 = true); [|congruence].
      eapply (Hclosed N2 g2 g1); eauto.
    + auto.
Qed.

(** C3. Each of the three coordinator operations keeps the lease invariant:
    on every row [processingBy] is null exactly when [processingAt] is, and
    no item is leased to two workers. *)
Theorem coordinator_keeps_lease_invariant w (n : nat) now s :
  lease_invariant s →
  lease_invariant (snd (claimGamesForProcessing w n now s))
  ∧ lease_invariant (releaseClaimedGames w s)
  ∧ lease_invariant (snd (releaseAllClaimedGames s)).
Proof.
  intros Hinv. split; [|split].
  - rewrite claim_store. apply updateMany_invariant; [| |exact Hinv].
    + split; discriminate.
    + intros _ g1 g2 Hid. unfold id_in. rewrite Hid. auto.
  - apply updateMany_invariant; [| |exact Hinv].
    + split; reflexivity.
    + intros H. exfalso. apply H. reflexivity.
  - apply updateMany_invariant; [| |exact Hinv].
    + split; reflexivity.
    + intros H. exfalso. apply H. reflexivity.
Qed.

(** On [five_items] the invariant holds before, and after each operation. *)
Lemma coordinator_keeps_lease_invariant_witness :
  lease_invariant five_items
  ∧ lease_invariant
      (snd (GameRepository.claimGamesForProcessing "worker-3" 5 70 five_items))
  ∧ lease_invariant (GameRepository.releaseClaimedGames "worker-3" five_items)
  ∧ lease_invariant (snd (GameRepository.releaseAllClaimedGames five_items)).
Proof.
  assert (lease_invariant five_items) as H.
  { split.
    - repeat constructor; simpl; congruence.
    - repeat constructor; simpl; congruence. }
  split; [exact H|].
  exact (coordinator_keeps_lease_invariant "worker-3" 5 70 five_items H).
Defined.


(** Releasing a worker that holds nothing in [five_items], and one that
    holds item 2. *)
Lemma release_worker_exact_idempotent_witness :
  (∀ g, g ∈ games five_items → Game.processingBy g ≠ Some "worker-9")
  ∧ GameRepository.releaseClaimedGames "worker-9" five_items = five_items
  ∧ GameRepository.releaseClaimedGames "worker-2"
      (GameRepository.releaseClaimedGames "worker-2" five_items)
    = GameRepository.releaseClaimedGames "worker-2" five_items
  ∧ owners (GameRepository.releaseClaimedGames "worker-2" five_items)
    = [(3, None); (1, None); (2, None); (4, None); (5, Some "worker-1")].
Proof.
  assert (∀ g, g ∈ games five_items → Game.processingBy g ≠ Some "worker-9")
    as Hnone.
  { intros g Hg. apply list_elem_of_In in Hg. simpl in Hg.
    destruct Hg as [<-|[<-|[<-|[<-|[<-|[]]]]]]; discriminate. }
  split; [exact Hnone|].
  pose proof (release_worker_exact_idempotent "worker-9" five_items)
    as (_ & _ & _ & Hnoop).
  pose proof (release_worker_exact_idempotent "worker-2" five_items)
    as (_ & _ & Hidem & _).
  split; [exact (Hnoop Hnone)|]. split; [exact Hidem|]. reflexivity.
Defined.

(** The sweep over [five_items]: two leases cleared, and afterwards exactly
    the pending rows are available. *)
Lemma release_all_clears_and_counts_witness :
  fst (GameRepository.releaseAllClaimedGames five_items) = 2%nat
  ∧ owners (snd (GameRepository.releaseAllClaimedGames five_items))
    = [(3, None); (1, None); (2, None); (4, None); (5, None)]
  ∧ Forall2
      (λ g g',
         GameRepository.available
           (snd (GameRepository.releaseAllClaimedGames five_items)) g'
         = GameRepository.needs_details five_items g)
      (games five_items)
      (games (snd (GameRepository.releaseAllClaimedGames five_items))).
Proof.
  pose proof (release_all_clears_and_counts five_items) as (Hn & Hrows & _).
  split; [exact Hn|]. split; [reflexivity|].
  eapply Forall2_impl; [exact Hrows|].
  intros g g' (_ & _ & _ & H). exact H.
Defined.

(** The batch a claim of three takes from [five_items], and the leases after. *)
Example claim_on_five_items :
  GameRepository.claimGamesForProcessing "worker-3" 3 70 five_items
  = ([Game.mkPick 1 "https://boardgamegeek.com/boardgame/1" "game-1";
      Game.mkPick 3 "https://boardgamegeek.com/boardgame/3" "game-3"],
     backlog
       [row 3 None (Some "worker-3") (Some 70);
        row 1 None (Some "worker-3") (Some 70);
        row 2 None (Some "worker-2") (Some 50);
        row 4 (Some (5 # 2)%Q) None None;
        row 5 (Some (7 # 2)%Q) (Some "worker-1") (Some 60)]
       [mkLink 4 1; mkLink 5 1]).
Proof. vm_compute. reflexivity. Qed.

(** C8 as stated fails: item 5 of [five_items] is complete and leased; the
    sweep counts and releases it, and it is not available to a claim. *)
Lemma release_all_complete_item_not_claimable : ¬ release_all_makes_claimable.
Proof.
  intros H.
  specialize
    (H five_items 4%nat
       (row 5 (Some (7 # 2)%Q) (Some "worker-1") (Some 60))
       (row 5 (Some (7 # 2)%Q) None None)).
  vm_compute in H.
  assert (false = true) as Hf; [|discriminate Hf].
  apply H; [reflexivity|discriminate|reflexivity].
Qed.

(** Two claims run one after the other hand out disjoint batches. *)
Lemma successive_claims_disjoint w1 w2 (n1 n2 : nat) now1 now2 s :
  let first := claimGamesForProcessing w1 n1 now1 s in
  let second := claimGamesForProcessing w2 n2 now2 (snd first) in
  ∀ i, i ∈ Game.pid <$> fst first → i ∉ Game.pid <$> fst second.
Proof.
  intros first second i Hi Hi2. subst first second.
  apply list_elem_of_fmap in Hi2 as (r & -> & Hr).
  rewrite claim_found in Hr.
  destruct (availableGames_from _ _ r Hr) as (g' & Hg' & Hav & ->).
  rewrite claim_store in Hg'.
  apply updateMany_elem in Hg' as (g & Hg & ->).
  rewrite claim_found in Hi.
  unfold available in Hav.
  destruct (id_in (Game.pid <$> availableGames n1 s) g) eqn:E.
  - simpl in Hav. discriminate.
  - unfold id_in in E. apply bool_decide_eq_false in E.
    apply E. exact Hi.
Qed.
(** The same two claims with their statements taken apart, both [findMany]
    run before either [updateMany]: both callers are handed items 1 and 2.
    That the batches of concurrent claims are disjoint therefore rests on
    the transaction keeping the two statements of one claim together. *)
Example reads_before_writes_overlap :
  let found1 := availableGames 2 three_pending in
  let found2 := availableGames 2 three_pending in
  let st1 :=
    updateMany (id_in (Game.pid <$> found1)) (Some "worker-1") (Some 10)
      three_pending in
  let st2 :=
    updateMany (id_in (Game.pid <$> found2)) (Some "worker-2") (Some 11) st1 in
  Game.pid <$> found1 = [1; 2]
  ∧ Game.pid <$> found2 = [1; 2]
  ∧ owners st2 = [(1, Some "worker-2"); (2, Some "worker-2"); (3, None)].
Proof. vm_compute. repeat split. Qed.
End Coordinator.

(** ** Payload updates and completeness *)

Section Payload.
Import GameRepository.

Implicit Types (s : Store) (g : Game.t) (d : Details.t) (links : list Link).

Lemma upsert_link_grows l0 links l : l ∈ links → l ∈ upsert_link l0 links.
Proof.
  unfold upsert_link. destruct (existsb _ _); [auto|].
  intros H. apply elem_of_app. left. exact H.
Qed.

Lemma upsert_links_grows gid ids links l :
  l ∈ links → l ∈ upsert_links gid ids links.
Proof.
  unfold upsert_links. revert links.
  induction ids as [|i ids IH]; intros links H; simpl; [exact H|].
  apply IH, upsert_link_grows, H.
Qed.

Lemma none_for_false g links :
  none_for g links = false ↔ ∃ l, l ∈ links ∧ gameId l = Game.id g.
Proof.
  unfold none_for. induction links as [|l links IH]; simpl.
  - split; [discriminate|]. intros (l & H & _). inversion H.
  - rewrite andb_false_iff, IH, negb_false_iff, Z.eqb_eq. split.
    + intros [H|(l' & H & E)].
      * exists l. split; [left|exact H].
      * exists l'. split; [right; exact H|exact E].
    + intros (l' & H & E). apply elem_of_cons in H as [->|H].
      * left. exact E.
      * right. exists l'. split; assumption.
Qed.

Lemma none_for_grows g links links' :
  (∀ l, l ∈ links → l ∈ links') →
  none_for g links = false → none_for g links' = false.
Proof.
  intros Hsub. rewrite !none_for_false.
  intros (l & H & E). exists l. split; [apply Hsub, H|exact E].
Qed.

Lemma none_for_id g g' links :
  Game.id g' = Game.id g → none_for g' links = none_for g links.
Proof. unfold none_for. intros ->. reflexivity. Qed.

Lemma lookups_frame d s :
  let s1 := snd (lookups d s) in
  games s1 = games s
  ∧ gameCategories s1 = gameCategories s
  ∧ gameMechanisms s1 = gameMechanisms s
  ∧ gameFamilies s1 = gameFamilies s.
Proof.
  unfold lookups.
  repeat match goal with
         | |- context [let '(_, _) := ?x in _] => destruct x
         end.
  simpl. repeat split.
Qed.

Lemma existsb_has_id_written gid d lang now (gs : list Game.t) :
  existsb (has_id gid)
    ((λ g, if has_id gid g then write_details d lang now g else g) <$> gs)
  = existsb (has_id gid) gs.
Proof.
  induction gs as [|g gs IH]; [reflexivity|].
  rewrite fmap_cons. simpl. rewrite IH. f_equal.
  destruct (has_id gid g) eqn:Hg; [|exact Hg]. exact Hg.
Qed.

Lemma existsb_has_id gid (gs : list Game.t) :
  existsb (has_id gid) gs = true ↔ ∃ g, g ∈ gs ∧ Game.id g = gid.
Proof.
  rewrite existsb_exists. unfold has_id. split.
  - intros (g & Hin & Hid). exists g. split; [apply list_elem_of_In; exact Hin|].
    apply Z.eqb_eq. exact Hid.
  - intros (g & Hin & Hid). exists g. split; [apply list_elem_of_In; exact Hin|].
    apply Z.eqb_eq. exact Hid.
Qed.

(** The community update of a game that has a row goes through. *)
Lemma community_of_stored gid prs ars s :
  existsb (has_id gid) (games s) = true →
  updateGameWithCommunityData gid prs ars s
  = (Ok (), community_upserts gid prs ars s).
Proof. intros He. unfold updateGameWithCommunityData. rewrite He. reflexivity. Qed.

(** Step 3 of [updateGameWithAllDetails] is reached only with the row of the
    game in place, so it never is what throws. *)
Lemma updateGameWithAllDetails_eq gid d now s :
  updateGameWithAllDetails gid d now s
  = let '((lang, categoryIds, mechanismIds, familyIds), s1) := lookups d s in
    if negb (existsb (has_id gid) (games s1))
    then (Throw "Record to update not found", s1)
    else
      (Ok (),
       community_upserts gid (Details.communityPlayerRatings d)
         (Details.communityAgeRatings d)
         (mkStore
            ((λ g, if has_id gid g then write_details d lang now g else g)
               <$> games s1)
            (languageDependences s1) (categories s1) (mechanisms s1)
            (families s1)
            (upsert_links gid categoryIds (gameCategories s1))
            (upsert_links gid mechanismIds (gameMechanisms s1))
            (upsert_links gid familyIds (gameFamilies s1))
            (communityPlayerRatings s1) (communityAgeRatings s1))).
Proof.
  unfold updateGameWithAllDetails.
  destruct (lookups d s) as [[[[lang cs] ms] fs] s1].
  destruct (existsb (has_id gid) (games s1)) eqn:He; [|reflexivity].
  cbn [negb]. apply community_of_stored.
  cbn [games]. rewrite existsb_has_id_written. exact He.
Qed.

(** What [updateGameWithAllDetails] does to the rows and the links, whether
    it returns or throws: rows keep their place, a row is rewritten only if
    it has the id, and links are only ever added. *)
Lemma update_shape gid d now s :
  let s' := snd (updateGameWithAllDetails gid d now s) in
  Forall2 (payload_written gid d now) (games s) (games s')
  ∧ (∀ l, l ∈ gameCategories s → l ∈ gameCategories s')
  ∧ (∀ l, l ∈ gameMechanisms s → l ∈ gameMechanisms s')
  ∧ (∀ l, l ∈ gameFamilies s → l ∈ gameFamilies s').
Proof.
  rewrite updateGameWithAllDetails_eq.
  pose proof (lookups_frame d s) as (Hg & Hc & Hm & Hf).
  destruct (lookups d s) as [[[[lang cs] ms] fs] s1]. simpl in Hg, Hc, Hm, Hf.
  destruct (negb (existsb (has_id gid) (games s1))); simpl.
  - rewrite Hg, Hc, Hm, Hf. split; [|auto].
    apply Forall_Forall2_diag, Forall_forall. intros g _. left. reflexivity.
  - rewrite Hg, Hc, Hm, Hf.
    split; [|split; [|split]]; try (intros l; apply upsert_links_grows).
    apply Forall2_fmap_r, Forall_Forall2_diag, Forall_forall. intros g _.
    unfold has_id, compose. destruct (Z.eqb_spec (Game.id g) gid) as [E|E].
    + right. split; [exact E|]. exists lang. reflexivity.
    + left. reflexivity.
Qed.

(** [updateGameWithAllDetails] returns exactly when a row has the id. *)
Lemma update_returns_iff gid d now s :
  fst (updateGameWithAllDetails gid d now s) = Ok tt
  ↔ gid ∈ Game.id <$> games s.
Proof.
  rewrite updateGameWithAllDetails_eq.
  pose proof (lookups_frame d s) as (Hg & _).
  destruct (lookups d s) as [[[[lang cs] ms] fs] s1]. simpl in Hg.
  rewrite Hg, list_elem_of_fmap.
  destruct (existsb (has_id gid) (games s)) eqn:He; cbn [negb fst].
  - apply existsb_has_id in He as (g & Hin & Hid).
    split; [|reflexivity]. intros _. exists g. split; [symmetry|]; assumption.
  - split; [discriminate|]. intros (g & Hid & Hin).
    assert (existsb (has_id gid) (games s) = true) as Ht
      by (apply existsb_has_id; exists g; split; [assumption|symmetry; assumption]).
    congruence.
Qed.

Lemma payload_written_lease gid d now g g' :
  payload_written gid d now g g' →
  Game.id g' = Game.id g
  ∧ Game.processingBy g' = Game.processingBy g
  ∧ Game.processingAt g' = Game.processingAt g.
Proof. intros [->|(_ & lang & ->)]; repeat split. Qed.

Lemma update_keeps_ids gid d now s :
  Game.id <$> games (snd (updateGameWithAllDetails gid d now s))
  = Game.id <$> games s.
Proof.
  pose proof (update_shape gid d now s) as [H _]. simpl in H.
  induction H as [|g g' l l' Hgg _ IH]; [reflexivity|].
  rewrite !fmap_cons, IH.
  apply payload_written_lease in Hgg as [-> _]. reflexivity.
Qed.

Lemma unique_row {A B} (f : A → B) (l : list A) x y :
  NoDup (f <$> l) → x ∈ l → y ∈ l → f x = f y → x = y.
Proof.
  induction l as [|a l IH]; intros Hnd Hx Hy Hf; [inversion Hx|].
  rewrite fmap_cons in Hnd. apply NoDup_cons in Hnd as [Ha Hnd].
  apply elem_of_cons in Hx as [->|Hx], Hy as [->|Hy].
  - reflexivity.
  - exfalso. apply Ha. rewrite Hf. apply list_elem_of_fmap_2, Hy.
  - exfalso. apply Ha. rewrite <- Hf. apply list_elem_of_fmap_2, Hx.
  - apply IH; assumption.
Qed.

Lemma needs_details_false s g :
  needs_details s g = false ↔
  Game.weight g ≠ None
  ∧ (none_for g (gameCategories s) = false
     ∨ none_for g (gameMechanisms s) = false
     ∨ none_for g (gameFamilies s) = false).
Proof.
  unfold needs_details, is_null.
  destruct (Game.weight g), (none_for g (gameCategories s)),
    (none_for g (gameMechanisms s)), (none_for g (gameFamilies s)); simpl;
    split; intros H; try discriminate H; try reflexivity;
    try (split; [discriminate|]; auto; fail);
    destruct H as [H1 H2]; try (exfalso; apply H1; reflexivity);
    destruct H2 as [H2|[H2|H2]]; discriminate H2.
Qed.

Lemma not_available_not_claimed s g w (n : nat) t :
  unique_ids s → g ∈ games s → available s g = false →
  Game.id g ∉ Game.pid <$> fst (claimGamesForProcessing w n t s).
Proof.
  intros Hnd Hg Hav (r & Hid & Hr)%list_elem_of_fmap.
  rewrite claim_found in Hr.
  apply availableGames_from in Hr as (g2 & Hg2 & Hav2 & ->).
  simpl in Hid.
  assert (g = g2) as -> by (eapply (unique_row Game.id); eauto).
  congruence.
Qed.

(** C4, amended. A payload update leaves a complete item complete, and out
    of every later claim, whenever it is the payload of another item or it
    carries a weight; an update of the item itself whose payload has no
    weight makes the item pending again. *)
Theorem complete_stays_complete_unless_weight_null gid d now s :
  unique_ids s →
  let s' := snd (updateGameWithAllDetails gid d now s) in
  Forall2
    (λ g g',
       needs_details s g = false →
       ((Game.id g ≠ gid ∨ Details.weight d ≠ None) →
        needs_details s' g' = false
        ∧ ∀ w (n : nat) t,
            Game.id g ∉ Game.pid <$> fst (claimGamesForProcessing w n t s'))
       ∧ (Game.id g = gid → Details.weight d = None →
          needs_details s' g' = true))
    (games s) (games s').
Proof.
  intros Hnd s'.
  pose proof (update_shape gid d now s) as (Hrows & Hc & Hm & Hf).
  fold s' in Hrows, Hc, Hm, Hf.
  assert (unique_ids s') as Hnd'.
  { unfold unique_ids, s'. rewrite update_keeps_ids. exact Hnd. }
  apply Forall2_same_length_lookup in Hrows as [Hlen Hrows].
  apply Forall2_same_length_lookup. split; [exact Hlen|].
  intros i g g' Hi Hi' Hcomplete.
  specialize (Hrows i g g' Hi Hi').
  apply needs_details_false in Hcomplete as [Hw Hlinks].
  split.
  - intros Hok.
    assert (needs_details s' g' = false) as Hdone.
    { apply needs_details_false.
      destruct Hrows as [->|(Hid & lang & ->)].
      - split; [exact Hw|].
        destruct Hlinks as [H|[H|H]]; [left|right; left|right; right];
          eapply none_for_grows; eauto.
      - split.
        + simpl. destruct Hok as [Hne|Hwd]; [contradiction|exact Hwd].
        + rewrite !(none_for_id g) by reflexivity.
          destruct Hlinks as [H|[H|H]]; [left|right; left|right; right];
            eapply none_for_grows; eauto. }
    split; [exact Hdone|].
    intros w n t.
    apply payload_written_lease in Hrows as (Hid & _).
    rewrite <- Hid.
    apply not_available_not_claimed; [exact Hnd'| |].
    + eapply list_elem_of_lookup_2, Hi'.
    + unfold available. rewrite Hdone. apply andb_false_r.
  - intros Hid Hnull.
    destruct Hrows as [->|(_ & lang & ->)].
    + exfalso.
      assert (existsb (has_id gid) (games s) = true) as Hex.
      { apply existsb_exists. exists g. split.
        - apply list_elem_of_In. eapply list_elem_of_lookup_2, Hi.
        - unfold has_id. apply Z.eqb_eq, Hid. }
      revert Hi'. unfold s'. rewrite updateGameWithAllDetails_eq.
      pose proof (lookups_frame d s) as (Hg & _).
      destruct (lookups d s) as [[[[lang cs] ms] fs] s1]. simpl in Hg.
      rewrite Hg, Hex. simpl. rewrite list_lookup_fmap, Hi. simpl.
      unfold has_id. rewrite (proj2 (Z.eqb_eq _ _) Hid).
      intros [= Heq]. apply Hw. rewrite <- Heq. simpl. exact Hnull.
    + unfold needs_details. simpl. rewrite Hnull. reflexivity.
Qed.

(** C4 as stated fails: item 4 of [five_items] is complete; a payload without
    weight written to it makes it pending again. *)
Lemma blank_payload_reverts_completeness : ¬ completeness_is_monotone.
Proof.
  intros H.
  destruct
    (H five_items 4 blank_payload 80 3%nat
       (row 4 (Some (5 # 2)%Q) None None)
       (Game.mk 4 4 "game-4" "https://boardgamegeek.com/boardgame/4"
          None None None None None None None None 80 None None)
       eq_refl eq_refl eq_refl) as [Hpending _].
  vm_compute in Hpending. discriminate Hpending.
Qed.

(** ... and the next claim selects it. *)
Example reverted_item_is_claimed_again :
  fst (claimGamesForProcessing "worker-1" 1 90
         (snd (updateGameWithAllDetails 4 blank_payload 80
                 (backlog [row 4 (Some (5 # 2)%Q) None None] [mkLink 4 1]))))
  = [Game.mkPick 4 "https://boardgamegeek.com/boardgame/4" "game-4"].
Proof. vm_compute. reflexivity. Qed.

(** On [five_items], writing [weighted_payload] to item 4. *)
Lemma complete_stays_complete_unless_weight_null_witness :
  unique_ids five_items
  ∧ let s' := snd (updateGameWithAllDetails 4 weighted_payload 80 five_items) in
    Forall2
      (λ g g',
         needs_details five_items g = false →
         ((Game.id g ≠ 4 ∨ Details.weight weighted_payload ≠ None) →
          needs_details s' g' = false
          ∧ ∀ w (n : nat) t,
              Game.id g ∉ Game.pid <$> fst (claimGamesForProcessing w n t s'))
         ∧ (Game.id g = 4 → Details.weight weighted_payload = None →
            needs_details s' g' = true))
      (games five_items) (games s').
Proof.
  assert (unique_ids five_items) as H.
  { unfold unique_ids. apply (bool_decide_unpack _). vm_compute. exact I. }
  split; [exact H|].
  exact (complete_stays_complete_unless_weight_null 4 weighted_payload 80
           five_items H).
Defined.
End Payload.

(** ** The rate limiter *)

Section Limiter.
Import RateLimiter.
Context {W T : Type}.

Implicit Types (s : Sys W T) (e : Turn W T) (f : Fn W T).

Lemma tasks_from_promises p (fs : list (Fn W T)) :
  promise <$> tasks_from p fs = seq p (length fs).
Proof.
  unfold tasks_from. revert p.
  induction fs as [|f fs IH]; intros p; [reflexivity|].
  rewrite imap_cons. simpl. f_equal; [lia|].
  rewrite <- IH. f_equal. apply imap_ext. intros i x _. simpl. f_equal. lia.
Qed.

Lemma tasks_from_cons p f (fs : list (Fn W T)) :
  tasks_from p (f :: fs) = mkTask p f :: tasks_from (S p) fs.
Proof.
  unfold tasks_from. rewrite imap_cons. f_equal.
  - f_equal. lia.
  - apply imap_ext. intros i x _. simpl. f_equal. lia.
Qed.

Lemma enqueue_all_spec (fs : list (Fn W T)) s :
  enqueue_all fs s
  = mkSys
      (mk (queue (limiter s) ++ tasks_from (promises s) fs)
         (running (limiter s)) (minDelay (limiter s)) (maxDelay (limiter s))
         (lastRequestTime (limiter s)))
      (clock s) (world s) (promises s + length fs)%nat (dispatched s)
      (settled s).
Proof.
  unfold enqueue_all. revert s.
  induction fs as [|f fs IH]; intros s.
  - destruct s as [[] ? ? ? ? ?]. simpl.
    rewrite app_nil_r, Nat.add_0_r. reflexivity.
  - simpl foldl. rewrite IH. unfold push. simpl.
    rewrite tasks_from_cons, <- app_assoc. simpl.
    repeat f_equal. lia.
Qed.

Lemma after_wait_frame e s :
  limiter (after_wait e s) = limiter s
  ∧ world (after_wait e s) = world s
  ∧ promises (after_wait e s) = promises s
  ∧ dispatched (after_wait e s) = dispatched s
  ∧ settled (after_wait e s) = settled s.
Proof.
  unfold after_wait. destruct (Qlt_le_dec _ _); simpl; repeat split.
Qed.

(** The dispatcher never takes up a task sooner than [minDelay] after the
    previous one. *)
Lemma after_wait_clock e s :
  valid_turn e → interval_ok s →
  (inject_Z (lastRequestTime (limiter s)) + minDelay (limiter s)
   <= inject_Z (clock (after_wait e s)))%Q.
Proof.
  intros (Hr0 & _ & Hlate) Hint. unfold interval_ok in Hint.
  unfold after_wait.
  set (lo := minDelay (limiter s)) in *.
  set (hi := maxDelay (limiter s)) in *.
  set (last_ := lastRequestTime (limiter s)).
  set (jitter := (random e * (hi - lo))%Q).
  assert (0 <= jitter)%Q as Hjit.
  { apply Qmult_le_0_compat; [exact Hr0|lra]. }
  set (x := (lo + jitter - inject_Z (clock s - last_))%Q).
  assert (x == lo + jitter - (inject_Z (clock s) - inject_Z last_))%Q as Hx.
  { unfold x, Z.sub. rewrite inject_Z_plus, inject_Z_opp. reflexivity. }
  pose proof (Q.le_max_r 0 x) as Hmax.
  clearbody x jitter lo hi.
  destruct (Qlt_le_dec 0 (Qmax 0 x)) as [Hpos|Hle]; simpl.
  - pose proof (Qle_ceiling (Qmax 0 x)) as Hceil.
    rewrite !inject_Z_plus.
    rewrite Zle_Qle in Hlate. change (inject_Z 0) with 0%Q in Hlate.
    lra.
  - lra.
Qed.

Lemma iteration_head e s task rest :
  queue (limiter s) = task :: rest →
  let t := clock (after_wait e s) in
  let r := fn task t (world s) in
  iteration e s
  = mkSys
      (mk (rest ++ tasks_from (promises s) (arrivals e))
         (running (limiter s)) (minDelay (limiter s)) (maxDelay (limiter s)) t)
      (t + elapsed e) (snd r) (promises s + length (arrivals e))%nat
      (dispatched s ++ [(promise task, t)])
      (settled s ++ [(promise task, fst r)]).
Proof.
  intros Hq t r. subst t r. unfold iteration.
  pose proof (after_wait_frame e s) as (Hl & Hw & Hp & Hd & Hs).
  rewrite Hl, Hq, Hw, Hp, Hd, Hs.
  destruct (fn task _ _) as [outcome w']. simpl.
  rewrite enqueue_all_spec. reflexivity.
Qed.

Lemma paced_snoc d (ts : list Z) t' :
  paced d ts →
  (∀ t, last ts = Some t → (inject_Z t + d <= inject_Z t')%Q) →
  paced d (ts ++ [t']).
Proof.
  intros Hp Hlast i a b Ha Hb.
  destruct (decide (S i < length ts)%nat) as [Hlt|Hge].
  - rewrite lookup_app_l in Ha by lia. rewrite lookup_app_l in Hb by lia.
    eapply Hp; eauto.
  - assert (S i = length ts) as Hi.
    { apply lookup_lt_Some in Hb. rewrite length_app in Hb. simpl in Hb. lia. }
    rewrite lookup_app_l in Ha by lia.
    rewrite lookup_app_r, Hi, Nat.sub_diag in Hb by lia.
    simpl in Hb. injection Hb as <-.
    apply Hlast. rewrite last_lookup, <- Hi. exact Ha.
Qed.

(** What [push], [set_running], a pass of the loop over a turn in [V] and the
    passing of time keep true, a whole run keeps true. *)
Section Preserved.
Context (P : Sys W T → Prop) (V : Turn W T → Prop).
Context (P_push : ∀ f s, P s → P (push f s)).
Context (P_running : ∀ b s, P s → P (set_running b s)).
Context (P_iteration : ∀ e s, V e → P s → P (iteration e s)).
Context (P_idle : ∀ dt s, P s → P (step s (Idle dt))).

Lemma loop_preserved turns s : Forall V turns → P s → P (loop turns s).
Proof using P_running P_iteration.
  intros Hv. revert s.
  induction Hv as [|e turns He _ IH]; intros s Hinv; simpl;
    destruct (queue (limiter s)); auto.
Qed.

Lemma throttle_preserved f turns s :
  Forall V turns → P s → P (snd (throttle f turns s)).
Proof using P_push P_running P_iteration.
  intros Hv Hinv. unfold throttle, processQueue. simpl snd.
  destruct (_ || _); [auto|].
  apply loop_preserved; auto.
Qed.

Lemma run_preserved (cmds : list (Cmd W T)) s :
  Forall (λ c, Forall V (turns_of c)) cmds → P s → P (run cmds s).
Proof using P_push P_running P_iteration P_idle.
  intros Hv. revert s. unfold run.
  induction Hv as [|c cmds Hc _ IH]; intros s Hinv; simpl; [exact Hinv|].
  apply IH. destruct c as [f turns|dt].
  - apply throttle_preserved; assumption.
  - apply P_idle, Hinv.
Qed.
End Preserved.

Lemma push_ordered f s : ordered s → ordered (push f s).
Proof.
  intros [Hfifo Hset]. split; [|exact Hset].
  unfold fifo in *. simpl.
  rewrite fmap_app, app_assoc, Hfifo.
  exact (eq_sym (seq_S (promises s) 0)).
Qed.

Lemma iteration_ordered e s : ordered s → ordered (iteration e s).
Proof.
  intros [Hfifo Hset]. unfold ordered, fifo, settled_in_order in *.
  destruct (queue (limiter s)) as [|task rest] eqn:Hq.
  - unfold iteration.
    pose proof (after_wait_frame e s) as (Hl & Hw & Hp & Hd & Hs).
    rewrite Hl, Hq, Hl, Hp, Hd, Hs, Hq. split; assumption.
  - rewrite (iteration_head e s task rest Hq). simpl in *. split.
    + rewrite !fmap_app, tasks_from_promises. simpl.
      rewrite seq_app, <- Hfifo, <- !app_assoc. reflexivity.
    + rewrite !fmap_app, Hset. reflexivity.
Qed.

Lemma iteration_paced e s :
  valid_turn e → well_paced s → well_paced (iteration e s).
Proof.
  intros Hv [[Hpaced Hlast] Hint].
  unfold well_paced, paced_dispatches, interval_ok in *.
  destruct (queue (limiter s)) as [|task rest] eqn:Hq.
  - unfold iteration.
    pose proof (after_wait_frame e s) as (Hl & Hw & Hp & Hd & Hs).
    rewrite Hl, Hq, Hl, Hd. repeat split; assumption.
  - rewrite (iteration_head e s task rest Hq). simpl.
    rewrite fmap_app. simpl. repeat split; [| |exact Hint].
    + apply paced_snoc; [exact Hpaced|].
      intros t Ht. rewrite <- (Hlast t Ht).
      apply after_wait_clock; assumption.
    + intros t. rewrite last_snoc. intros [= <-]. reflexivity.
Qed.

(** The order of the dispatches holds of every run. *)
Lemma run_ordered (cmds : list (Cmd W T)) s : ordered s → ordered (run cmds s).
Proof.
  apply (run_preserved ordered (λ _, True)).
  - apply push_ordered.
  - intros b s' H. exact H.
  - intros e s' _. apply iteration_ordered.
  - intros dt s' H. exact H.
  - apply Forall_forall. intros c _. apply Forall_forall. intros e _. exact I.
Qed.

(** Their pacing holds of every run whose turns are valid. *)
Lemma run_paced (cmds : list (Cmd W T)) s :
  Forall valid_cmd cmds → well_paced s → well_paced (run cmds s).
Proof.
  intros Hv. apply (run_preserved well_paced valid_turn).
  - intros f s' H. exact H.
  - intros b s' H. exact H.
  - apply iteration_paced.
  - intros dt s' H. exact H.
  - eapply Forall_impl; [exact Hv|].
    intros [f turns|dt] Hc; [exact Hc|constructor].
Qed.

Lemma boot_ordered lo hi clock0 (w : W) : ordered (boot (T := T) lo hi clock0 w).
Proof. split; reflexivity. Qed.

Lemma boot_paced lo hi clock0 (w : W) :
  (lo <= hi)%Q → well_paced (boot (T := T) lo hi clock0 w).
Proof.
  intros H. split; [split|exact H].
  - intros i a b Ha. simpl in Ha. rewrite lookup_nil in Ha. discriminate.
  - simpl. discriminate.
Qed.

Lemma iteration_config e s :
  minDelay (limiter (iteration e s)) = minDelay (limiter s)
  ∧ maxDelay (limiter (iteration e s)) = maxDelay (limiter s).
Proof.
  destruct (queue (limiter s)) as [|task rest] eqn:Hq.
  - unfold iteration.
    pose proof (after_wait_frame e s) as (Hl & _).
    rewrite Hl, Hq, Hl. split; reflexivity.
  - rewrite (iteration_head e s task rest Hq). split; reflexivity.
Qed.

Lemma loop_config turns s :
  minDelay (limiter (loop turns s)) = minDelay (limiter s)
  ∧ maxDelay (limiter (loop turns s)) = maxDelay (limiter s).
Proof.
  revert s. induction turns as [|e turns IH]; intros s; simpl;
    destruct (queue (limiter s)); try (split; reflexivity).
  destruct (IH (iteration e s)) as [-> ->]. apply iteration_config.
Qed.

Lemma run_config (cmds : list (Cmd W T)) s :
  minDelay (limiter (run cmds s)) = minDelay (limiter s)
  ∧ maxDelay (limiter (run cmds s)) = maxDelay (limiter s).
Proof.
  revert s. unfold run.
  induction cmds as [|c cmds IH]; intros s; simpl; [split; reflexivity|].
  destruct (IH (step s c)) as [-> ->].
  destruct c as [f turns|dt]; simpl; [|split; reflexivity].
  unfold processQueue. destruct (_ || _); [split; reflexivity|].
  destruct (loop_config turns (set_running true (push f s))) as [-> ->].
  split; reflexivity.
Qed.

Lemma loop_cons e turns s task rest :
  queue (limiter s) = task :: rest →
  loop (e :: turns) s = loop turns (iteration e s).
Proof. intros Hq. simpl. rewrite Hq. reflexivity. Qed.

Lemma loop_done turns s :
  queue (limiter s) = [] → loop turns s = set_running false s.
Proof. intros Hq. destruct turns; simpl; rewrite Hq; reflexivity. Qed.

(** Three operations back to back on a limiter with the default delays. *)
Lemma three_back_to_back clock0 (w : W) (f0 f1 f2 : Fn W T) x0 x1 x2 :
  valid_timing x0 → valid_timing x1 → valid_timing x2 →
  let s := run [back_to_back f0 f1 f2 x0 x1 x2] (boot 1000 2000 clock0 w) in
  ∃ t0 t1 t2,
    dispatched s = [(0%nat, t0); (1%nat, t1); (2%nat, t2)]
    ∧ t0 < t1 < t2 ∧ 1000 ≤ t1 - t0 ∧ 1000 ≤ t2 - t1
    ∧ fst <$> settled s = [0; 1; 2]%nat.
Proof.
  intros H0 H1 H2 s.
  assert (ordered s) as [_ Hset] by apply run_ordered, boot_ordered.
  assert (well_paced s) as [[Hpaced _] _].
  { apply run_paced.
    - constructor; [|constructor]. simpl.
      constructor; [exact H0|]. constructor; [exact H1|].
      constructor; [exact H2|]. constructor.
    - apply boot_paced. unfold Qle. simpl. lia. }
  assert (minDelay (limiter s) = 1000%Q) as Hmin by apply run_config.
  rewrite Hmin in Hpaced. clear Hmin.
  assert (∃ t0 t1 t2,
            dispatched s = [(0%nat, t0); (1%nat, t1); (2%nat, t2)])
    as (t0 & t1 & t2 & Hd).
  { subst s. unfold run, back_to_back. cbn [foldl step throttle snd].
    unfold processQueue.
    set (s1 := push f0 (boot 1000 2000 clock0 w)).
    change (running (limiter s1) || bool_decide (queue (limiter s1) = []))
      with false. cbv iota.
    rewrite (loop_cons _ _ _ (mkTask 0 f0) []) by reflexivity.
    rewrite (iteration_head _ _ (mkTask 0 f0) []) by reflexivity.
    rewrite (loop_cons _ _ _ (mkTask 1 f1) [mkTask 2 f2]) by reflexivity.
    rewrite (iteration_head _ _ (mkTask 1 f1) [mkTask 2 f2]) by reflexivity.
    rewrite (loop_cons _ _ _ (mkTask 2 f2) []) by reflexivity.
    rewrite (iteration_head _ _ (mkTask 2 f2) []) by reflexivity.
    rewrite loop_done by reflexivity.
    cbn [set_running dispatched limiter promise app].
    eauto. }
  exists t0, t1, t2.
  unfold settled_in_order in Hset.
  rewrite Hd in Hpaced, Hset. cbn [fmap list_fmap snd fst] in Hpaced, Hset.
  pose proof (Hpaced 0%nat t0 t1 eq_refl eq_refl) as G1.
  pose proof (Hpaced 1%nat t1 t2 eq_refl eq_refl) as G2.
  change 1000%Q with (inject_Z 1000) in G1, G2.
  rewrite <- inject_Z_plus, <- Zle_Qle in G1, G2.
  split; [exact Hd|]. split; [lia|]. split; [lia|]. split; [lia|].
  exact Hset.
Qed.

(** *** Outcomes *)

Lemma settled_below s p :
  fifo s → settled_in_order s → (promises s ≤ p)%nat →
  List.find (λ x, Nat.eqb (fst x) p) (settled s) = None.
Proof.
  intros Hfifo Hset Hp.
  assert (∀ x, x ∈ settled s → (fst x < promises s)%nat) as Hlt.
  { intros x Hx.
    assert (fst x ∈ seq 0 (promises s)) as Hin.
    { rewrite <- Hfifo, <- Hset. apply elem_of_app. left.
      apply list_elem_of_fmap_2, Hx. }
    apply elem_of_seq in Hin. lia. }
  induction (settled s) as [|x l IH]; [reflexivity|]. simpl.
  destruct (Nat.eqb_spec (fst x) p) as [E|_].
  - specialize (Hlt x (list_elem_of_here _ _)). lia.
  - apply IH. intros y Hy. apply Hlt. right. exact Hy.
Qed.

Lemma find_snoc {A} (P : A → bool) (l : list A) x :
  List.find P l = None → P x = true → List.find P (l ++ [x]) = Some x.
Proof.
  induction l as [|a l IH]; simpl; intros Hl Hx.
  - rewrite Hx. reflexivity.
  - destruct (P a); [discriminate|]. apply IH; assumption.
Qed.

(** A [throttle] call on an idle limiter, followed through the one turn its
    operation takes. *)
Lemma throttle_idle f e s :
  running (limiter s) = false → queue (limiter s) = [] → quiet e →
  let t := clock (after_wait e (set_running true (push f s))) in
  let r := f t (world s) in
  throttle f [e] s
  = (promises s,
     mkSys
       (mk [] false (minDelay (limiter s)) (maxDelay (limiter s)) t)
       (t + elapsed e) (snd r) (S (promises s))
       (dispatched s ++ [(promises s, t)])
       (settled s ++ [(promises s, fst r)])).
Proof.
  intros Hrun Hq Hquiet t r. subst t r.
  unfold throttle, processQueue. f_equal.
  cbn [push limiter running queue]. rewrite Hrun, Hq. cbn [app orb].
  rewrite bool_decide_eq_false_2 by discriminate.
  rewrite (loop_cons _ _ _ (mkTask (promises s) f) [])
    by (cbn; rewrite Hq; reflexivity).
  rewrite (iteration_head _ _ (mkTask (promises s) f) [])
    by (cbn; rewrite Hq; reflexivity).
  rewrite loop_done by (cbn; rewrite Hquiet; reflexivity).
  cbn. rewrite Hquiet. cbn. rewrite Nat.add_0_r. reflexivity.
Qed.


End Limiter.


(** The run of [demo_cmds] from a clock at zero: the dispatch times, and how
    the four promises settled. *)
Example demo_run :
  let s := RateLimiter.run demo_cmds (RateLimiter.boot 1000 2000 0 0%nat) in
  RateLimiter.dispatched s
  = [(0%nat, 1500); (1%nat, 2505); (2%nat, 4255); (3%nat, 14355)]
  ∧ RateLimiter.settled s
    = [(0%nat, Ok 10); (1%nat, Throw "boom"); (2%nat, Ok 30); (3%nat, Ok 40)]
  ∧ RateLimiter.world s = 4%nat
  ∧ RateLimiter.running (RateLimiter.limiter s) = false.
Proof. vm_compute. repeat split. Qed.

(** ** The rate limiter, await by await *)

Section Interleaving.
Import RateLimiter Async.
Context {W T : Type}.

Implicit Types (s : Loop W T) (x : Q * Z * Z) (f : Fn W T).

Lemma dispatch_cons elapsed s task rest :
  queue (limiter (sys s)) = task :: rest →
  let t := clock (sys s) in
  let r := fn task t (world (sys s)) in
  dispatch elapsed s
  = mkLoop
      (mkSys
         (mk rest (running (limiter (sys s))) (minDelay (limiter (sys s)))
            (maxDelay (limiter (sys s))) t)
         t (snd r) (promises (sys s))
         (dispatched (sys s) ++ [(promise task, t)]) (settled (sys s)))
      (suspended s ++ [Operation (promise task) (fst r) (t + elapsed)]).
Proof.
  intros Hq t r. subst t r. unfold dispatch. rewrite Hq.
  destruct (fn task _ _); reflexivity.
Qed.

Lemma head_nil x s : queue (limiter (sys s)) = [] → head x s = stop s.
Proof. intros Hq. unfold head. rewrite Hq. reflexivity. Qed.

(** With a task waiting, the head of the loop either sets the timer or
    dispatches at once; either way the dispatch comes no sooner than the
    pass-level model has it. *)
Lemma head_cons x s task rest :
  queue (limiter (sys s)) = task :: rest →
  let t := clock (after_wait (turn x []) (sys s)) in
  head x s = mkLoop (sys s) (suspended s ++ [Timer t])
  ∨ (head x s = dispatch x.2 s ∧ t = clock (sys s)).
Proof.
  intros Hq t. subst t. unfold head, after_wait, waitTime, turn. rewrite Hq.
  cbn [random late].
  destruct (Qlt_le_dec _ _); [left|right; split]; reflexivity.
Qed.

Lemma head_pace x s :
  valid_timing x → interval_ok (sys s) →
  (inject_Z (lastRequestTime (limiter (sys s))) + minDelay (limiter (sys s))
   <= inject_Z (clock (after_wait (turn x []) (sys s))))%Q.
Proof. intros Hx Hint. apply after_wait_clock; [exact Hx|exact Hint]. Qed.

(** *** The order of dispatch and settlement *)

Lemma dispatch_in_order elapsed s task rest :
  queue (limiter (sys s)) = task :: rest →
  running (limiter (sys s)) = true → suspended s = [] →
  fifo (sys s) → fst <$> settled (sys s) = fst <$> dispatched (sys s) →
  in_order (dispatch elapsed s).
Proof.
  intros Hq Hrun Hsus Hfifo Hset.
  rewrite (dispatch_cons elapsed s task rest Hq). cbv zeta.
  unfold in_order, one_dispatcher, fifo, settled_then_in_flight, in_flight.
  cbn [sys suspended limiter running queue dispatched settled promises].
  rewrite Hrun, Hsus. unfold fifo in Hfifo. rewrite Hq in Hfifo.
  split; [|split].
  - eexists. split; [reflexivity|]. intros due H. discriminate H.
  - rewrite fmap_app, <- app_assoc. exact Hfifo.
  - rewrite fmap_app, Hset. reflexivity.
Qed.

Lemma head_in_order x s :
  running (limiter (sys s)) = true → suspended s = [] →
  fifo (sys s) → fst <$> settled (sys s) = fst <$> dispatched (sys s) →
  in_order (head x s).
Proof.
  intros Hrun Hsus Hfifo Hset.
  destruct (queue (limiter (sys s))) as [|task rest] eqn:Hq.
  - rewrite (head_nil x s Hq).
    unfold in_order, one_dispatcher, fifo, settled_then_in_flight, in_flight.
    cbn. rewrite Hsus, Hq. cbn.
    unfold fifo in Hfifo. rewrite Hq in Hfifo. cbn in Hfifo.
    rewrite !app_nil_r in *. auto.
  - destruct (head_cons x s task rest Hq) as [->|[-> _]].
    + split; [|split].
      * unfold one_dispatcher. cbn [sys suspended]. rewrite Hrun, Hsus.
        eexists. split; [reflexivity|]. intros _ _. rewrite Hq. discriminate.
      * exact Hfifo.
      * unfold settled_then_in_flight, in_flight. cbn [sys suspended].
        rewrite Hsus. cbn. rewrite app_nil_r. exact Hset.
    + apply (dispatch_in_order _ _ task rest); assumption.
Qed.

Lemma throttle_running f x s :
  running (limiter (sys s)) = true →
  throttle f x s = (promises (sys s), mkLoop (push f (sys s)) (suspended s)).
Proof.
  intros Hrun. unfold throttle, processQueue. cbn [sys push limiter running].
  rewrite Hrun. reflexivity.
Qed.

Lemma throttle_stopped f x s :
  running (limiter (sys s)) = false →
  throttle f x s
  = (promises (sys s),
     head x (mkLoop (set_running true (push f (sys s))) (suspended s))).
Proof.
  intros Hrun. unfold throttle, processQueue.
  cbn [sys push limiter running queue]. rewrite Hrun.
  rewrite bool_decide_eq_false_2; [reflexivity|].
  intros H. apply app_eq_nil in H as [_ H]. discriminate H.
Qed.

Lemma push_fifo f (s : Sys W T) : fifo s → fifo (push f s).
Proof.
  intros Hfifo. unfold fifo in *. simpl.
  rewrite fmap_app, app_assoc, Hfifo.
  exact (eq_sym (seq_S (promises s) 0)).
Qed.

Lemma throttle_in_order f x s : in_order s → in_order (snd (throttle f x s)).
Proof.
  intros (Hone & Hfifo & Hset).
  unfold one_dispatcher in Hone.
  destruct (running (limiter (sys s))) eqn:Hrun.
  - rewrite (throttle_running f x s Hrun). cbn [snd].
    destruct Hone as (a & Hsus & Htimer).
    unfold in_order, one_dispatcher, settled_then_in_flight, in_flight in *.
    cbn [sys suspended push limiter running queue settled dispatched].
    rewrite Hrun. split; [|split].
    + exists a. split; [exact Hsus|]. intros due Ha H.
      apply app_eq_nil in H as [_ H]. discriminate H.
    + apply push_fifo, Hfifo.
    + exact Hset.
  - rewrite (throttle_stopped f x s Hrun). cbn [snd].
    destruct Hone as [Hsus Hq].
    unfold settled_then_in_flight, in_flight in Hset.
    rewrite Hsus in Hset. cbn in Hset. rewrite app_nil_r in Hset.
    apply head_in_order.
    + reflexivity.
    + exact Hsus.
    + apply (push_fifo f (sys s)), Hfifo.
    + exact Hset.
Qed.

Lemma resume_in_order k x s : in_order s → in_order (resume k x s).
Proof.
  intros Hinv. pose proof Hinv as (Hone & Hfifo & Hset).
  unfold one_dispatcher in Hone. unfold resume.
  destruct (running (limiter (sys s))) eqn:Hrun.
  - destruct Hone as (a & Hsus & Htimer). rewrite Hsus.
    destruct k as [|k]; [|exact Hinv]. cbn [lookup list_lookup delete list_delete].
    unfold settled_then_in_flight, in_flight in Hset. rewrite Hsus in Hset.
    destruct a as [due|p outcome due].
    + cbn in Hset. rewrite app_nil_r in Hset.
      destruct (queue (limiter (sys s))) as [|task rest] eqn:Hq;
        [destruct (Htimer due eq_refl eq_refl)|].
      apply (dispatch_in_order _ _ task rest);
        [exact Hq|exact Hrun|reflexivity|exact Hfifo|exact Hset].
    + cbn in Hset. apply head_in_order.
      * exact Hrun.
      * reflexivity.
      * exact Hfifo.
      * cbn [sys resolve at_time settled dispatched]. rewrite fmap_app.
        exact Hset.
  - destruct Hone as [Hsus _]. rewrite Hsus. exact Hinv.
Qed.

Lemma step_in_order s (ev : Event W T) : in_order s → in_order (step s ev).
Proof.
  destruct ev as [f x|k x|dt]; cbn [step].
  - apply throttle_in_order.
  - apply resume_in_order.
  - intros H. exact H.
Qed.

Lemma run_in_order (events : list (Event W T)) s :
  in_order s → in_order (run events s).
Proof.
  unfold run. revert s.
  induction events as [|ev events IH]; intros s Hinv; [exact Hinv|].
  simpl. apply IH, step_in_order, Hinv.
Qed.

Lemma boot_in_order lo hi clock0 (w : W) :
  in_order (Async.boot (T := T) lo hi clock0 w).
Proof. repeat split. Qed.

(** While the dispatcher is suspended, the guard of [processQueue] turns
    every [throttle] call into a [push]: this is what the pass-level model
    takes the arrivals of a pass to be. *)
Lemma calls_during_a_pass (calls : list (Fn W T * (Q * Z * Z))) s :
  running (limiter (sys s)) = true →
  run ((λ c, Throttle c.1 c.2) <$> calls) s
  = mkLoop (enqueue_all (fst <$> calls) (sys s)) (suspended s).
Proof.
  revert s. induction calls as [|[f x] calls IH]; intros s Hrun.
  - destruct s. reflexivity.
  - change (run ((λ c, Throttle c.1 c.2) <$> (f, x) :: calls) s)
      with (run ((λ c, Throttle c.1 c.2) <$> calls) (snd (throttle f x s))).
    rewrite (throttle_running f x s Hrun). cbn [snd].
    rewrite IH by exact Hrun. reflexivity.
Qed.

(** *** The pacing of the dispatches *)

Lemma dispatch_in_pace elapsed s task rest :
  queue (limiter (sys s)) = task :: rest → suspended s = [] →
  paced_dispatches (sys s) → interval_ok (sys s) →
  (inject_Z (lastRequestTime (limiter (sys s))) + minDelay (limiter (sys s))
   <= inject_Z (clock (sys s)))%Q →
  in_pace (dispatch elapsed s).
Proof.
  intros Hq Hsus [Hpaced Hlast] Hint Hbound.
  rewrite (dispatch_cons elapsed s task rest Hq). cbv zeta.
  unfold in_pace, paced_dispatches, interval_ok, timers_keep_pace.
  cbn [sys suspended limiter minDelay maxDelay lastRequestTime dispatched].
  rewrite Hsus, fmap_app. cbn [fmap list_fmap snd app].
  split; [split|split].
  - apply paced_snoc; [exact Hpaced|].
    intros t Ht. rewrite <- (Hlast t Ht). exact Hbound.
  - intros t. rewrite last_snoc. intros [= <-]. reflexivity.
  - exact Hint.
  - intros due Hdue. apply list_elem_of_singleton in Hdue. discriminate Hdue.
Qed.

Lemma head_in_pace x s :
  valid_timing x → suspended s = [] →
  paced_dispatches (sys s) → interval_ok (sys s) →
  in_pace (head x s).
Proof.
  intros Hx Hsus Hpaced Hint.
  pose proof (head_pace x s Hx Hint) as Hbound.
  destruct (queue (limiter (sys s))) as [|task rest] eqn:Hq.
  - rewrite (head_nil x s Hq). split; [exact Hpaced|]. split; [exact Hint|].
    intros due Hdue. cbn in Hdue. rewrite Hsus in Hdue. inversion Hdue.
  - destruct (head_cons x s task rest Hq) as [->|[-> Ht]].
    + split; [exact Hpaced|]. split; [exact Hint|].
      intros due Hdue. cbn [sys suspended] in *. rewrite Hsus in Hdue.
      apply list_elem_of_singleton in Hdue. injection Hdue as ->.
      exact Hbound.
    + apply (dispatch_in_pace _ _ task rest); try assumption.
      rewrite <- Ht. exact Hbound.
Qed.

Lemma throttle_in_pace f x s :
  valid_timing x → in_order s → in_pace s → in_pace (snd (throttle f x s)).
Proof.
  intros Hx (Hone & _) (Hpaced & Hint & Htimers).
  unfold one_dispatcher in Hone.
  destruct (running (limiter (sys s))) eqn:Hrun.
  - rewrite (throttle_running f x s Hrun). cbn [snd].
    split; [exact Hpaced|]. split; [exact Hint|exact Htimers].
  - rewrite (throttle_stopped f x s Hrun). cbn [snd].
    destruct Hone as [Hsus _].
    apply head_in_pace; [exact Hx|exact Hsus|exact Hpaced|exact Hint].
Qed.

Lemma resume_in_pace k x s :
  valid_timing x → in_order s → in_pace s → in_pace (resume k x s).
Proof.
  intros Hx (Hone & _) Hpace. pose proof Hpace as (Hpaced & Hint & Htimers).
  unfold one_dispatcher in Hone. unfold resume.
  destruct (running (limiter (sys s))) eqn:Hrun.
  - destruct Hone as (a & Hsus & Htimer). rewrite Hsus.
    destruct k as [|k]; [|exact Hpace].
    cbn [lookup list_lookup delete list_delete].
    destruct a as [due|p outcome due].
    + destruct (queue (limiter (sys s))) as [|task rest] eqn:Hq;
        [destruct (Htimer due eq_refl eq_refl)|].
      apply (dispatch_in_pace _ _ task rest);
        [exact Hq|reflexivity|exact Hpaced|exact Hint|].
      cbn [sys at_time limiter clock].
      assert (inject_Z due <= inject_Z (Z.max (clock (sys s)) due))%Q as Hmax
        by (rewrite <- Zle_Qle; apply Z.le_max_r).
      assert (Timer due ∈ suspended s) as Hin by (rewrite Hsus; left).
      pose proof (Htimers due Hin) as Hdue.
      eapply Qle_trans; [exact Hdue|exact Hmax].
    + apply head_in_pace; [exact Hx|reflexivity|exact Hpaced|exact Hint].
  - destruct Hone as [Hsus _]. rewrite Hsus. exact Hpace.
Qed.

Lemma run_in_pace (events : list (Event W T)) s :
  Forall valid_event events → in_order s → in_pace s →
  in_pace (run events s).
Proof.
  unfold run. intros Hv. revert s.
  induction Hv as [|ev events Hev _ IH]; intros s Hord Hpace; [exact Hpace|].
  simpl. apply IH; [apply step_in_order, Hord|].
  destruct ev as [f x|k x|dt]; cbn [step].
  - apply throttle_in_pace; assumption.
  - apply resume_in_pace; assumption.
  - exact Hpace.
Qed.

Lemma boot_in_pace lo hi clock0 (w : W) :
  (lo <= hi)%Q → in_pace (Async.boot (T := T) lo hi clock0 w).
Proof.
  intros H. destruct (boot_paced (T := T) lo hi clock0 w H) as [Hp Hint].
  split; [exact Hp|]. split; [exact Hint|].
  intros due Hdue. inversion Hdue.
Qed.

Lemma run_config_async (events : list (Event W T)) s :
  minDelay (limiter (sys (run events s))) = minDelay (limiter (sys s)).
Proof.
  unfold run. revert s.
  induction events as [|ev events IH]; intros s; [reflexivity|].
  simpl. rewrite IH. clear IH.
  assert (∀ el s', minDelay (limiter (sys (dispatch el s')))
                   = minDelay (limiter (sys s'))) as Hd.
  { intros el s'. unfold dispatch.
    destruct (queue (limiter (sys s'))); [reflexivity|].
    destruct (fn _ _ _); reflexivity. }
  assert (∀ y s', minDelay (limiter (sys (head y s')))
                  = minDelay (limiter (sys s'))) as Hh.
  { intros y s'. unfold head.
    destruct (queue (limiter (sys s'))); [reflexivity|].
    destruct (Qlt_le_dec _ _); [reflexivity|apply Hd]. }
  destruct ev as [f x|k x|dt]; cbn [step]; [| |reflexivity].
  - unfold throttle, processQueue. cbn [snd].
    destruct (_ || _); [reflexivity|]. rewrite Hh. reflexivity.
  - unfold resume. destruct (suspended s !! k) as [[due|p outcome due]|];
      [rewrite Hd|rewrite Hh|]; reflexivity.
Qed.

(** *** Progress *)

Lemma dispatch_promises elapsed s :
  promises (sys (dispatch elapsed s)) = promises (sys s).
Proof.
  unfold dispatch. destruct (queue (limiter (sys s))); [reflexivity|].
  destruct (fn _ _ _); reflexivity.
Qed.

Lemma head_promises x s : promises (sys (head x s)) = promises (sys s).
Proof.
  unfold head. destruct (queue (limiter (sys s))); [reflexivity|].
  destruct (Qlt_le_dec _ _); [reflexivity|apply dispatch_promises].
Qed.

Lemma throttle_promises f x s :
  promises (sys (snd (throttle f x s))) = S (promises (sys s)).
Proof.
  unfold throttle, processQueue. cbn [snd].
  destruct (_ || _); [reflexivity|]. rewrite head_promises. reflexivity.
Qed.

(** A resumption of the running dispatcher brings it closer to the end of
    the queue, and hands out no promise. *)
Lemma resume_progress x s :
  in_order s → running (limiter (sys s)) = true →
  (pending_steps (resume 0 x s) < pending_steps s)%nat
  ∧ promises (sys (resume 0 x s)) = promises (sys s).
Proof.
  intros (Hone & _) Hrun. unfold one_dispatcher in Hone. rewrite Hrun in Hone.
  destruct Hone as (a & Hsus & Htimer).
  unfold resume. rewrite Hsus. cbn [lookup list_lookup delete list_delete].
  destruct a as [due|p outcome due].
  - rewrite dispatch_promises. split; [|reflexivity].
    destruct (queue (limiter (sys s))) as [|task rest] eqn:Hq;
      [destruct (Htimer due eq_refl eq_refl)|].
    rewrite (dispatch_cons _ _ task rest) by exact Hq.
    unfold pending_steps. rewrite Hsus, Hq. cbn. lia.
  - rewrite head_promises. split; [|reflexivity].
    set (s1 := mkLoop _ _).
    assert (queue (limiter (sys s1)) = queue (limiter (sys s))) as Hq1
      by reflexivity.
    unfold pending_steps at 2. rewrite Hsus.
    destruct (queue (limiter (sys s))) as [|task rest] eqn:Hq.
    + rewrite (head_nil x s1 Hq1). cbn. lia.
    + destruct (head_cons x s1 task rest Hq1) as [->|[-> _]].
      * unfold pending_steps. cbn [sys suspended s1 app].
        change (queue (limiter (resolve p outcome
                  (at_time (Z.max (clock (sys s)) due) (sys s)))))
          with (queue (limiter (sys s))).
        rewrite Hq. cbn. lia.
      * rewrite (dispatch_cons _ _ task rest) by exact Hq1.
        unfold pending_steps. cbn. lia.
Qed.

Lemma stopped_when_nothing_pends s :
  in_order s → pending_steps s = 0%nat → running (limiter (sys s)) = false.
Proof.
  intros (Hone & _) Hzero. unfold one_dispatcher in Hone.
  destruct (running (limiter (sys s))); [|reflexivity].
  destruct Hone as (a & Hsus & Htimer).
  unfold pending_steps in Hzero. rewrite Hsus in Hzero.
  destruct a as [due|p outcome due]; [|lia].
  destruct (queue (limiter (sys s))) as [|task rest] eqn:Hq;
    [destruct (Htimer due eq_refl eq_refl)|].
  simpl in Hzero. lia.
Qed.

(** Resumed often enough, the dispatcher drains the queue and stops. *)
Lemma resume_drains (xs : list (Q * Z * Z)) s :
  in_order s → (pending_steps s ≤ length xs)%nat →
  running (limiter (sys (run (Resume 0 <$> xs) s))) = false
  ∧ promises (sys (run (Resume 0 <$> xs) s)) = promises (sys s).
Proof.
  revert s. induction xs as [|x xs IH]; intros s Hinv Hlen.
  - change (run (Resume 0 <$> []) s) with s.
    split; [|reflexivity]. apply stopped_when_nothing_pends; [exact Hinv|].
    simpl in Hlen. lia.
  - change (run (Resume 0 <$> x :: xs) s)
      with (run (Resume 0 <$> xs) (resume 0 x s)).
    destruct (running (limiter (sys s))) eqn:Hrun.
    + destruct (resume_progress x s Hinv Hrun) as [Hless Hp].
      destruct (IH (resume 0 x s)) as [Hstop Hp'].
      * apply resume_in_order, Hinv.
      * simpl in Hlen. lia.
      * split; [exact Hstop|]. rewrite Hp'. exact Hp.
    + assert (resume 0 x s = s) as ->.
      { destruct Hinv as (Hone & _). unfold one_dispatcher in Hone.
        rewrite Hrun in Hone. destruct Hone as [Hsus _].
        unfold resume. rewrite Hsus. reflexivity. }
      apply IH; [exact Hinv|].
      assert (pending_steps s = 0%nat) as ->; [|lia].
      destruct Hinv as (Hone & _). unfold one_dispatcher in Hone.
      rewrite Hrun in Hone. destruct Hone as [Hsus _].
      unfold pending_steps. rewrite Hsus. reflexivity.
Qed.

Lemma run_app (ev1 ev2 : list (Event W T)) s :
  run (ev1 ++ ev2) s = run ev2 (run ev1 s).
Proof. unfold run. apply foldl_app. Qed.

(** What is left to do is bounded by what is queued. *)
Lemma pending_steps_bound s :
  in_order s →
  (pending_steps s ≤ 2 * promises (sys s))%nat.
Proof.
  intros (Hone & Hfifo & Hset). unfold fifo in Hfifo.
  apply (f_equal length) in Hfifo.
  rewrite length_app, !length_fmap, length_seq in Hfifo.
  unfold settled_then_in_flight, in_flight in Hset.
  apply (f_equal length) in Hset. rewrite length_app, !length_fmap in Hset.
  unfold pending_steps.
  destruct (suspended s) as [|[due|p outcome due] [|]]; simpl in *; lia.
Qed.

(** Three operations back to back on a limiter with the default delays. *)
Lemma three_calls_run clock0 (w : W) (f0 f1 f2 : Fn W T) x0 x1 x2
    (xs : list (Q * Z * Z)) :
  valid_timing x0 → valid_timing x1 → valid_timing x2 →
  Forall valid_timing xs → (6 ≤ length xs)%nat →
  let s := run (three_calls f0 f1 f2 x0 x1 x2 xs)
             (Async.boot 1000 2000 clock0 w) in
  ∃ t0 t1 t2,
    dispatched (sys s) = [(0%nat, t0); (1%nat, t1); (2%nat, t2)]
    ∧ t0 < t1 < t2 ∧ 1000 ≤ t1 - t0 ∧ 1000 ≤ t2 - t1
    ∧ fst <$> settled (sys s) = [0; 1; 2]%nat
    ∧ in_flight s = [].
Proof.
  intros H0 H1 H2 Hxs Hlen s.
  set (calls := [Throttle f0 x0; Throttle f1 x1; Throttle f2 x2]
                : list (Event W T)).
  set (s3 := run calls (Async.boot 1000 2000 clock0 w)).
  assert (s = run (Resume 0 <$> xs) s3) as Hs.
  { unfold s, s3, three_calls.
    change (Throttle f0 x0 :: Throttle f1 x1 :: Throttle f2 x2
              :: (Resume 0 <$> xs))
      with (calls ++ (Resume 0 <$> xs)).
    apply run_app. }
  assert (in_pace s) as ((Hpaced & _) & _).
  { apply run_in_pace; [|apply boot_in_order|].
    - unfold three_calls. repeat (constructor; [assumption|]).
      apply Forall_fmap. eapply Forall_impl; [exact Hxs|].
      intros x Hx. exact Hx.
    - apply boot_in_pace. unfold Qle. simpl. lia. }
  assert (minDelay (limiter (sys s)) = 1000%Q) as Hmin
    by apply run_config_async.
  rewrite Hmin in Hpaced. clear Hmin.
  clearbody s.
  assert (in_order s3) as Hord3 by apply run_in_order, boot_in_order.
  assert (promises (sys s3) = 3%nat) as Hp3.
  { unfold s3, calls, run. cbn [foldl step].
    rewrite !throttle_promises. reflexivity. }
  clearbody s3.
  pose proof (pending_steps_bound s3 Hord3) as Hbound.
  destruct (resume_drains xs s3 Hord3) as [Hstop Hp]; [lia|].
  rewrite <- Hs in Hstop, Hp. rewrite Hp3 in Hp.
  assert (in_order s) as (Hone & Hfifo & Hset)
    by (rewrite Hs; apply run_in_order, Hord3).
  unfold one_dispatcher in Hone. rewrite Hstop in Hone.
  destruct Hone as [Hsus Hq].
  unfold fifo in Hfifo. rewrite Hq, Hp in Hfifo. cbn in Hfifo.
  rewrite app_nil_r in Hfifo.
  unfold settled_then_in_flight in Hset.
  assert (in_flight s = []) as Hfl by (unfold in_flight; rewrite Hsus; reflexivity).
  rewrite Hfl, app_nil_r, Hfifo in Hset.
  destruct (dispatched (sys s)) as [|[p0 t0] [|[p1 t1] [|[p2 t2] [|? ?]]]];
    try discriminate Hfifo.
  cbn in Hfifo. injection Hfifo as -> -> ->.
  exists t0, t1, t2.
  cbn [fmap list_fmap snd] in Hpaced.
  pose proof (Hpaced 0%nat t0 t1 eq_refl eq_refl) as G1.
  pose proof (Hpaced 1%nat t1 t2 eq_refl eq_refl) as G2.
  change 1000%Q with (inject_Z 1000) in G1, G2.
  rewrite <- inject_Z_plus, <- Zle_Qle in G1, G2.
  split; [reflexivity|]. split; [lia|]. split; [lia|]. split; [lia|].
  split; [exact Hset|exact Hfl].
Qed.

(** C6, amended.  Whatever is submitted to a limiter and whenever, and in
    whatever order the environment resumes what is suspended, the operations
    are dispatched in the order they were submitted, none overtaking
    another, and the promises settle in that order, at most one operation
    being in flight at a time.  With delays that form an interval and timers
    that do not fire early, consecutive dispatch times lie at least
    [minDelay] apart.  In particular three operations submitted back to back
    with delays 1000 and 2000 are, once the dispatcher has been resumed six
    times, dispatched at times [t0 < t1 < t2] with [t1 - t0 ≥ 1000] and
    [t2 - t1 ≥ 1000], and their promises have settled in submission order.
    Time is what [Date.now()] reads. *)
Theorem dispatch_is_fifo_and_paced (lo hi : Q) clock0 (w : W)
    (events : list (Event W T)) (f0 f1 f2 : Fn W T) x0 x1 x2
    (xs : list (Q * Z * Z)) :
  (let s := run events (Async.boot lo hi clock0 w) in
   (fst <$> dispatched (sys s)) ++ (promise <$> queue (limiter (sys s)))
   = seq 0 (promises (sys s))
   ∧ (fst <$> settled (sys s)) ++ in_flight s = fst <$> dispatched (sys s)
   ∧ (length (in_flight s) ≤ 1)%nat
   ∧ ((lo <= hi)%Q → Forall valid_event events →
      paced lo (snd <$> dispatched (sys s))))
  ∧ (valid_timing x0 → valid_timing x1 → valid_timing x2 →
     Forall valid_timing xs → (6 ≤ length xs)%nat →
     let s := run (three_calls f0 f1 f2 x0 x1 x2 xs)
                (Async.boot 1000 2000 clock0 w) in
     ∃ t0 t1 t2,
       dispatched (sys s) = [(0%nat, t0); (1%nat, t1); (2%nat, t2)]
       ∧ t0 < t1 < t2 ∧ 1000 ≤ t1 - t0 ∧ 1000 ≤ t2 - t1
       ∧ fst <$> settled (sys s) = [0; 1; 2]%nat
       ∧ in_flight s = []).
Proof.
  split.
  - intros s.
    assert (in_order s) as Hord by apply run_in_order, boot_in_order.
    pose proof Hord as (Hone & Hfifo & Hset).
    split; [exact Hfifo|]. split; [exact Hset|]. split.
    { unfold one_dispatcher in Hone. unfold in_flight.
      destruct (running (limiter (sys s))).
      - destruct Hone as (a & -> & _). destruct a; simpl; lia.
      - destruct Hone as [-> _]. simpl. lia. }
    intros Hint Hev.
    assert (in_pace s) as ((Hpaced & _) & _).
    { apply run_in_pace; [exact Hev|apply boot_in_order|].
      apply boot_in_pace, Hint. }
    assert (minDelay (limiter (sys s)) = lo) as Hmin
      by apply run_config_async.
    rewrite Hmin in Hpaced. exact Hpaced.
  - apply three_calls_run.
Qed.

(** *** The two models *)

Lemma after_wait_later (e : Turn W T) (s0 : Sys W T) :
  0 ≤ late e → clock s0 ≤ clock (after_wait e s0).
Proof.
  intros Hlate. unfold after_wait.
  set (wt := Qmax 0 _).
  destruct (Qlt_le_dec 0 wt) as [Hpos|_]; simpl; [|lia].
  pose proof (Qle_ceiling wt) as Hceil.
  assert (inject_Z 0 < inject_Z (Qceiling wt))%Q as H
    by (eapply Qlt_le_trans; [exact Hpos|exact Hceil]).
  rewrite <- Zlt_Qlt in H. lia.
Qed.

Lemma resume_timer x s due :
  suspended s = [Timer due] →
  resume 0 x s
  = dispatch x.2 (mkLoop (at_time (Z.max (clock (sys s)) due) (sys s)) []).
Proof. intros H. unfold resume. rewrite H. reflexivity. Qed.

Lemma resume_operation x s p outcome due :
  suspended s = [Operation p outcome due] →
  resume 0 x s
  = head x
      (mkLoop (resolve p outcome (at_time (Z.max (clock (sys s)) due) (sys s)))
         []).
Proof. intros H. unfold resume. rewrite H. reflexivity. Qed.

Lemma resume_nothing k x s : suspended s = [] → resume k x s = s.
Proof. intros H. unfold resume. rewrite H. reflexivity. Qed.

(** A [throttle] on a limiter at rest, followed to the settlement of its
    promise, is the one pass that the pass-level model makes of it. *)
Lemma awaited_throttle_agrees f x (s0 : Sys W T) :
  running (limiter s0) = false → queue (limiter s0) = [] →
  0 ≤ x.1.2 → 0 ≤ x.2 →
  let s' := run [Throttle f x; Resume 0 x; Resume 0 x] (mkLoop s0 []) in
  sys s' = snd (RateLimiter.throttle f [turn x []] s0) ∧ suspended s' = [].
Proof.
  intros Hrun Hq Hlate Hel s'. subst s'.
  rewrite (throttle_idle f (turn x []) s0 Hrun Hq eq_refl). cbv zeta.
  cbn [snd]. unfold run. cbn [foldl step].
  rewrite (throttle_stopped f x (mkLoop s0 [])) by exact Hrun.
  cbn [snd sys suspended].
  set (s1 := mkLoop (set_running true (push f s0)) []).
  assert (queue (limiter (sys s1)) = [mkTask (promises s0) f]) as Hq1
    by (cbn; rewrite Hq; reflexivity).
  pose proof (after_wait_later (turn x []) (sys s1) Hlate) as Hlater.
  change (set_running true (push f s0)) with (sys s1).
  pose proof (head_cons x s1 _ _ Hq1) as Hhead. cbv zeta in Hhead.
  set (t := clock (after_wait (turn x []) (sys s1))) in *.
  destruct Hhead as [->|[-> Ht]].
  - match goal with
    | |- context [resume 0 x (mkLoop ?a ?b)] =>
        rewrite (resume_timer x (mkLoop a b) t eq_refl)
    end.
    cbn [sys]. rewrite (Z.max_r _ t) by exact Hlater.
    rewrite (dispatch_cons _ _ (mkTask (promises s0) f) []) by exact Hq1.
    cbv zeta.
    match goal with
    | |- context [resume 0 x (mkLoop ?a ?b)] =>
        erewrite (resume_operation x (mkLoop a b)) by reflexivity
    end.
    rewrite head_nil by reflexivity.
    cbn. rewrite Z.max_r by lia. split; reflexivity.
  - rewrite (dispatch_cons _ _ (mkTask (promises s0) f) []) by exact Hq1.
    cbv zeta.
    match goal with
    | |- context [resume 0 x (mkLoop ?a ?b)] =>
        erewrite (resume_operation x (mkLoop a b)) by reflexivity
    end.
    rewrite head_nil by reflexivity.
    rewrite resume_nothing by reflexivity.
    cbn. rewrite Z.max_r by lia. rewrite Ht. split; reflexivity.
Qed.
End Interleaving.

(** The run of [demo_events], and three operations back to back resumed six
    times. *)
Lemma dispatch_is_fifo_and_paced_witness :
  ((1000 <= 2000)%Q
   ∧ Forall valid_event demo_events
   ∧ RateLimiter.paced 1000
       (snd <$> RateLimiter.dispatched
                  (Async.sys (Async.run demo_events
                                (Async.boot 1000 2000 0 0%nat)))))
  ∧ (valid_timing timing0 ∧ valid_timing timing1 ∧ valid_timing timing2
     ∧ Forall valid_timing six_turns ∧ (6 ≤ length six_turns)%nat
     ∧ let s :=
         Async.run
           (three_calls (op_ok 10) (op_fail "boom") (op_ok 30)
              timing0 timing1 timing2 six_turns)
           (Async.boot 1000 2000 0 0%nat) in
       ∃ t0 t1 t2,
         RateLimiter.dispatched (Async.sys s)
         = [(0%nat, t0); (1%nat, t1); (2%nat, t2)]
         ∧ t0 < t1 < t2 ∧ 1000 ≤ t1 - t0 ∧ 1000 ≤ t2 - t1
         ∧ fst <$> RateLimiter.settled (Async.sys s) = [0; 1; 2]%nat
         ∧ in_flight s = []).
Proof.
  assert (1000 <= 2000)%Q as Hint by (unfold Qle; simpl; lia).
  assert (valid_timing timing0) as H0
    by (unfold valid_timing, Qle, Qlt; simpl; lia).
  assert (valid_timing timing1) as H1
    by (unfold valid_timing, Qle, Qlt; simpl; lia).
  assert (valid_timing timing2) as H2
    by (unfold valid_timing, Qle, Qlt; simpl; lia).
  assert (Forall valid_timing six_turns) as Hsix.
  { unfold six_turns. repeat (constructor; [assumption|]). constructor. }
  assert (Forall valid_event demo_events) as Hev.
  { unfold demo_events, three_calls, six_turns. cbn [fmap list_fmap app].
    repeat (constructor; [first [assumption|exact I]|]). constructor. }
  pose proof (dispatch_is_fifo_and_paced 1000 2000 0 0%nat demo_events
                (op_ok 10) (op_fail "boom") (op_ok 30) timing0 timing1 timing2
                six_turns)
    as [(_ & _ & _ & Hpaced) Hthree].
  split.
  - split; [exact Hint|]. split; [exact Hev|]. exact (Hpaced Hint Hev).
  - split; [exact H0|]. split; [exact H1|]. split; [exact H2|].
    split; [exact Hsix|]. split; [simpl; lia|].
    apply (Hthree H0 H1 H2 Hsix). simpl. lia.
Defined.

(** The run of [demo_events] from a clock at zero: the dispatch times, how
    the four promises settled, and the dispatcher stopped at the end. *)
Example demo_events_run :
  let s := Async.run demo_events (Async.boot 1000 2000 0 0%nat) in
  RateLimiter.dispatched (Async.sys s)
  = [(0%nat, 1500); (1%nat, 2505); (2%nat, 4255); (3%nat, 14355)]
  ∧ RateLimiter.settled (Async.sys s)
    = [(0%nat, Ok 10); (1%nat, Throw "boom"); (2%nat, Ok 30); (3%nat, Ok 40)]
  ∧ Async.suspended s = []
  ∧ RateLimiter.running (RateLimiter.limiter (Async.sys s)) = false.
Proof. vm_compute. repeat split. Qed.

(** C6 as stated fails: with timers that fire a millisecond early, two
    operations submitted back to back to a limiter with delays 1000 and 2000
    are dispatched at 999 and 1998, which is 999 apart. *)
Lemma early_timer_breaks_pacing : ¬ always_paced.
Proof.
  intros H.
  assert (Forall random_in_range early_events) as Hr.
  { repeat constructor; unfold Qle, Qlt; simpl; lia. }
  specialize (H 1000%Q 2000%Q 0 early_events Hr).
  assert (RateLimiter.dispatched
            (Async.sys (Async.run early_events (Async.boot 1000 2000 0 0%nat)))
          = [(0%nat, 999); (1%nat, 1998)]) as Hd
    by (vm_compute; reflexivity).
  rewrite Hd in H.
  specialize (H 0%nat 999 1998 eq_refl eq_refl).
  revert H. unfold Qle. simpl. lia.
Qed.

(** So does a limiter constructed with the larger delay first: with delays
    2000 and 1000 and timers that fire on time, two dispatches lie 1500
    apart. *)
Example swapped_delays_break_pacing :
  Forall valid_event on_time_events
  ∧ RateLimiter.dispatched
      (Async.sys (Async.run on_time_events (Async.boot 2000 1000 0 0%nat)))
    = [(0%nat, 1500); (1%nat, 3000)].
Proof.
  split; [|vm_compute; reflexivity].
  repeat constructor; unfold Qle, Qlt; simpl; lia.
Qed.

(** A call that arrives while the dispatcher is suspended is queued and
    nothing more; an operation is in flight from its dispatch until the
    dispatcher is resumed from it. *)
Example call_during_a_pass :
  let s1 := snd (Async.throttle (op_ok 10) timing0
                   (Async.boot 1000 2000 5000 0%nat)) in
  let s2 := snd (Async.throttle (op_ok 20) timing0 s1) in
  let s3 := Async.resume 0 timing0 s2 in
  in_flight s1 = [0%nat]
  ∧ RateLimiter.dispatched (Async.sys s1) = [(0%nat, 5000)]
  ∧ RateLimiter.settled (Async.sys s1) = []
  ∧ RateLimiter.running (RateLimiter.limiter (Async.sys s1)) = true
  ∧ Async.suspended s2 = Async.suspended s1
  ∧ RateLimiter.getQueueLength (Async.sys s2) = 1
  ∧ RateLimiter.settled (Async.sys s3) = [(0%nat, Ok 10)]
  ∧ Async.suspended s3 = [Async.Timer 6500].
Proof. vm_compute. repeat split. Qed.

(** ** The worker loop *)

Section Worker.
Import GameRepository RateLimiter DetailScraper.

Context (browser : Game.pick → Result Details.t).
Context (timing : nat → Q * Z * Z).
Context (workerId : string) (batchSize : nat).

Implicit Types (s : State) (st : Store) (game : Game.pick).

Lemma update_owners gid d now st :
  owners (snd (updateGameWithAllDetails gid d now st)) = owners st.
Proof.
  pose proof (update_shape gid d now st) as [H _]. simpl in H.
  unfold owners.
  induction H as [|g g' l l' Hgg _ IH]; [reflexivity|].
  rewrite !fmap_cons, IH.
  apply payload_written_lease in Hgg as (-> & -> & _). reflexivity.
Qed.

(** [scrapeGameDetailPage] writes no lease and no verdict; when the browser
    fails it leaves the store alone and fails with the same error. *)
Lemma scrape_frame game t (w : World) :
  let r := scrapeGameDetailPage browser game t w in
  owners (store (snd r)) = owners (store w)
  ∧ (∃ extra, log (snd r) = log w ++ extra ∧ omap verdict_name extra = [])
  ∧ (∀ e, browser game = Throw e → fst r = Throw e ∧ store (snd r) = store w).
Proof.
  unfold scrapeGameDetailPage.
  destruct (browser game) as [d|e].
  - pose proof (update_owners (Game.pid game) d t (store w)) as Hown.
    destruct (updateGameWithAllDetails _ _ _ _) as [[[]|e] db]; simpl in *.
    + split; [exact Hown|]. split; [|discriminate].
      exists []. rewrite app_nil_r. split; reflexivity.
    + split; [exact Hown|]. split; [|discriminate].
      eexists. split; reflexivity.
  - simpl. split; [reflexivity|]. split.
    + eexists. split; reflexivity.
    + intros e' [= ->]. split; reflexivity.
Qed.

Lemma turn_for_quiet p : quiet (turn_for timing p : Turn World unit).
Proof. unfold turn_for, quiet. destruct (timing p) as [[? ?] ?]. reflexivity. Qed.

(** One awaited [throttle] of the worker: the promise settles with the
    outcome of the operation, and the dispatcher is idle again. *)
Lemma await_throttle (f : Fn World unit) s :
  idle s →
  ∃ t s1,
    throttle f [turn_for timing (promises s)] s = (promises s, s1)
    ∧ outcome_of (promises s) s1 = Some (fst (f t (world s)))
    ∧ world s1 = snd (f t (world s))
    ∧ idle s1.
Proof.
  intros (Hrun & Hq & Hfifo & Hset).
  rewrite (throttle_idle f _ s Hrun Hq (turn_for_quiet _)).
  eexists. eexists. split; [reflexivity|].
  split; [|split; [reflexivity|]].
  - unfold outcome_of. cbn [settled].
    rewrite (find_snoc _ _ (promises s, _)).
    + reflexivity.
    + apply settled_below; auto.
    + apply Nat.eqb_refl.
  - unfold idle, fifo, settled_in_order in *. cbn.
    rewrite Hq in Hfifo. rewrite app_nil_r in *.
    split; [reflexivity|]. split; [reflexivity|].
    rewrite !fmap_app, Hset, Hfifo. cbn.
    split; [|reflexivity].
    exact (eq_sym (seq_S (promises s) 0)).
Qed.

Lemma logline_idle l s : idle s → idle (logline l s).
Proof. intros H. exact H. Qed.

Lemma on_store_idle f s : idle s → idle (on_store f s).
Proof. intros H. exact H. Qed.

(** The [for] loop goes through the whole batch whatever the attempts come
    to: it writes one verdict per game, in claim order, a failure verdict for
    every game the browser fails on, and it leaves every lease where it is. *)
Lemma process_batch_spec (batch : list Game.pick) total s :
  idle s →
  ∃ total' s',
    process_batch browser timing workerId batch total s = Some (total', s')
    ∧ idle s'
    ∧ owners (store (world s')) = owners (store (world s))
    ∧ (∃ lines, log (world s') = log (world s) ++ lines
                ∧ omap verdict_name lines = Game.pname <$> batch)
    ∧ (∀ game e, game ∈ batch → browser game = Throw e →
         FailedToScrape workerId (Game.pname game) e ∈ log (world s')).
Proof.
  revert total s.
  induction batch as [|game batch IH]; intros total s Hidle.
  - exists total, s. split; [reflexivity|]. split; [exact Hidle|].
    split; [reflexivity|]. split.
    + exists []. rewrite app_nil_r. split; reflexivity.
    + intros game e Hin. inversion Hin.
  - destruct (await_throttle (scrapeGameDetailPage browser game) s Hidle)
      as (t & s1 & Hthr & Hout & Hworld & Hidle1).
    pose proof (scrape_frame game t (world s)) as (Hown & Hlog & Hfail).
    cbv zeta in Hown, Hlog, Hfail.
    destruct Hlog as (extra & Hlog & Hextra).
    rewrite <- Hworld in Hown, Hlog.
    cbn [process_batch]. rewrite Hthr, Hout.
    destruct (fst (scrapeGameDetailPage browser game t (world s)))
      as [[]|e] eqn:Hres.
    + destruct (IH (S total)
                  (logline (Completed workerId (S total) (Game.pname game)) s1)
                  (logline_idle _ _ Hidle1))
        as (total' & s' & Hrun & Hidle' & Hown' & (lines & Hlines & Hv) & Hf).
      exists total', s'. split; [exact Hrun|]. split; [exact Hidle'|].
      cbn in Hown', Hlines.
      split; [congruence|]. split.
      * exists (extra ++ Completed workerId (S total) (Game.pname game) :: lines).
        split.
        -- rewrite Hlines, Hlog, <- !app_assoc. reflexivity.
        -- rewrite omap_app, Hextra. cbn. rewrite Hv. reflexivity.
      * intros g e Hin Hb. apply elem_of_cons in Hin as [->|Hin].
        -- destruct (Hfail e Hb) as [Hthrow _]. congruence.
        -- eapply Hf; eauto.
    + destruct (IH total
                  (logline (FailedToScrape workerId (Game.pname game) e) s1)
                  (logline_idle _ _ Hidle1))
        as (total' & s' & Hrun & Hidle' & Hown' & (lines & Hlines & Hv) & Hf).
      exists total', s'. split; [exact Hrun|]. split; [exact Hidle'|].
      cbn in Hown', Hlines.
      split; [congruence|]. split.
      * exists (extra ++ FailedToScrape workerId (Game.pname game) e :: lines).
        split.
        -- rewrite Hlines, Hlog, <- !app_assoc. reflexivity.
        -- rewrite omap_app, Hextra. cbn. rewrite Hv. reflexivity.
      * intros g e' Hin Hb. apply elem_of_cons in Hin as [->|Hin].
        -- destruct (Hfail e' Hb) as [Hthrow _].
           assert (e' = e) as -> by congruence.
           rewrite Hlines. apply elem_of_app. left.
           apply elem_of_app. right. left.
        -- eapply Hf; eauto.
Qed.

Lemma owners_ids st : (owners st).*1 = Game.id <$> games st.
Proof. unfold owners. rewrite <- list_fmap_compose. reflexivity. Qed.

Lemma goes_through_ids st st' game :
  Game.id <$> games st' = Game.id <$> games st →
  goes_through browser st' game ↔ goes_through browser st game.
Proof. intros H. unfold goes_through. rewrite H. reflexivity. Qed.

(** The attempt returns exactly when it goes through, and it throws what a
    throwing write throws. *)
Lemma scrape_outcome game t (w : World) :
  let r := scrapeGameDetailPage browser game t w in
  (fst r = Ok tt ↔ goes_through browser (store w) game)
  ∧ (∀ d e, browser game = Ok d →
       fst (updateGameWithAllDetails (Game.pid game) d t (store w)) = Throw e →
       fst r = Throw e).
Proof.
  unfold scrapeGameDetailPage, goes_through.
  destruct (browser game) as [d|e] eqn:Hb; simpl.
  - pose proof (update_returns_iff (Game.pid game) d t (store w)) as Hiff.
    split.
    + destruct (updateGameWithAllDetails _ _ _ _) as [[[]|e] db]; simpl in *.
      * split; [|reflexivity]. intros _. split; [exact I|].
        apply Hiff. reflexivity.
      * split; [discriminate|]. intros [_ Hin]. apply Hiff in Hin.
        discriminate Hin.
    + intros d' e' [= <-] Hthrow.
      destruct (updateGameWithAllDetails _ _ _ _) as [[[]|e] db]; simpl in *.
      * discriminate Hthrow.
      * exact Hthrow.
  - split.
    + split; [discriminate|]. intros [[] _].
    + intros d' e' H. discriminate H.
Qed.

Lemma no_verdict_filter (lines : list LogLine) :
  omap verdict_name lines = [] → filter is_verdict lines = [].
Proof.
  induction lines as [|l lines IH]; [reflexivity|].
  intros Hnil. rewrite filter_cons.
  destruct l; try discriminate Hnil; rewrite (IH Hnil);
    rewrite decide_False; try reflexivity;
    unfold is_verdict; simpl; intros [? H]; discriminate H.
Qed.

(** The verdicts of a batch, item by item: an attempt that goes through is
    logged as completed and counted, one that does not, whether it is the
    extraction or the write that throws, is logged as failed and not
    counted.  The rows of the store are those of [st0] throughout. *)
Lemma process_batch_outcomes (batch : list Game.pick) total s st0 :
  idle s →
  Game.id <$> games (store (world s)) = Game.id <$> games st0 →
  ∃ total' s' lines,
    process_batch browser timing workerId batch total s = Some (total', s')
    ∧ log (world s') = log (world s) ++ lines
    ∧ Forall2 (verdict_on browser workerId st0) batch
        (filter is_verdict lines)
    ∧ total'
      = (total + length (filter (goes_through browser st0) batch))%nat.
Proof.
  revert total s. induction batch as [|game batch IH]; intros total s Hidle Hids.
  - exists total, s, []. split; [reflexivity|]. rewrite app_nil_r.
    split; [reflexivity|]. split; [constructor|]. simpl. lia.
  - destruct (await_throttle (scrapeGameDetailPage browser game) s Hidle)
      as (t & s1 & Hthr & Hout & Hworld & Hidle1).
    pose proof (scrape_frame game t (world s)) as (Hown & Hlog & Hfail).
    pose proof (scrape_outcome game t (world s)) as [Hiff _].
    cbv zeta in Hown, Hlog, Hfail, Hiff.
    destruct Hlog as (extra & Hlog & Hextra).
    apply no_verdict_filter in Hextra.
    rewrite <- Hworld in Hown, Hlog.
    assert (Game.id <$> games (store (world s1)) = Game.id <$> games st0)
      as Hids1.
    { rewrite <- Hids, <- !owners_ids, Hown. reflexivity. }
    rewrite (goes_through_ids _ _ game Hids) in Hiff.
    cbn [process_batch]. rewrite Hthr, Hout.
    destruct (fst (scrapeGameDetailPage browser game t (world s)))
      as [[]|e] eqn:Hres.
    + assert (goes_through browser st0 game) as Hgo
        by (apply Hiff; reflexivity).
      destruct (IH (S total)
                  (logline (Completed workerId (S total) (Game.pname game)) s1)
                  (logline_idle _ _ Hidle1) Hids1)
        as (total' & s' & lines & Hrun & Hlines & Hall & Htot).
      exists total', s',
        (extra ++ Completed workerId (S total) (Game.pname game) :: lines).
      split; [exact Hrun|]. split.
      { rewrite Hlines. cbn [logline world log].
        rewrite Hlog, <- !app_assoc. reflexivity. }
      split.
      { rewrite filter_app, Hextra, filter_cons.
        rewrite decide_True by (unfold is_verdict; simpl; eauto).
        constructor; [|exact Hall]. left. split; [exact Hgo|eauto]. }
      rewrite filter_cons, decide_True by exact Hgo. simpl. lia.
    + assert (¬ goes_through browser st0 game) as Hno.
      { intros Hgo. apply Hiff in Hgo. discriminate Hgo. }
      destruct (IH total
                  (logline (FailedToScrape workerId (Game.pname game) e) s1)
                  (logline_idle _ _ Hidle1) Hids1)
        as (total' & s' & lines & Hrun & Hlines & Hall & Htot).
      exists total', s',
        (extra ++ FailedToScrape workerId (Game.pname game) e :: lines).
      split; [exact Hrun|]. split.
      { rewrite Hlines. cbn [logline world log].
        rewrite Hlog, <- !app_assoc. reflexivity. }
      split.
      { rewrite filter_app, Hextra, filter_cons.
        rewrite decide_True by (unfold is_verdict; simpl; eauto).
        constructor; [|exact Hall]. right. split; [exact Hno|].
        exists e. split; [reflexivity|]. intros e' Hb.
        destruct (Hfail e' Hb) as [Hthrow _]. congruence. }
      rewrite filter_cons, decide_False by exact Hno. exact Htot.
Qed.

(** *** The whole run *)

Lemma owners_updateMany (cond : Game.t → bool) (owner : option string)
    (stamp : option Date) st :
  owners (updateMany cond owner stamp st)
  = (λ g, (Game.id g, if cond g then owner else Game.processingBy g))
      <$> games st.
Proof.
  unfold owners, updateMany. simpl. rewrite <- list_fmap_compose.
  apply list_fmap_ext. intros i g _. unfold compose.
  destruct (cond g); reflexivity.
Qed.

Lemma owners_release (w : string) st :
  owners (releaseClaimedGames w st)
  = (λ v, (v.1, if bool_decide (v.2 = Some w) then None else v.2))
      <$> owners st.
Proof.
  unfold releaseClaimedGames. rewrite owners_updateMany.
  unfold owners. rewrite <- list_fmap_compose. reflexivity.
Qed.

Lemma unique_ids_owners st : unique_ids st ↔ NoDup ((owners st).*1).
Proof.
  unfold unique_ids, owners. rewrite <- list_fmap_compose. reflexivity.
Qed.

Lemma claimed_row_was_free (n : nat) st (g : Game.t) :
  unique_ids st → g ∈ games st →
  id_in (Game.pid <$> availableGames n st) g = true →
  Game.processingBy g = None.
Proof.
  intros Hnd Hg Hin. unfold id_in in Hin.
  apply bool_decide_eq_true in Hin.
  apply list_elem_of_fmap in Hin as (r & Hid & Hr).
  apply availableGames_from in Hr as (g0 & Hg0 & Hav & ->).
  simpl in Hid.
  assert (g = g0) as <- by (eapply (unique_row Game.id); eauto).
  unfold available, is_null in Hav.
  destruct (Game.processingBy g); [discriminate|reflexivity].
Qed.

(** A claim by [w] followed by a release of [w] leaves the owners as the
    release alone would. *)
Lemma claim_then_release (w : string) (n : nat) (t : Date) st :
  unique_ids st →
  owners (releaseClaimedGames w (snd (claimGamesForProcessing w n t st)))
  = owners (releaseClaimedGames w st).
Proof.
  intros Hnd. rewrite claim_store, !owners_release, owners_updateMany.
  unfold owners. rewrite <- !list_fmap_compose.
  apply list_fmap_ext. intros i g Hg. unfold compose. simpl.
  destruct (id_in _ g) eqn:Hin; [|reflexivity].
  rewrite (claimed_row_was_free n st g Hnd); auto.
  - rewrite bool_decide_eq_true_2 by reflexivity.
    rewrite bool_decide_eq_false_2 by discriminate. reflexivity.
  - eapply list_elem_of_lookup_2, Hg.
Qed.

Lemma claim_keeps_ids (w : string) (n : nat) (t : Date) st :
  unique_ids st → unique_ids (snd (claimGamesForProcessing w n t st)).
Proof.
  rewrite !unique_ids_owners, claim_store, owners_updateMany.
  unfold owners. rewrite <- !list_fmap_compose. intros H. exact H.
Qed.

Lemma filter_count_le {A B} (P : B → Prop) `{!∀ x, Decision (P x)}
    (f f' : A → B) (l : list A) :
  (∀ x, x ∈ l → P (f' x) → P (f x)) →
  (length (filter P (f' <$> l)) ≤ length (filter P (f <$> l)))%nat.
Proof.
  induction l as [|a l IH]; intros Himp; [reflexivity|].
  rewrite !fmap_cons, !filter_cons.
  assert (length (filter P (f' <$> l)) ≤ length (filter P (f <$> l)))%nat
    by (apply IH; intros x Hx; apply Himp; right; exact Hx).
  pose proof (Himp a (list_elem_of_here _ _)).
  repeat case_decide; simpl; try lia. tauto.
Qed.

Lemma filter_count_lt {A B} (P : B → Prop) `{!∀ x, Decision (P x)}
    (f f' : A → B) (l : list A) :
  (∀ x, x ∈ l → P (f' x) → P (f x)) →
  (∃ x, x ∈ l ∧ P (f x) ∧ ¬ P (f' x)) →
  (length (filter P (f' <$> l)) < length (filter P (f <$> l)))%nat.
Proof.
  induction l as [|a l IH]; intros Himp (x & Hx & Hp & Hn); [inversion Hx|].
  rewrite !fmap_cons, !filter_cons.
  assert (∀ y, y ∈ l → P (f' y) → P (f y)) as Himp'
    by (intros y Hy; apply Himp; right; exact Hy).
  pose proof (filter_count_le P f f' l Himp').
  pose proof (Himp a (list_elem_of_here _ _)).
  apply elem_of_cons in Hx as [->|Hx].
  - repeat case_decide; simpl; try lia; tauto.
  - assert (length (filter P (f' <$> l)) < length (filter P (f <$> l)))%nat
      by (apply IH; eauto).
    repeat case_decide; simpl; try lia. tauto.
Qed.

(** A claim that returns something leaves fewer rows free. *)
Lemma claim_takes_free_rows (w : string) (n : nat) (t : Date) st :
  fst (claimGamesForProcessing w n t st) ≠ [] →
  (free (snd (claimGamesForProcessing w n t st)) < free st)%nat.
Proof.
  rewrite claim_found, claim_store. intros Hne.
  unfold free. rewrite owners_updateMany. unfold owners.
  set (ids := Game.pid <$> availableGames n st).
  apply (filter_count_lt (λ v : Z * option string, v.2 = None)).
  - intros g _. cbn [snd]. destruct (id_in ids g); [discriminate|auto].
  - destruct (availableGames n st) as [|r found] eqn:E; [contradiction|].
    assert (r ∈ availableGames n st) as Hr by (rewrite E; left).
    apply availableGames_from in Hr as (g & Hg & Hav & ->).
    exists g. split; [exact Hg|]. cbn [snd].
    assert (id_in ids g = true) as ->.
    { unfold id_in, ids. apply bool_decide_eq_true. rewrite fmap_cons. left. }
    split; [|discriminate].
    unfold available, is_null in Hav.
    destruct (Game.processingBy g); [discriminate|reflexivity].
Qed.

Lemma free_le_length st : (free st ≤ length (games st))%nat.
Proof.
  unfold free, owners.
  etrans; [apply length_filter|]. rewrite length_fmap. reflexivity.
Qed.

(** The [while] loop ends: every pass that claims something leaves fewer free
    rows, and the passes in between leave the leases alone.  When it ends,
    every lease it took is still held by the worker. *)
Lemma batches_return fuel total batchCount s :
  idle s → unique_ids (store (world s)) →
  (free (store (world s)) < fuel)%nat →
  ∃ total' s',
    batches browser timing workerId batchSize fuel total batchCount s
    = Some (total', s')
    ∧ idle s'
    ∧ owners (releaseClaimedGames workerId (store (world s')))
      = owners (releaseClaimedGames workerId (store (world s))).
Proof.
  revert total batchCount s.
  induction fuel as [|fuel IH]; intros total batchCount s Hidle Hnd Hfree;
    [lia|].
  cbn [batches].
  pose proof (claim_then_release workerId batchSize (clock s)
                (store (world s)) Hnd) as Hrel.
  pose proof (claim_keeps_ids workerId batchSize (clock s)
                (store (world s)) Hnd) as Hnd1.
  pose proof (claim_takes_free_rows workerId batchSize (clock s)
                (store (world s))) as Hless.
  destruct (claimGamesForProcessing workerId batchSize (clock s)
              (store (world s))) as [found db].
  cbn [fst snd] in Hrel, Hnd1, Hless.
  destruct found as [|game found].
  - eexists. eexists. split; [reflexivity|]. split; [exact Hidle|].
    exact Hrel.
  - set (s2 := logline _ (on_store _ s)).
    assert (idle s2) as Hidle2 by exact Hidle.
    destruct (process_batch_spec (game :: found) total s2 Hidle2)
      as (total' & s3 & Hrun & Hidle3 & Hown & _).
    rewrite Hrun.
    assert (store (world s2) = db) as Hdb by reflexivity.
    rewrite Hdb in Hown.
    destruct (IH total' (S batchCount) (pause s3))
      as (total'' & s' & Hrun' & Hidle' & Hrel').
    + exact Hidle3.
    + apply unique_ids_owners. cbn. rewrite Hown.
      apply unique_ids_owners, Hnd1.
    + cbn. unfold free. rewrite Hown. fold (free db).
      assert (free db < free (store (world s)))%nat by (apply Hless; discriminate).
      lia.
    + exists total'', s'. split; [exact Hrun'|]. split; [exact Hidle'|].
      rewrite Hrel'.
      change (store (world (pause s3))) with (store (world s3)).
      rewrite (owners_release _ (store (world s3))), Hown, <- owners_release.
      exact Hrel.
Qed.

End Worker.



(** A run of a worker with batch size 2 over [three_pending], the browser
    failing on item 2: all three items get their verdict, item 2 is not
    claimed a second time while the worker runs, and at the end no item is
    leased and item 2 alone is available. *)
Example worker_run_with_one_failure :
  ∃ s',
    DetailScraper.scrapeGameDetails browser_failing_on_2 steady (Ok tt)
      "worker-1" 2 None 4 (DetailScraper.start 0 three_pending)
    = Some (Ok tt, s')
    ∧ omap verdict_name (DetailScraper.log (RateLimiter.world s'))
      = ["game-1"; "game-2"; "game-3"]
    ∧ DetailScraper.FailedToScrape "worker-1" "game-2" "Timeout 30000ms exceeded"
        ∈ DetailScraper.log (RateLimiter.world s')
    ∧ owners (DetailScraper.store (RateLimiter.world s'))
      = [(1, None); (2, None); (3, None)]
    ∧ GameRepository.available (DetailScraper.store (RateLimiter.world s'))
        <$> games (DetailScraper.store (RateLimiter.world s'))
      = [false; true; false]
    ∧ RateLimiter.dispatched s' = [(0%nat, 2500); (1%nat, 5000); (2%nat, 7500)].
Proof.
  eexists. split; [vm_compute; reflexivity|].
  split; [reflexivity|]. split.
  - apply list_elem_of_In. vm_compute. tauto.
  - repeat split.
Qed.

(** ** The launcher *)

Section Launch.
Import GameRepository Launcher.

Context (parseInt : string → option Z).

Lemma started_app (a b : list Effect) : started (a ++ b) = started a ++ started b.
Proof. apply omap_app. Qed.

Lemma started_workers (single debugMode : bool) (ids : list string) :
  started (concat (start_worker single debugMode <$> ids)) = ids.
Proof.
  induction ids as [|i ids IH]; [reflexivity|].
  rewrite fmap_cons, concat_cons, started_app, IH.
  unfold start_worker. destruct single; reflexivity.
Qed.

Lemma started_join failed : started (join failed) = [].
Proof. destruct failed; reflexivity. Qed.

(** C10. When the cleanup call of the launcher throws, the error is logged
    with the line that the launcher continues, the store is as it was, so the
    leases in it are still set, and after that the launcher starts every
    worker it was asked for, the same ones as after a cleanup that went
    well. *)
Theorem failed_sweep_is_not_fatal (argv : list string)
    (DEBUG WORKERS : option string) (e : Error) (failed : option Error)
    (db : Store) (numWorkers : Z) :
  numWorkers_of parseInt (positional argv) WORKERS = inr numWorkers →
  let r := runParallelScrapers parseInt argv DEBUG WORKERS (Some e) failed db in
  let ok := runParallelScrapers parseInt argv DEBUG WORKERS None failed db in
  snd r = db
  ∧ owners (snd r) = owners db
  ∧ (∃ before after,
       fst r
       = before
           ++ [ConsoleErrorWith "Failed to release claimed games:" e;
               ConsoleLog "Continuing anyway..."]
           ++ after
       ∧ started before = []
       ∧ started after = workerIds numWorkers)
  ∧ started (fst r) = started (fst ok)
  ∧ length (started (fst r)) = Z.to_nat numWorkers.
Proof.
  intros Hargs r ok. subst r ok.
  unfold runParallelScrapers. fold (positional argv). rewrite Hargs.
  unfold sweep. destruct (releaseAllClaimedGames db) as [n db'].
  cbn [fst snd].
  split; [reflexivity|]. split; [reflexivity|].
  split.
  - eexists. eexists. split; [reflexivity|]. split; [reflexivity|].
    rewrite started_app, started_workers, started_join, app_nil_r.
    reflexivity.
  - rewrite !started_app, !started_workers, !started_join. cbn.
    rewrite app_nil_r. split; [reflexivity|].
    unfold workerIds. rewrite length_fmap, length_seq. reflexivity.
Qed.
End Launch.

(** Three workers asked for, in one process, over [five_items], the cleanup
    call failing. *)
Lemma failed_sweep_is_not_fatal_witness :
  Launcher.numWorkers_of parse_decimal
    (positional ["3"; "--single-process"]) None = inr 3
  ∧ let r :=
      Launcher.runParallelScrapers parse_decimal ["3"; "--single-process"]
        None None (Some "Can't reach database server") None five_items in
    let ok :=
      Launcher.runParallelScrapers parse_decimal ["3"; "--single-process"]
        None None None None five_items in
    snd r = five_items
    ∧ owners (snd r) = owners five_items
    ∧ (∃ before after,
         fst r
         = before
             ++ [Launcher.ConsoleErrorWith "Failed to release claimed games:"
                   "Can't reach database server";
                 Launcher.ConsoleLog "Continuing anyway..."]
             ++ after
         ∧ started before = []
         ∧ started after = Launcher.workerIds 3)
    ∧ started (fst r) = started (fst ok)
    ∧ length (started (fst r)) = Z.to_nat 3.
Proof.
  assert (Launcher.numWorkers_of parse_decimal
            (positional ["3"; "--single-process"]) None = inr 3) as H
    by (vm_compute; reflexivity).
  split; [exact H|].
  exact (failed_sweep_is_not_fatal parse_decimal ["3"; "--single-process"]
           None None "Can't reach database server" None five_items 3 H).
Defined.

(** What that launcher does, and the leases its workers meet. *)
Example launch_after_failed_sweep :
  Launcher.runParallelScrapers parse_decimal ["3"; "--single-process"]
    None None (Some "Can't reach database server") None five_items
  = ([Launcher.ConsoleLog "Starting 3 parallel detail scrapers...";
      Launcher.ConsoleLog "Releasing all claimed games from previous runs...";
      Launcher.ConsoleErrorWith "Failed to release claimed games:"
        "Can't reach database server";
      Launcher.ConsoleLog "Continuing anyway...";
      Launcher.RunSingleWorker "worker-1" false;
      Launcher.RunSingleWorker "worker-2" false;
      Launcher.RunSingleWorker "worker-3" false;
      Launcher.ConsoleLog "All workers completed successfully!"],
     five_items)
  ∧ owners five_items
    = [(3, None); (1, None); (2, Some "worker-2"); (4, None);
       (5, Some "worker-1")].
Proof. vm_compute. split; reflexivity. Qed.

(** One worker in the launcher's own process after a failed cleanup: the
    lease that worker-2 left on item 2 is still there when worker-1 claims,
    so item 2 is passed over, and it is still there when worker-1 is done. *)
Example abandoned_lease_survives_failed_sweep :
  let db :=
    snd (Launcher.runParallelScrapers parse_decimal ["1"; "--single-process"]
           None None (Some "Can't reach database server") None five_items) in
  ∃ s',
    DetailScraper.scrapeGameDetails steady_browser steady (Ok tt) "worker-1" 5
      None 6 (DetailScraper.start 0 db)
    = Some (Ok tt, s')
    ∧ omap verdict_name (DetailScraper.log (RateLimiter.world s'))
      = ["game-1"; "game-3"]
    ∧ owners (DetailScraper.store (RateLimiter.world s'))
      = [(3, None); (1, None); (2, Some "worker-2"); (4, None); (5, None)].
Proof.
  eexists. split; [vm_compute; reflexivity|]. split; reflexivity.
Qed.

(** ** The pending list, the statistics and the claim *)

Section Pending.
Import GameRepository.

Implicit Types (s : Store) (g : Game.t) (w : string) (now : Date).

Lemma pending_updateMany (cond : Game.t → bool) (owner : option string)
    (stamp : option Date) s :
  findAllWithoutDetails (updateMany cond owner stamp s)
  = findAllWithoutDetails s.
Proof.
  pose proof (updateMany_other_tables cond owner stamp s) as Hsame.
  unfold findAllWithoutDetails.
  change (games (updateMany cond owner stamp s))
    with ((λ g, if cond g then Game.set_lease owner stamp g else g) <$> games s).
  induction (games s) as [|g gs IH]; [reflexivity|].
  rewrite fmap_cons, !filter_cons.
  assert (needs_details (updateMany cond owner stamp s)
            (if cond g then Game.set_lease owner stamp g else g)
          = needs_details s g) as Hn.
  { destruct (cond g).
    - apply needs_details_set_lease, Hsame.
    - apply needs_details_other_tables, Hsame. }
  rewrite Hn.
  destruct (decide (Is_true (needs_details s g))) as [Hd|Hd].
  - rewrite !fmap_cons, IH. f_equal. destruct (cond g); reflexivity.
  - exact IH.
Qed.

(** X1.  Every row a claim returns is a row of [findAllWithoutDetails()],
    and neither a claim nor a release changes what that query returns: a
    leased row stays in the pending list. *)
Theorem claim_draws_from_pending_list w (n : nat) now s :
  (∀ r, r ∈ fst (claimGamesForProcessing w n now s) →
        r ∈ findAllWithoutDetails s)
  ∧ findAllWithoutDetails (snd (claimGamesForProcessing w n now s))
    = findAllWithoutDetails s
  ∧ findAllWithoutDetails (releaseClaimedGames w s) = findAllWithoutDetails s
  ∧ findAllWithoutDetails (snd (releaseAllClaimedGames s))
    = findAllWithoutDetails s.
Proof.
  split; [|split; [|split]].
  - intros r Hr. rewrite claim_found in Hr.
    apply availableGames_from in Hr as (g & Hg & Hav & ->).
    unfold findAllWithoutDetails. apply list_elem_of_fmap.
    exists g. split; [reflexivity|]. apply list_elem_of_filter.
    split; [|exact Hg].
    unfold available in Hav. apply andb_true_iff in Hav as [_ Hav].
    rewrite Hav. exact I.
  - rewrite claim_store. apply pending_updateMany.
  - apply pending_updateMany.
  - apply pending_updateMany.
Qed.

Lemma filter_split_length {A} (P : A → Prop) `{!∀ x, Decision (P x)}
    (l : list A) :
  (length (filter P l) + length (filter (λ x, ¬ P x) l) = length l)%nat.
Proof.
  induction l as [|x l IH]; [reflexivity|].
  rewrite !filter_cons.
  destruct (decide (P x)) as [Hp|Hp].
  - rewrite decide_False by tauto. simpl. lia.
  - rewrite decide_True by tauto. simpl. lia.
Qed.

Lemma filter_length_mono {A} (P Q : A → Prop) `{!∀ x, Decision (P x)}
    `{!∀ x, Decision (Q x)} (l : list A) :
  (∀ x, P x → Q x) → (length (filter P l) ≤ length (filter Q l))%nat.
Proof.
  intros Himp. induction l as [|x l IH]; [reflexivity|].
  rewrite !filter_cons.
  destruct (decide (P x)) as [Hp|Hp].
  - rewrite decide_True by auto. simpl. lia.
  - destruct (decide (Q x)); simpl; lia.
Qed.

(** X2.  [getStats()]: [pendingDetails] is the number of games without a
    weight; the games with details and the pending ones add up to the
    total; and the count is a lower bound only of the length of the pending
    list, which also holds the weighted games that lack every link. *)
Theorem stats_count_null_weights s :
  let st := getStats s in
  pendingDetails st
  = Z.of_nat (length (filter (λ g, Game.weight g = None) (games s)))
  ∧ gamesWithDetails st + pendingDetails st = totalGames st
  ∧ 0 ≤ pendingDetails st ≤ Z.of_nat (length (findAllWithoutDetails s))
  ∧ 0 ≤ gamesWithCommunityData st ≤ totalGames st.
Proof.
  cbn zeta. unfold getStats. cbn [pendingDetails gamesWithDetails totalGames
    gamesWithCommunityData].
  pose proof (filter_split_length (λ g, Game.weight g = None) (games s)) as Hsplit.
  assert (length (filter (λ g, ¬ Game.weight g = None) (games s))
          = length (filter (λ g, Game.weight g ≠ None) (games s))) as Heq.
  { reflexivity. }
  assert (length (filter (λ g, Game.weight g = None) (games s))
          ≤ length (findAllWithoutDetails s))%nat as Hle.
  { unfold findAllWithoutDetails. rewrite length_fmap.
    apply filter_length_mono. intros g Hg. unfold needs_details.
    rewrite Hg. exact I. }
  pose proof (length_filter (λ g, Is_true (has_player_rating s g)) (games s)).
  repeat split; lia.
Qed.

(** X3.  A claim comes back empty exactly when the batch size is zero or no
    row is available, and then it has written nothing. *)
Theorem empty_claim_writes_nothing w (n : nat) now s :
  (fst (claimGamesForProcessing w n now s) = []
   ↔ n = 0%nat ∨ ∀ g, g ∈ games s → available s g = false)
  ∧ (fst (claimGamesForProcessing w n now s) = [] →
     snd (claimGamesForProcessing w n now s) = s).
Proof.
  split.
  - rewrite claim_found. split.
    + intros Hnil.
      pose proof (availableGames_length n s) as Hlen. rewrite Hnil in Hlen.
      simpl in Hlen.
      destruct (decide (n = 0%nat)) as [|Hn]; [left; assumption|right].
      assert (count (available s) s = 0%nat) as Hc by lia.
      unfold count in Hc. apply nil_length_inv in Hc.
      intros g Hg. destruct (available s g) eqn:Hav; [|reflexivity].
      assert (g ∈ filter (λ g, Is_true (available s g)) (games s)) as Hin.
      { apply list_elem_of_filter. rewrite Hav. split; [exact I|exact Hg]. }
      rewrite Hc in Hin. inversion Hin.
    + intros Hor. apply nil_length_inv. rewrite availableGames_length.
      destruct Hor as [->|Hno]; [reflexivity|].
      assert (count (available s) s = 0%nat) as ->; [|lia].
      unfold count.
      destruct (filter (λ g, Is_true (available s g)) (games s)) as [|g l] eqn:Hf;
        [reflexivity|].
      assert (g ∈ filter (λ g, Is_true (available s g)) (games s)) as Hin.
      { rewrite Hf. left. }
      apply list_elem_of_filter in Hin as [Hav Hg].
      rewrite (Hno g Hg) in Hav. destruct Hav.
  - unfold claimGamesForProcessing.
    destruct (availableGames n s); [reflexivity|discriminate].
Qed.

Lemma clean_row_round_trip owner stamp g :
  Game.processingBy g = None → Game.processingAt g = None →
  Game.set_lease None None (Game.set_lease owner stamp g) = g.
Proof. destruct g. simpl. intros -> ->. reflexivity. Qed.

Lemma store_eta s :
  s = mkStore (games s) (languageDependences s) (categories s) (mechanisms s)
        (families s) (gameCategories s) (gameMechanisms s) (gameFamilies s)
        (communityPlayerRatings s) (communityAgeRatings s).
Proof. destruct s. reflexivity. Qed.

Lemma lease_then_release (c1 c2 : Game.t → bool) owner stamp s :
  clean s →
  (∀ g, c1 g = true → c2 (Game.set_lease owner stamp g) = true) →
  (∀ g, Game.processingBy g = None → c1 g = false → c2 g = false) →
  updateMany c2 None None (updateMany c1 owner stamp s) = s.
Proof.
  intros Hclean H1 H2.
  etransitivity; [|symmetry; apply store_eta].
  unfold updateMany, set_games. simpl. f_equal.
  unfold clean in Hclean.
  induction (games s) as [|g gs IH]; [reflexivity|].
  inversion Hclean as [|? ? [Hby Hat] Hrest]; subst.
  rewrite !fmap_cons, (IH Hrest). f_equal.
  destruct (c1 g) eqn:Hc1.
  - rewrite (H1 g Hc1). apply clean_row_round_trip; assumption.
  - rewrite (H2 g Hby Hc1). reflexivity.
Qed.

(** X4.  On a store without leases, releasing undoes claiming: after a claim
    by a worker, both its own release and the global release give back the
    store as it was, so the worker that starts over claims the same batch. *)
Theorem release_undoes_claim w (n : nat) now s :
  clean s →
  let s1 := snd (claimGamesForProcessing w n now s) in
  releaseClaimedGames w s1 = s
  ∧ snd (releaseAllClaimedGames s1) = s
  ∧ ∀ w' now',
      fst (claimGamesForProcessing w' n now' (releaseClaimedGames w s1))
      = fst (claimGamesForProcessing w n now s).
Proof.
  intros Hclean s1.
  assert (releaseClaimedGames w s1 = s) as Hrel.
  { unfold s1. rewrite claim_store. apply lease_then_release; [exact Hclean| |].
    - intros g _. unfold leased_by. destruct g. simpl.
      apply bool_decide_eq_true. reflexivity.
    - intros g Hby _. unfold leased_by. rewrite Hby.
      apply bool_decide_eq_false. discriminate. }
  split; [exact Hrel|]. split.
  - unfold s1. rewrite claim_store. unfold releaseAllClaimedGames. simpl.
    apply lease_then_release; [exact Hclean| |].
    + intros g _. destruct g. reflexivity.
    + intros g Hby _. unfold leased. rewrite Hby. reflexivity.
  - intros w' now'. rewrite Hrel, !claim_found. reflexivity.
Qed.

End Pending.

Lemma release_undoes_claim_witness :
  clean three_pending
  ∧ GameRepository.releaseClaimedGames "worker-1"
      (snd (GameRepository.claimGamesForProcessing "worker-1" 2 10 three_pending))
    = three_pending
  ∧ snd (GameRepository.releaseAllClaimedGames
           (snd (GameRepository.claimGamesForProcessing "worker-1" 2 10
                   three_pending)))
    = three_pending.
Proof.
  assert (clean three_pending) as Hclean.
  { unfold clean. simpl. repeat constructor. }
  split; [exact Hclean|].
  pose proof (release_undoes_claim "worker-1" 2 10 three_pending Hclean) as H.
  cbn zeta in H. split; [exact (proj1 H)|exact (proj1 (proj2 H))].
Defined.

(** ** Creating a game *)

Section Creating.
Import GameRepository.

Implicit Types (s : Store) (g : Game.t) (data : CreateData.t) (now : Date).
Implicit Types (rows : list Named) (links : list Link).

Lemma next_game_id_fresh (gs : list Game.t) g :
  g ∈ gs → Game.id g < next_game_id gs.
Proof.
  unfold next_game_id. induction gs as [|x gs IH]; intros Hg.
  - inversion Hg.
  - rewrite fmap_cons. cbn [foldr].
    apply elem_of_cons in Hg as [->|Hg]; [lia|]. specialize (IH Hg). lia.
Qed.

Lemma find_existsb {A} (P : A → bool) (l : list A) :
  List.find P l = None ↔ existsb P l = false.
Proof.
  induction l as [|x l IH]; simpl; [tauto|].
  destruct (P x); simpl; [split; discriminate|exact IH].
Qed.

Lemma find_none_all {A} (P : A → bool) (l : list A) :
  List.find P l = None ↔ ∀ x, x ∈ l → P x = false.
Proof.
  induction l as [|x l IH]; simpl.
  - split; [intros _ y Hy; inversion Hy|reflexivity].
  - destruct (P x) eqn:Hp.
    + split; [discriminate|]. intros H. rewrite (H x) in Hp by left.
      discriminate.
    + rewrite IH. split.
      * intros H y Hy. apply elem_of_cons in Hy as [->|Hy]; auto.
      * intros H y Hy. apply H. right. exact Hy.
Qed.

Lemma find_app_l {A} (P : A → bool) (l k : list A) x :
  List.find P l = Some x → List.find P (l ++ k) = Some x.
Proof.
  induction l as [|y l IH]; simpl; [discriminate|].
  destruct (P y); [tauto|exact IH].
Qed.

Lemma find_snoc_miss {A} (P : A → bool) (l : list A) x :
  P x = false → List.find P (l ++ [x]) = List.find P l.
Proof.
  intros Hx. induction l as [|y l IH]; simpl; [rewrite Hx; reflexivity|].
  destruct (P y); [reflexivity|exact IH].
Qed.

Lemma find_holds {A} (P : A → bool) (l : list A) x :
  List.find P l = Some x → P x = true ∧ x ∈ l.
Proof.
  induction l as [|y l IH]; simpl; [discriminate|].
  destruct (P y) eqn:Hy.
  - intros [= ->]. split; [exact Hy|left].
  - intros H. destruct (IH H). split; [assumption|right; assumption].
Qed.

Lemma upsert_named_spec text rows r rows1 :
  upsert_named text rows = (r, rows1) →
  List.find (λ x, bool_decide (ntext x = text)) rows1 = Some r
  ∧ ntext r = text
  ∧ (rows1 = rows ∨ rows1 = rows ++ [r] ∧ nid r = next_id rows)
  ∧ (∀ t x, List.find (λ x, bool_decide (ntext x = t)) rows = Some x →
            List.find (λ x, bool_decide (ntext x = t)) rows1 = Some x).
Proof.
  unfold upsert_named.
  destruct (List.find (λ x, bool_decide (ntext x = text)) rows) as [r0|] eqn:Hf.
  - intros [= <- <-]. split; [exact Hf|]. split.
    + apply find_holds in Hf as [Hp _]. apply bool_decide_eq_true in Hp.
      exact Hp.
    + split; [left; reflexivity|tauto].
  - intros [= <- <-]. split.
    + apply find_snoc; [exact Hf|]. apply bool_decide_eq_true. reflexivity.
    + split; [reflexivity|]. split; [right; split; reflexivity|].
      intros t x Hx. apply find_app_l. exact Hx.
Qed.

Lemma link_eqb_refl (l : Link) : link_eqb l l = true.
Proof. unfold link_eqb. rewrite !Z.eqb_refl. reflexivity. Qed.

Lemma link_all_blocks gid (ns : list string) rows links res n r :
  link_all gid ns rows links = Some res →
  List.find (λ x, bool_decide (ntext x = n)) rows = Some r →
  existsb (link_eqb (mkLink gid (nid r))) links = true →
  n ∉ ns.
Proof.
  revert rows links. induction ns as [|n' ns IH]; intros rows links Hall Hf He.
  - apply not_elem_of_nil.
  - simpl in Hall. destruct (upsert_named n' rows) as [r' rows1] eqn:Hu.
    unfold create_link in Hall.
    destruct (existsb (link_eqb (mkLink gid (nid r'))) links) eqn:He';
      [discriminate|].
    apply not_elem_of_cons. split.
    + intros ->. unfold upsert_named in Hu. rewrite Hf in Hu.
      injection Hu as <- <-. rewrite He in He'. discriminate.
    + apply (IH rows1 (links ++ [mkLink gid (nid r')])); [exact Hall| |].
      * exact (proj2 (proj2 (proj2 (upsert_named_spec _ _ _ _ Hu))) _ _ Hf).
      * rewrite existsb_app, He. reflexivity.
Qed.

Lemma link_all_NoDup gid (ns : list string) rows links res :
  link_all gid ns rows links = Some res → NoDup ns.
Proof.
  revert rows links. induction ns as [|n ns IH]; intros rows links Hall.
  - apply NoDup_nil_2.
  - simpl in Hall. destruct (upsert_named n rows) as [r rows1] eqn:Hu.
    unfold create_link in Hall.
    destruct (existsb (link_eqb (mkLink gid (nid r))) links) eqn:He;
      [discriminate|].
    apply NoDup_cons. split.
    + apply (link_all_blocks _ _ _ _ _ _ r Hall).
      * exact (proj1 (upsert_named_spec _ _ _ _ Hu)).
      * rewrite existsb_app. simpl. rewrite link_eqb_refl.
        rewrite orb_true_r. reflexivity.
    + exact (IH _ _ Hall).
Qed.

Lemma createGame_Ok data now s g s' :
  createGame data now s = (Ok g, s') →
  findByBggUrl (CreateData.bggUrl data) s = None
  ∧ (∃ lang, g = new_game (next_game_id (games s)) data lang now)
  ∧ games s' = games s ++ [g]
  ∧ NoDup (CreateData.categories data)
  ∧ NoDup (CreateData.mechanisms data)
  ∧ NoDup (CreateData.families data)
  ∧ communityPlayerRatings s' = communityPlayerRatings s
  ∧ communityAgeRatings s' = communityAgeRatings s.
Proof.
  unfold createGame.
  destruct (match CreateData.languageDependenceText data with
            | Some text => _ | None => _ end) as [lang langs].
  destruct (existsb _ (games s)) eqn:He; [discriminate|].
  destruct (link_all _ (CreateData.categories data) _ _) as [[cats gcs]|] eqn:Hc;
    [|discriminate].
  destruct (link_all _ (CreateData.mechanisms data) _ _) as [[mechs gms]|] eqn:Hm;
    [|discriminate].
  destruct (link_all _ (CreateData.families data) _ _) as [[fams gfs]|] eqn:Hf;
    [|discriminate].
  intros [= <- <-]. simpl.
  split; [apply find_existsb; exact He|].
  split; [exists lang; reflexivity|].
  split; [reflexivity|].
  split; [exact (link_all_NoDup _ _ _ _ _ Hc)|].
  split; [exact (link_all_NoDup _ _ _ _ _ Hm)|].
  split; [exact (link_all_NoDup _ _ _ _ _ Hf)|].
  split; reflexivity.
Qed.

Lemma createGame_Throw data now s e s' :
  createGame data now s = (Throw e, s') → s' = s.
Proof.
  unfold createGame.
  destruct (match CreateData.languageDependenceText data with
            | Some text => _ | None => _ end) as [lang langs].
  destruct (existsb _ (games s)); [intros [= _ <-]; reflexivity|].
  destruct (link_all _ (CreateData.categories data) _ _) as [[cats gcs]|];
    [|intros [= _ <-]; reflexivity].
  destruct (link_all _ (CreateData.mechanisms data) _ _) as [[mechs gms]|];
    [|intros [= _ <-]; reflexivity].
  destruct (link_all _ (CreateData.families data) _ _) as [[fams gfs]|];
    [|intros [= _ <-]; reflexivity].
  discriminate.
Qed.

(** X5.  A game that [createGame] has stored is the one [findByBggUrl] and
    [findById] return for its url and its id; no other url resolves
    differently than before; the row is appended, unleased, under a key and
    a url that keep both columns unique; and with no weight it is pending
    and open to the next claim. *)
Theorem created_game_is_found data now s g s' :
  createGame data now s = (Ok g, s') →
  findByBggUrl (CreateData.bggUrl data) s = None
  ∧ findByBggUrl (CreateData.bggUrl data) s' = Some g
  ∧ DetailScraper.findById (Game.id g) s' = Some (Game.select g)
  ∧ (∀ url, url ≠ CreateData.bggUrl data →
            findByBggUrl url s' = findByBggUrl url s)
  ∧ games s' = games s ++ [g]
  ∧ (unique_ids s → unique_ids s')
  ∧ (unique_urls s → unique_urls s')
  ∧ Game.processingBy g = None
  ∧ (CreateData.weight data = None → available s' g = true).
Proof.
  intros Hc.
  destruct (createGame_Ok _ _ _ _ _ Hc) as (Hnone & [lang Hg] & Hgames & _).
  assert (Game.bggUrl g = CreateData.bggUrl data) as Hurl by (rewrite Hg; reflexivity).
  assert (Game.id g = next_game_id (games s)) as Hid by (rewrite Hg; reflexivity).
  split; [exact Hnone|]. split.
  { unfold findByBggUrl. rewrite Hgames. apply find_snoc; [exact Hnone|].
    apply bool_decide_eq_true. exact Hurl. }
  split.
  { unfold DetailScraper.findById. rewrite Hgames.
    rewrite (find_snoc _ _ g); [reflexivity| |].
    - apply find_none_all. intros x Hx. unfold has_id.
      apply Z.eqb_neq. pose proof (next_game_id_fresh _ _ Hx). lia.
    - unfold has_id. apply Z.eqb_refl. }
  split.
  { intros url Hne. unfold findByBggUrl. rewrite Hgames.
    apply find_snoc_miss. apply bool_decide_eq_false. congruence. }
  split; [exact Hgames|]. split.
  { unfold unique_ids. rewrite Hgames, fmap_app. intros Hnd.
    apply NoDup_app. split; [exact Hnd|]. split.
    - intros i Hi Hi'. simpl in Hi'. apply list_elem_of_singleton in Hi'.
      apply list_elem_of_fmap in Hi as (x & -> & Hx).
      pose proof (next_game_id_fresh _ _ Hx). lia.
    - apply NoDup_singleton. }
  split.
  { unfold unique_urls. rewrite Hgames, fmap_app. intros Hnd.
    apply NoDup_app. split; [exact Hnd|]. split.
    - intros u Hu Hu'. simpl in Hu'. apply list_elem_of_singleton in Hu'.
      apply list_elem_of_fmap in Hu as (x & -> & Hx).
      unfold findByBggUrl in Hnone.
      pose proof (proj1 (find_none_all _ _) Hnone x Hx) as Hx'.
      apply bool_decide_eq_false in Hx'. congruence.
    - apply NoDup_singleton. }
  split; [rewrite Hg; reflexivity|].
  intros Hw. unfold available, needs_details.
  rewrite Hg. simpl. rewrite Hw. reflexivity.
Qed.

(** X6.  [createGame] stores everything or nothing: an error leaves the
    store as it was, lookup rows included, and it is what a known url gets,
    or a list of categories, mechanisms or families that names one of them
    twice. *)
Theorem create_is_all_or_nothing data now s :
  (∀ e s', createGame data now s = (Throw e, s') → s' = s)
  ∧ (findByBggUrl (CreateData.bggUrl data) s ≠ None
     ∨ ¬ NoDup (CreateData.categories data)
     ∨ ¬ NoDup (CreateData.mechanisms data)
     ∨ ¬ NoDup (CreateData.families data) →
     ∃ e, createGame data now s = (Throw e, s)).
Proof.
  split; [intros e s'; apply createGame_Throw|].
  intros Hbad. destruct (createGame data now s) as [[g|e] s'] eqn:Hc.
  - destruct (createGame_Ok _ _ _ _ _ Hc) as (H0 & _ & _ & H1 & H2 & H3 & _).
    destruct Hbad as [H|[H|[H|H]]]; contradiction.
  - exists e. rewrite (createGame_Throw _ _ _ _ _ Hc). reflexivity.
Qed.

End Creating.

(** ** Persisting and reading back a payload *)

Section Persisting.
Import GameRepository.

Implicit Types (s : Store) (g : Game.t) (d : Details.t) (now : Date).
Implicit Types (rows : list Named) (links : list Link).

Lemma next_id_fresh rows r : r ∈ rows → nid r < next_id rows.
Proof.
  unfold next_id. induction rows as [|x rows IH]; intros Hr.
  - inversion Hr.
  - rewrite fmap_cons. cbn [foldr].
    apply elem_of_cons in Hr as [->|Hr]; [lia|]. specialize (IH Hr). lia.
Qed.

Lemma upsert_named_unique text rows r rows1 :
  upsert_named text rows = (r, rows1) →
  unique_named rows → unique_named rows1.
Proof.
  intros Hu Hnd.
  destruct (upsert_named_spec _ _ _ _ Hu) as (_ & _ & [->|[-> Hid]] & _);
    [exact Hnd|].
  unfold unique_named. rewrite fmap_app. apply NoDup_app.
  split; [exact Hnd|]. split; [|apply NoDup_singleton].
  intros i Hi Hi'. simpl in Hi'. apply list_elem_of_singleton in Hi'.
  apply list_elem_of_fmap in Hi as (x & -> & Hx).
  pose proof (next_id_fresh _ _ Hx). lia.
Qed.

(** The lookups of one table: rows are only appended, each name gets the
    id of a row that carries it, and ids stay unique. *)
Lemma findOrCreate_all_spec (names : list string) rows ids rows' :
  findOrCreate_all names rows = (ids, rows') →
  (∃ extra, rows' = rows ++ extra)
  ∧ Forall2 (λ n i, ∃ r, r ∈ rows' ∧ ntext r = n ∧ nid r = i) names ids
  ∧ (unique_named rows → unique_named rows').
Proof.
  revert rows ids rows'. induction names as [|n ns IH]; intros rows ids rows'.
  - simpl. intros [= <- <-]. split; [exists []; rewrite app_nil_r; reflexivity|].
    split; [constructor|tauto].
  - simpl. destruct (upsert_named n rows) as [r rows1] eqn:Hu.
    destruct (findOrCreate_all ns rows1) as [ids1 rows2] eqn:Hrec.
    intros [= <- <-].
    destruct (IH _ _ _ Hrec) as ([extra Hext] & Hall & Hnd).
    destruct (upsert_named_spec _ _ _ _ Hu) as (Hfind & Htext & Hshape & _).
    split.
    { destruct Hshape as [->|[-> _]].
      - exists extra. exact Hext.
      - exists ([r] ++ extra). rewrite Hext, <- app_assoc. reflexivity. }
    split.
    { constructor; [|exact Hall]. exists r.
      split; [|split; [exact Htext|reflexivity]].
      rewrite Hext. apply elem_of_app. left.
      exact (proj2 (find_holds _ _ _ Hfind)). }
    intros H. apply Hnd. exact (upsert_named_unique _ _ _ _ Hu H).
Qed.

Lemma lookups_tables d s :
  let r := lookups d s in
  (r.1.1.1.2, categories r.2)
  = findOrCreate_all (Details.categories d) (categories s)
  ∧ (r.1.1.2, mechanisms r.2)
    = findOrCreate_all (Details.mechanisms d) (mechanisms s)
  ∧ (r.1.2, families r.2)
    = findOrCreate_all (Details.families d) (families s)
  ∧ communityPlayerRatings r.2 = communityPlayerRatings s
  ∧ communityAgeRatings r.2 = communityAgeRatings s.
Proof.
  unfold lookups.
  destruct (match Details.languageDependenceText d with
            | Some text => _ | None => _ end) as [lang langs].
  destruct (findOrCreate_all (Details.categories d) _) as [cs cats].
  destruct (findOrCreate_all (Details.mechanisms d) _) as [ms mechs].
  destruct (findOrCreate_all (Details.families d) _) as [fs fams].
  simpl. repeat split.
Qed.

Lemma names_kept (names : list string) rows :
  ∀ n, n ∈ names → n ∈ ntext <$> (findOrCreate_all names rows).2.
Proof.
  intros n Hn.
  destruct (findOrCreate_all names rows) as [ids rows'] eqn:Hf.
  destruct (findOrCreate_all_spec _ _ _ _ Hf) as (_ & Hall & _).
  apply list_elem_of_lookup_1 in Hn as [k Hk].
  destruct (Forall2_lookup_l _ _ _ _ _ Hall Hk) as (i & _ & r & Hr & Ht & _).
  simpl. apply list_elem_of_fmap. exists r. split; [symmetry; exact Ht|exact Hr].
Qed.

(** X7.  [updateGameWithAllDetails] returns exactly when a row has the id.
    When none has, it throws with the games, the links and the community
    rows as they were; the lookup rows it created before its transaction
    are not taken back, so every name of the payload stays behind. *)
Theorem update_needs_the_row gid d now s :
  let r := updateGameWithAllDetails gid d now s in
  (fst r = Ok tt ↔ ∃ g, g ∈ games s ∧ Game.id g = gid)
  ∧ ((∀ g, g ∈ games s → Game.id g ≠ gid) →
     fst r = Throw "Record to update not found"
     ∧ games (snd r) = games s
     ∧ gameCategories (snd r) = gameCategories s
     ∧ gameMechanisms (snd r) = gameMechanisms s
     ∧ gameFamilies (snd r) = gameFamilies s
     ∧ communityPlayerRatings (snd r) = communityPlayerRatings s
     ∧ communityAgeRatings (snd r) = communityAgeRatings s
     ∧ (∀ n, n ∈ Details.categories d → n ∈ ntext <$> categories (snd r))
     ∧ (∀ n, n ∈ Details.mechanisms d → n ∈ ntext <$> mechanisms (snd r))
     ∧ (∀ n, n ∈ Details.families d → n ∈ ntext <$> families (snd r))).
Proof.
  cbn zeta. rewrite updateGameWithAllDetails_eq.
  pose proof (lookups_frame d s) as (Hg & Hc & Hm & Hf).
  pose proof (lookups_tables d s) as (Tc & Tm & Tf & Tp & Ta).
  pose proof (names_kept (Details.categories d) (categories s)) as Nc.
  pose proof (names_kept (Details.mechanisms d) (mechanisms s)) as Nm.
  pose proof (names_kept (Details.families d) (families s)) as Nf.
  destruct (lookups d s) as [[[[lang cs] ms] fs] s1].
  cbn [fst snd] in *. rewrite <- Tc in Nc. rewrite <- Tm in Nm.
  rewrite <- Tf in Nf. cbn [fst snd] in *.
  destruct (existsb (has_id gid) (games s1)) eqn:He; cbn [negb fst snd].
  - rewrite Hg in He. apply existsb_has_id in He. split; [tauto|].
    intros Hno. destruct He as (g & Hin & Hid). destruct (Hno g Hin Hid).
  - split.
    + split; [discriminate|]. intros Hex. rewrite Hg in He.
      apply existsb_has_id in Hex. rewrite Hex in He. discriminate.
    + intros _. repeat split; assumption.
Qed.

End Persisting.

Section ReadingBack.
Import GameRepository.

Implicit Types (s : Store) (g : Game.t) (d : Details.t) (now : Date).
Implicit Types (rows : list Named) (links : list Link).

Lemma upsert_link_has l links : l ∈ upsert_link l links.
Proof.
  unfold upsert_link. destruct (existsb (link_eqb l) links) eqn:He.
  - apply existsb_exists in He as (x & Hin & Heq).
    apply list_elem_of_In in Hin. unfold link_eqb in Heq.
    apply andb_true_iff in Heq as [H1 H2].
    apply Z.eqb_eq in H1, H2. destruct l, x. simpl in *. subst. exact Hin.
  - apply elem_of_app. right. left.
Qed.

Lemma upsert_links_has gid (ids : list Z) links i :
  i ∈ ids → mkLink gid i ∈ upsert_links gid ids links.
Proof.
  unfold upsert_links. revert links.
  induction ids as [|j ids IH]; intros links Hi; [inversion Hi|].
  simpl. apply elem_of_cons in Hi as [->|Hi].
  - apply (upsert_links_grows gid ids). apply upsert_link_has.
  - apply IH. exact Hi.
Qed.

Lemma upsert_link_from l0 links l :
  l ∈ upsert_link l0 links → l ∈ links ∨ l = l0.
Proof.
  unfold upsert_link. destruct (existsb _ _); [auto|].
  intros [H|H]%elem_of_app; [auto|].
  apply list_elem_of_singleton in H. auto.
Qed.

Lemma upsert_links_from gid (ids : list Z) links l :
  l ∈ upsert_links gid ids links →
  l ∈ links ∨ (gameId l = gid ∧ targetId l ∈ ids).
Proof.
  unfold upsert_links. revert links.
  induction ids as [|i ids IH]; intros links Hl; [left; exact Hl|].
  simpl in Hl. apply IH in Hl as [Hl|[Hg Ht]].
  - apply upsert_link_from in Hl as [Hl| ->]; [left; exact Hl|].
    right. split; [reflexivity|left].
  - right. split; [exact Hg|right; exact Ht].
Qed.

Lemma named_by_id_Some i rows :
  (∃ r, r ∈ rows ∧ nid r = i) → is_Some (named_by_id i rows).
Proof.
  intros (r & Hr & Hi). unfold named_by_id.
  destruct (List.find (λ x, nid x =? i) rows) as [r'|] eqn:Hf; [eauto|].
  pose proof (proj1 (find_none_all _ _) Hf r Hr) as Hno.
  simpl in Hno. apply Z.eqb_neq in Hno. contradiction.
Qed.

(** With every join row pointing to a lookup row, the names of a game can
    be read. *)
Lemma names_of_Some g links rows :
  references links rows → is_Some (names_of g links rows).
Proof.
  intros Href. unfold names_of. apply mapM_is_Some, Forall_forall.
  intros l [_ Hl]%list_elem_of_filter. unfold compose.
  destruct (named_by_id_Some (targetId l) rows (Href l Hl)) as [r ->].
  eauto.
Qed.

(** A name is read back through a link when the lookup table holds it
    under the linked id and ids are unique. *)
Lemma names_of_has g links rows names n i r :
  unique_named rows → names_of g links rows = Some names →
  mkLink (Game.id g) i ∈ links →
  r ∈ rows → ntext r = n → nid r = i →
  n ∈ names.
Proof.
  intros Hnd Hnames Hl Hr Ht Hi. unfold names_of in Hnames.
  apply mapM_Some in Hnames.
  assert (mkLink (Game.id g) i ∈ filter (λ l, gameId l = Game.id g) links)
    as Hin by (apply list_elem_of_filter; split; [reflexivity|exact Hl]).
  apply list_elem_of_lookup_1 in Hin as [k Hk].
  destruct (Forall2_lookup_l _ _ _ _ _ Hnames Hk) as (y & Hy & Hread).
  apply (list_elem_of_lookup_2 _ k). rewrite Hy. f_equal.
  simpl in Hread. unfold named_by_id in Hread.
  destruct (List.find (λ x, nid x =? i) rows) as [r'|] eqn:Hf;
    [|discriminate Hread].
  apply find_holds in Hf as [Hp Hin]. apply Z.eqb_eq in Hp.
  assert (r' = r) as ->.
  { apply (unique_row nid rows); [exact Hnd|exact Hin|exact Hr|congruence]. }
  simpl in Hread. congruence.
Qed.

(** The lookups and links of a payload keep the join table pointing into
    the lookup table, and what the payload names can be read back. *)
Lemma payload_names_read_back gid g (names : list string) rows links :
  unique_named rows → references links rows → Game.id g = gid →
  let r := findOrCreate_all names rows in
  references (upsert_links gid r.1 links) r.2
  ∧ ∀ texts, names_of g (upsert_links gid r.1 links) r.2 = Some texts →
             ∀ n, n ∈ names → n ∈ texts.
Proof.
  intros Hnd Href Hid r. unfold r.
  destruct (findOrCreate_all names rows) as [ids rows'] eqn:Hf.
  destruct (findOrCreate_all_spec _ _ _ _ Hf) as ([extra ->] & Hall & Hnd').
  cbn [fst snd]. split.
  - intros l [Hl|[_ Ht]]%upsert_links_from.
    + destruct (Href l Hl) as (x & Hx & Hxi). exists x.
      split; [apply elem_of_app; left; exact Hx|exact Hxi].
    + apply list_elem_of_lookup_1 in Ht as [k Hk].
      destruct (Forall2_lookup_r _ _ _ _ _ Hall Hk) as (n & _ & x & Hx & _ & Hxi).
      exists x. split; assumption.
  - intros texts Hread n Hn.
    apply list_elem_of_lookup_1 in Hn as [k Hk].
    destruct (Forall2_lookup_l _ _ _ _ _ Hall Hk)
      as (i & Hi & x & Hx & Ht & Hxi).
    apply (names_of_has g (upsert_links gid ids links) (rows ++ extra)
             texts n i x); auto.
    rewrite Hid. apply upsert_links_has.
    exact (list_elem_of_lookup_2 _ _ _ Hi).
Qed.

Lemma entry_of_Some s g :
  consistent s →
  ∃ e, entry_of s g = Some e
       ∧ game e = g
       ∧ names_of g (gameCategories s) (categories s) = Some (categoryNames e)
       ∧ names_of g (gameMechanisms s) (mechanisms s) = Some (mechanismNames e)
       ∧ names_of g (gameFamilies s) (families s) = Some (familyNames e).
Proof.
  intros (Hc & Hm & Hf). unfold entry_of.
  destruct (names_of_Some g _ _ Hc) as [cs ->].
  destruct (names_of_Some g _ _ Hm) as [ms ->].
  destruct (names_of_Some g _ _ Hf) as [fs ->].
  eexists. split; [reflexivity|]. repeat split.
Qed.

(** On a store whose join rows all point to lookup rows, the query returns
    one entry per game. *)
Lemma findAllWithDetails_Ok s :
  consistent s →
  ∃ entries,
    findAllWithDetails s = Ok entries
    ∧ Forall2 (λ g e, entry_of s g = Some e) (games s) entries.
Proof.
  intros Hs. unfold findAllWithDetails.
  destruct (mapM (entry_of s) (games s)) as [entries|] eqn:Hm.
  - exists entries. split; [reflexivity|]. apply mapM_Some, Hm.
  - exfalso. apply mapM_None, Exists_exists in Hm as (g & _ & Hg).
    destruct (entry_of_Some s g Hs) as (e & He & _). congruence.
Qed.

(** X8.  What [updateGameWithAllDetails] stores, [findAllWithDetails()]
    reads back.  On a store whose join rows all point to lookup rows, the
    query after the update returns, with one entry per game; the entry of
    the updated game carries the scalars of the payload, and each category,
    mechanism and family the payload names is among the names of the
    entry. *)
Theorem stored_payload_is_read_back gid d now s g :
  unique_named (categories s) → unique_named (mechanisms s) →
  unique_named (families s) →
  consistent s →
  g ∈ games s → Game.id g = gid →
  let s' := snd (updateGameWithAllDetails gid d now s) in
  ∃ entries e,
    findAllWithDetails s' = Ok entries
    ∧ game <$> entries = games s'
    ∧ e ∈ entries
    ∧ Game.id (game e) = gid
    ∧ Game.name (game e) = Game.name g
    ∧ Game.bggUrl (game e) = Game.bggUrl g
    ∧ Game.weight (game e) = Details.weight d
    ∧ Game.year (game e) = Details.year d
    ∧ Game.scrapedAt (game e) = now
    ∧ (∀ n, n ∈ Details.categories d → n ∈ categoryNames e)
    ∧ (∀ n, n ∈ Details.mechanisms d → n ∈ mechanismNames e)
    ∧ (∀ n, n ∈ Details.families d → n ∈ familyNames e).
Proof.
  intros Uc Um Uf (Rc & Rm & Rf) Hin Hid. cbn zeta.
  rewrite updateGameWithAllDetails_eq.
  pose proof (lookups_frame d s) as (Hg & Hc & Hm & Hf).
  pose proof (lookups_tables d s) as (Tc & Tm & Tf & _).
  destruct (lookups d s) as [[[[lang cs] ms] fs] s1].
  cbn [fst snd] in *.
  assert (existsb (has_id gid) (games s1) = true) as He.
  { rewrite Hg. apply existsb_has_id. exists g. split; assumption. }
  rewrite He. cbn [negb snd].
  set (g' := write_details d lang now g).
  set (s2 := community_upserts _ _ _ _).
  assert (g' ∈ games s2) as Hin'.
  { unfold s2. cbn [games community_upserts]. rewrite Hg.
    apply list_elem_of_fmap. exists g. split; [|exact Hin].
    unfold has_id. rewrite (proj2 (Z.eqb_eq _ _) Hid). reflexivity. }
  assert (Game.id g' = gid) as Hid' by exact Hid.
  pose proof (payload_names_read_back gid g' (Details.categories d)
                (categories s) (gameCategories s) Uc Rc Hid') as [Pc Nc].
  pose proof (payload_names_read_back gid g' (Details.mechanisms d)
                (mechanisms s) (gameMechanisms s) Um Rm Hid') as [Pm Nm].
  pose proof (payload_names_read_back gid g' (Details.families d)
                (families s) (gameFamilies s) Uf Rf Hid') as [Pf Nf].
  rewrite <- Tc in Pc, Nc. rewrite <- Tm in Pm, Nm. rewrite <- Tf in Pf, Nf.
  cbn [fst snd] in Pc, Pm, Pf, Nc, Nm, Nf.
  rewrite <- Hc in Pc, Nc. rewrite <- Hm in Pm, Nm. rewrite <- Hf in Pf, Nf.
  assert (consistent s2) as Hs2 by (repeat split; assumption).
  destruct (findAllWithDetails_Ok s2 Hs2) as (entries & Hread & Hall).
  assert (game <$> entries = games s2) as Hgames.
  { clear -Hall Hs2. induction Hall as [|x e l k Hx _ IH]; [reflexivity|].
    rewrite fmap_cons, IH. f_equal.
    destruct (entry_of_Some s2 x Hs2) as (e' & He' & Hgame & _). congruence. }
  apply list_elem_of_lookup_1 in Hin' as [k Hk].
  destruct (Forall2_lookup_l _ _ _ _ _ Hall Hk) as (e & He_k & Hentry).
  destruct (entry_of_Some s2 g' Hs2) as (e' & He' & Hgame & Ec & Em & Ef).
  assert (e' = e) as -> by congruence.
  exists entries, e. split; [exact Hread|]. split; [exact Hgames|].
  split; [exact (list_elem_of_lookup_2 _ _ _ He_k)|].
  rewrite Hgame. split; [exact Hid|]. repeat (split; [reflexivity|]).
  split; [exact (Nc _ Ec)|]. split; [exact (Nm _ Em)|exact (Nf _ Ef)].
Qed.

(** On [five_items] two join rows point to a category that is not there,
    and the query is rejected. *)
Example dangling_link_rejects_the_read :
  ¬ consistent five_items
  ∧ ∃ e, findAllWithDetails five_items = Throw e.
Proof.
  split; [|eexists; vm_compute; reflexivity].
  intros (Hc & _). destruct (Hc (mkLink 4 1)) as (r & Hr & _); [left|].
  inversion Hr.
Qed.

End ReadingBack.

(** ** Community data: upserts by compound key *)

(** Both community tables are written by the same scheme, an [upsert]
    addressed by a compound key; what follows from the scheme is proved
    once. *)
Section KeyedUpsert.
Context {A R K : Type}.
Context (key : A → K) (rkey : R → K) (row : R → A) (same : R → A → bool).
Context (U : R → list A → list A).
Context (same_key : ∀ r x, same r x = true ↔ key x = rkey r).
Context (row_key : ∀ r, key (row r) = rkey r).
Context (U_eq : ∀ r rows,
  U r rows
  = if existsb (same r) rows
    then (λ x, if same r x then row r else x) <$> rows
    else rows ++ [row r]).

Lemma keyed_has r rows : row r ∈ U r rows.
Proof.
  rewrite U_eq. destruct (existsb (same r) rows) eqn:He.
  - apply existsb_exists in He as (x & Hin & Hs).
    apply list_elem_of_fmap. exists x.
    split; [rewrite Hs; reflexivity|apply list_elem_of_In; exact Hin].
  - apply elem_of_app. right. left.
Qed.

Lemma keyed_only r rows x :
  x ∈ U r rows → key x = rkey r → x = row r.
Proof.
  rewrite U_eq. destruct (existsb (same r) rows) eqn:He; intros Hx Hk.
  - apply list_elem_of_fmap in Hx as (y & -> & Hy).
    destruct (same r y) eqn:Hs; [reflexivity|].
    apply same_key in Hk. congruence.
  - apply elem_of_app in Hx as [Hx|Hx].
    + apply same_key in Hk.
      assert (existsb (same r) rows = true) as He'.
      { apply existsb_exists. exists x.
        split; [apply list_elem_of_In; exact Hx|exact Hk]. }
      congruence.
    + apply list_elem_of_singleton in Hx. exact Hx.
Qed.

Lemma keyed_keys r rows :
  key <$> U r rows = key <$> rows
  ∨ (key <$> U r rows = (key <$> rows) ++ [rkey r] ∧ rkey r ∉ key <$> rows).
Proof.
  rewrite U_eq. destruct (existsb (same r) rows) eqn:He.
  - left. rewrite <- list_fmap_compose. apply list_fmap_ext.
    intros i x _. unfold compose.
    destruct (same r x) eqn:Hs; [|reflexivity].
    rewrite row_key. symmetry. apply same_key. exact Hs.
  - right. rewrite fmap_app. simpl. rewrite row_key. split; [reflexivity|].
    intros Hin. apply list_elem_of_fmap in Hin as (x & Hk & Hx).
    assert (existsb (same r) rows = true) as He'.
    { apply existsb_exists. exists x.
      split; [apply list_elem_of_In; exact Hx|].
      apply same_key. symmetry. exact Hk. }
    congruence.
Qed.





(** The key of a row does not change under the in-place half of an
    upsert. *)
Lemma settle_key rs x : key (settle same row rs x) = key x.
Proof.
  unfold settle. revert x. induction rs as [|r rs IH]; intros x; [reflexivity|].
  simpl. rewrite IH. destruct (same r x) eqn:Hs; [|reflexivity].
  rewrite row_key. symmetry. apply same_key. exact Hs.
Qed.

Lemma keyed_fold_present (rs : list R) rows r :
  (r ∈ rs ∨ existsb (same r) rows = true) →
  existsb (same r) (foldl (λ acc r, U r acc) rows rs) = true.
Proof.
  revert rows. induction rs as [|r' rs IH]; intros rows Hor.
  - destruct Hor as [Hr|He]; [inversion Hr|exact He].
  - simpl. apply IH. destruct Hor as [Hr|He].
    + apply elem_of_cons in Hr as [->|Hr]; [right|left; exact Hr].
      apply existsb_exists. exists (row r').
      split; [apply list_elem_of_In, keyed_has|].
      apply same_key, row_key.
    + right. apply existsb_exists in He as (x & Hin & Hs).
      apply list_elem_of_In in Hin. apply same_key in Hs.
      destruct (keyed_keys r' rows) as [Hk|[Hk _]].
      * assert (key x ∈ key <$> U r' rows) as Hin'.
        { rewrite Hk. apply list_elem_of_fmap_2. exact Hin. }
        apply list_elem_of_fmap in Hin' as (y & Hy & Hyin).
        apply existsb_exists. exists y.
        split; [apply list_elem_of_In; exact Hyin|].
        apply same_key. congruence.
      * assert (key x ∈ key <$> U r' rows) as Hin'.
        { rewrite Hk. apply elem_of_app. left.
          apply list_elem_of_fmap_2. exact Hin. }
        apply list_elem_of_fmap in Hin' as (y & Hy & Hyin).
        apply existsb_exists. exists y.
        split; [apply list_elem_of_In; exact Hyin|].
        apply same_key. congruence.
Qed.

Lemma keyed_fold_in_place (rs : list R) rows :
  (∀ r, r ∈ rs → existsb (same r) rows = true) →
  foldl (λ acc r, U r acc) rows rs = settle same row rs <$> rows.
Proof.
  revert rows. induction rs as [|r rs IH]; intros rows Hall.
  - simpl. unfold settle. simpl. symmetry. apply list_fmap_id.
  - simpl. rewrite U_eq, (Hall r) by left. rewrite IH.
    + rewrite <- list_fmap_compose. reflexivity.
    + intros r' Hr'. specialize (Hall r' (list_elem_of_further _ _ _ Hr')).
      apply existsb_exists in Hall as (x & Hin & Hs).
      apply existsb_exists. exists (if same r x then row r else x). split.
      * apply list_elem_of_In, list_elem_of_fmap. exists x.
        split; [reflexivity|apply list_elem_of_In; exact Hin].
      * apply same_key. apply same_key in Hs.
        destruct (same r x) eqn:Hrx; [|exact Hs].
        rewrite row_key, <- Hs. symmetry. apply same_key. exact Hrx.
Qed.

Lemma keyed_fold_settled (rs : list R) rows x :
  x ∈ foldl (λ acc r, U r acc) rows rs → settle same row rs x = x.
Proof.
  revert x. induction rs as [|r rs IH] using rev_ind; intros x Hx;
    [reflexivity|].
  rewrite foldl_snoc in Hx. unfold settle. rewrite foldl_snoc.
  fold (settle same row rs x).
  destruct (same r (settle same row rs x)) eqn:Hs.
  - symmetry. apply (keyed_only r _ x Hx).
    apply same_key in Hs. rewrite settle_key in Hs. exact Hs.
  - rewrite U_eq in Hx.
    destruct (existsb (same r) (foldl (λ acc r0, U r0 acc) rows rs)).
    + apply list_elem_of_fmap in Hx as (y & -> & Hy).
      destruct (same r y) eqn:Hy'.
      * assert (same r (settle same row rs (row r)) = true) as Hc.
        { apply same_key. rewrite settle_key. apply row_key. }
        congruence.
      * apply IH. exact Hy.
    + apply elem_of_app in Hx as [Hx|Hx]; [apply IH; exact Hx|].
      apply list_elem_of_singleton in Hx. subst x.
      assert (same r (settle same row rs (row r)) = true) as Hc.
      { apply same_key. rewrite settle_key. apply row_key. }
      congruence.
Qed.

(** Going through the same upserts a second time changes nothing. *)
Lemma keyed_fold_idempotent (rs : list R) rows :
  let F := foldl (λ acc r, U r acc) in
  F (F rows rs) rs = F rows rs.
Proof.
  cbn zeta. rewrite keyed_fold_in_place.
  - etransitivity; [|apply list_fmap_id].
    apply list_fmap_ext. intros i x Hx.
    apply (keyed_fold_settled rs rows). exact (list_elem_of_lookup_2 _ _ _ Hx).
  - intros r Hr. apply keyed_fold_present. left. exact Hr.
Qed.

End KeyedUpsert.

Section Community.
Import GameRepository.

Implicit Types (s : Store) (prs : list Details.playerRating).
Implicit Types (ars : list Details.ageRating).

Lemma pair_eqb (a b c e : Z) :
  (a =? c) && (b =? e) = true ↔ (a, b) = (c, e).
Proof.
  rewrite andb_true_iff, !Z.eqb_eq. split; [intros [-> ->]; reflexivity|].
  intros [= -> ->]. split; reflexivity.
Qed.



Lemma player_fold_idempotent gid prs (rows : list PlayerRating) :
  let F := foldl (λ acc r, upsert_playerRating gid r acc) in
  F (F rows prs) prs = F rows prs.
Proof.
  apply (keyed_fold_idempotent pr_key (λ r, (gid, Details.playerCount r))
           (pr_row gid)
           (λ r x, (pr_gameId x =? gid) && (playerCount x =? Details.playerCount r))).
  - intros r x. apply pair_eqb.
  - reflexivity.
  - reflexivity.
Qed.

Lemma age_fold_idempotent gid ars (rows : list AgeRating) :
  let F := foldl (λ acc r, upsert_ageRating gid r acc) in
  F (F rows ars) ars = F rows ars.
Proof.
  apply (keyed_fold_idempotent ar_key (λ r, (gid, Details.age r)) (ar_row gid)
           (λ r x, (ar_gameId x =? gid) && (age x =? Details.age r))).
  - intros r x. apply pair_eqb.
  - reflexivity.
  - reflexivity.
Qed.


End Community.

(** ** Scraping the same page again *)

Section Repeating.
Import GameRepository.

Implicit Types (s : Store) (g : Game.t) (d : Details.t) (now : Date).
Implicit Types (rows : list Named) (links : list Link).

Lemma upsert_named_found text rows r :
  List.find (λ x, bool_decide (ntext x = text)) rows = Some r →
  upsert_named text rows = (r, rows).
Proof. intros Hf. unfold upsert_named. rewrite Hf. reflexivity. Qed.

Lemma findOrCreate_all_settled (names : list string) rows ids rows' :
  findOrCreate_all names rows = (ids, rows') →
  ∀ rows2,
    (∀ t x, List.find (λ x, bool_decide (ntext x = t)) rows' = Some x →
            List.find (λ x, bool_decide (ntext x = t)) rows2 = Some x) →
    findOrCreate_all names rows2 = (ids, rows2).
Proof.
  revert rows ids rows'. induction names as [|n ns IH]; intros rows ids rows'.
  - simpl. intros [= <- <-] rows2 _. reflexivity.
  - simpl. destruct (upsert_named n rows) as [r rows1] eqn:Hu.
    destruct (findOrCreate_all ns rows1) as [ids1 rows3] eqn:Hrec.
    intros [= <- <-] rows2 Hstable.
    destruct (findOrCreate_all_spec _ _ _ _ Hrec) as ([extra Hext] & _ & _).
    pose proof (proj1 (upsert_named_spec _ _ _ _ Hu)) as Hfind.
    rewrite (upsert_named_found n rows2 r).
    + rewrite (IH _ _ _ Hrec rows2 Hstable). reflexivity.
    + apply Hstable. rewrite Hext. apply find_app_l. exact Hfind.
Qed.

Lemma findOrCreate_all_again (names : list string) rows :
  findOrCreate_all names (findOrCreate_all names rows).2
  = findOrCreate_all names rows.
Proof.
  destruct (findOrCreate_all names rows) as [ids rows'] eqn:Hf. simpl.
  apply (findOrCreate_all_settled _ _ _ _ Hf). auto.
Qed.

(** The lookups find on the second pass what they created on the first. *)
Lemma lookups_settled d s s' :
  languageDependences s' = languageDependences (lookups d s).2 →
  categories s' = categories (lookups d s).2 →
  mechanisms s' = mechanisms (lookups d s).2 →
  families s' = families (lookups d s).2 →
  lookups d s' = ((lookups d s).1, s').
Proof.
  destruct s' as [gs' l' c' m' f' gc' gm' gf' p' a'].
  unfold lookups. cbn [languageDependences categories mechanisms families
    games gameCategories gameMechanisms gameFamilies communityPlayerRatings
    communityAgeRatings].
  pose proof (findOrCreate_all_again (Details.categories d) (categories s)) as Hc.
  pose proof (findOrCreate_all_again (Details.mechanisms d) (mechanisms s)) as Hm.
  pose proof (findOrCreate_all_again (Details.families d) (families s)) as Hf.
  destruct (findOrCreate_all (Details.categories d) (categories s)) as [cs cats].
  destruct (findOrCreate_all (Details.mechanisms d) (mechanisms s)) as [ms mechs].
  destruct (findOrCreate_all (Details.families d) (families s)) as [fs fams].
  cbn [fst snd] in Hc, Hm, Hf.
  destruct (Details.languageDependenceText d) as [text|].
  - destruct (bool_decide (text = "")).
    + cbn [fst snd languageDependences categories mechanisms families].
      intros -> -> -> ->. rewrite Hc, Hm, Hf. reflexivity.
    + destruct (upsert_named text (languageDependences s)) as [r langs] eqn:Hu.
      cbn [fst snd languageDependences categories mechanisms families].
      intros -> -> -> ->. rewrite Hc, Hm, Hf.
      rewrite (upsert_named_found text langs r)
        by exact (proj1 (upsert_named_spec _ _ _ _ Hu)).
      reflexivity.
  - cbn [fst snd languageDependences categories mechanisms families].
    intros -> -> -> ->. rewrite Hc, Hm, Hf. reflexivity.
Qed.

Lemma upsert_link_present l links : l ∈ links → upsert_link l links = links.
Proof.
  intros Hin. unfold upsert_link.
  assert (existsb (link_eqb l) links = true) as ->; [|reflexivity].
  apply existsb_exists. exists l.
  split; [apply list_elem_of_In; exact Hin|apply link_eqb_refl].
Qed.

Lemma upsert_links_present gid (ids : list Z) links :
  (∀ i, i ∈ ids → mkLink gid i ∈ links) → upsert_links gid ids links = links.
Proof.
  unfold upsert_links. induction ids as [|i ids IH]; intros Hall; [reflexivity|].
  simpl. rewrite upsert_link_present by (apply Hall; left).
  apply IH. intros j Hj. apply Hall. right. exact Hj.
Qed.

Lemma upsert_links_again gid (ids : list Z) links :
  upsert_links gid ids (upsert_links gid ids links)
  = upsert_links gid ids links.
Proof.
  apply upsert_links_present. intros i Hi. apply upsert_links_has. exact Hi.
Qed.

Lemma written_again gid d lang now now' (gs : list Game.t) :
  (λ g, if has_id gid g then write_details d lang now' g else g)
    <$> ((λ g, if has_id gid g then write_details d lang now g else g) <$> gs)
  = (λ g, if has_id gid g then write_details d lang now' g else g) <$> gs.
Proof.
  rewrite <- list_fmap_compose. apply list_fmap_ext. intros i g _.
  unfold compose. destruct (has_id gid g) eqn:Hg.
  - change (has_id gid (write_details d lang now g)) with (has_id gid g).
    rewrite Hg. reflexivity.
  - rewrite Hg. reflexivity.
Qed.

(** X10.  Storing the same payload for the same game a second time is a
    refresh of [scrapedAt] and nothing more: the result and the store are
    those of storing it once at the later time.  No lookup row, link or
    rating is duplicated by a repeated scrape. *)
Theorem repeated_update_only_refreshes gid d now now' s :
  updateGameWithAllDetails gid d now'
    (snd (updateGameWithAllDetails gid d now s))
  = updateGameWithAllDetails gid d now' s.
Proof.
  rewrite !updateGameWithAllDetails_eq.
  pose proof (lookups_settled d s) as Hsettled.
  destruct (lookups d s) as [[[[lang cs] ms] fs] s1] eqn:Hl.
  cbn [fst snd] in Hsettled.
  destruct (existsb (has_id gid) (games s1)) eqn:He; cbn [negb snd].
  - rewrite Hsettled by reflexivity.
    cbn [games community_upserts languageDependences categories
         mechanisms families gameCategories gameMechanisms gameFamilies
         communityPlayerRatings communityAgeRatings].
    rewrite existsb_has_id_written, He. cbn [negb].
    rewrite written_again, !upsert_links_again.
    unfold community_upserts.
    cbn [games languageDependences categories mechanisms families
         gameCategories gameMechanisms gameFamilies communityPlayerRatings
         communityAgeRatings].
    pose proof (player_fold_idempotent gid (Details.communityPlayerRatings d)
                  (communityPlayerRatings s1)) as Hp.
    pose proof (age_fold_idempotent gid (Details.communityAgeRatings d)
                  (communityAgeRatings s1)) as Ha.
    cbn zeta in Hp, Ha. rewrite Hp, Ha. reflexivity.
  - rewrite Hsettled by reflexivity. rewrite He. reflexivity.
Qed.

End Repeating.

(** ** The rate limiter: backlog, stopping and the dispatch window *)

Section Backlog.
Import RateLimiter.
Context {W T : Type}.

Implicit Types (s : Sys W T) (e : Turn W T) (f : Fn W T).

Lemma find_fst {B} (p : nat) (l : list (nat * B)) :
  List.find (λ x, Nat.eqb (fst x) p) l ≠ None ↔ p ∈ fst <$> l.
Proof.
  split.
  - intros Hne.
    destruct (List.find (λ x, Nat.eqb (fst x) p) l) as [x|] eqn:Hf;
      [|contradiction].
    apply find_holds in Hf as [Hp Hin]. apply Nat.eqb_eq in Hp. subst p.
    apply list_elem_of_fmap_2. exact Hin.
  - intros Hin Hnone. apply list_elem_of_fmap in Hin as (x & -> & Hx).
    pose proof (proj1 (find_none_all _ _) Hnone x Hx) as Hno.
    simpl in Hno. rewrite Nat.eqb_refl in Hno. discriminate.
Qed.

Lemma outcome_of_settled p s :
  outcome_of p s ≠ None ↔ p ∈ fst <$> settled s.
Proof.
  unfold outcome_of. rewrite <- find_fst.
  destruct (List.find _ (settled s)); simpl; split; congruence.
Qed.

(** X11.  [getQueueLength()] is the number of promises handed out and not
    yet dispatched.  In every run of a limiter, followed from [await] to
    [await], no promise is dispatched twice; a promise settles only after
    its operation was dispatched; a dispatched promise that has not settled
    is the one in flight; and a promise whose task is still queued is
    neither dispatched nor settled. *)
Theorem queue_length_is_the_backlog lo hi clock0 (w : W)
    (events : list (Async.Event W T)) :
  let s := Async.run events (Async.boot lo hi clock0 w) in
  getQueueLength (Async.sys s)
  = Z.of_nat (promises (Async.sys s))
    - Z.of_nat (length (dispatched (Async.sys s)))
  ∧ NoDup (fst <$> dispatched (Async.sys s))
  ∧ (∀ p, outcome_of p (Async.sys s) ≠ None →
          p ∈ fst <$> dispatched (Async.sys s))
  ∧ (∀ p, p ∈ fst <$> dispatched (Async.sys s) →
          (outcome_of p (Async.sys s) = None ↔ p ∈ in_flight s))
  ∧ (∀ task, task ∈ queue (limiter (Async.sys s)) →
             outcome_of (promise task) (Async.sys s) = None
             ∧ promise task ∉ fst <$> dispatched (Async.sys s)).
Proof.
  intros s.
  destruct (run_in_order events _ (boot_in_order lo hi clock0 w))
    as (_ & Hfifo & Hset).
  fold s in Hfifo, Hset. unfold fifo in Hfifo.
  unfold settled_then_in_flight in Hset.
  pose proof (NoDup_seq 0 (promises (Async.sys s))) as Hnd.
  rewrite <- Hfifo in Hnd.
  apply NoDup_app in Hnd as (Hnd1 & Hdisj & _).
  pose proof Hnd1 as Hnd2. rewrite <- Hset in Hnd2.
  apply NoDup_app in Hnd2 as (_ & Hdisj2 & _).
  assert (∀ p, outcome_of p (Async.sys s) = None
               ↔ p ∉ fst <$> settled (Async.sys s)) as Hnone.
  { intros p. rewrite <- outcome_of_settled.
    destruct (outcome_of p (Async.sys s)); split; intros H.
    - discriminate H.
    - destruct H. discriminate.
    - intros H'. apply H'. reflexivity.
    - reflexivity. }
  split.
  { unfold getQueueLength. apply (f_equal length) in Hfifo.
    rewrite length_app, !length_fmap, length_seq in Hfifo. lia. }
  split; [exact Hnd1|]. split.
  { intros p Hp. apply outcome_of_settled in Hp.
    rewrite <- Hset. apply elem_of_app. left. exact Hp. }
  split.
  { intros p Hp. rewrite Hnone. rewrite <- Hset in Hp.
    apply elem_of_app in Hp as [Hp|Hp].
    - split; [intros Hn; destruct (Hn Hp)|]. intros Hfl. destruct (Hdisj2 p Hp Hfl).
    - split; [intros _; exact Hp|]. intros _ Hs. exact (Hdisj2 p Hs Hp). }
  intros task Htask.
  assert (promise task ∉ fst <$> dispatched (Async.sys s)) as Hnot.
  { intros Hin. apply (Hdisj _ Hin). apply list_elem_of_fmap_2. exact Htask. }
  split; [|exact Hnot].
  apply Hnone. intros Hin. apply Hnot. rewrite <- Hset.
  apply elem_of_app. left. exact Hin.
Qed.

Lemma iteration_running e s task rest :
  queue (limiter s) = task :: rest →
  running (limiter (iteration e s)) = running (limiter s).
Proof. intros Hq. rewrite (iteration_head e s task rest Hq). reflexivity. Qed.

Lemma loop_stops turns s :
  running (limiter s) = true → stops_when_drained (loop turns s).
Proof.
  revert s. induction turns as [|e turns IH]; intros s Hrun.
  - simpl. destruct (queue (limiter s)) eqn:Hq.
    + intros _. simpl. exact Hq.
    + intros Hstop. congruence.
  - destruct (queue (limiter s)) as [|task rest] eqn:Hq.
    + rewrite loop_done by exact Hq. intros _. simpl. exact Hq.
    + rewrite (loop_cons e turns s task rest Hq). apply IH.
      rewrite (iteration_running e s task rest Hq). exact Hrun.
Qed.

Lemma throttle_stops f turns s :
  stops_when_drained (snd (throttle f turns s)).
Proof.
  unfold throttle, processQueue. cbn [snd].
  destruct (running (limiter (push f s))) eqn:Hrun.
  - simpl. intros Hstop. congruence.
  - simpl. rewrite bool_decide_eq_false_2.
    + apply loop_stops. reflexivity.
    + intros Hnil. apply app_eq_nil in Hnil as [_ Hnil]. discriminate.
Qed.

Lemma run_stops (cmds : list (Cmd W T)) s :
  stops_when_drained s → stops_when_drained (run cmds s).
Proof.
  unfold run. revert s. induction cmds as [|c cmds IH]; intros s Hs;
    [exact Hs|].
  simpl. apply IH. destruct c as [f turns|dt].
  - apply throttle_stops.
  - exact Hs.
Qed.

(** X12.  The dispatcher stops only when it has drained the queue: whenever
    a limiter is not running, nothing is queued, and every promise it has
    handed out has been dispatched and has settled. *)
Theorem dispatcher_stops_only_when_drained lo hi clock0 (w : W)
    (cmds : list (Cmd W T)) :
  let s := run cmds (boot lo hi clock0 w) in
  running (limiter s) = false →
  queue (limiter s) = []
  ∧ getQueueLength s = 0
  ∧ fst <$> dispatched s = seq 0 (promises s)
  ∧ fst <$> settled s = seq 0 (promises s).
Proof.
  intros s Hstop.
  assert (queue (limiter s) = []) as Hq.
  { apply (run_stops cmds (boot lo hi clock0 w)); [|exact Hstop].
    intros _. reflexivity. }
  destruct (run_ordered cmds _ (boot_ordered lo hi clock0 w)) as [Hfifo Hset].
  fold s in Hfifo, Hset. unfold fifo in Hfifo. unfold settled_in_order in Hset.
  rewrite Hq in Hfifo. simpl in Hfifo. rewrite app_nil_r in Hfifo.
  split; [exact Hq|]. split; [unfold getQueueLength; rewrite Hq; reflexivity|].
  split; [exact Hfifo|]. rewrite Hset. exact Hfifo.
Qed.

(** X13.  The window of a dispatch.  The dispatcher never moves the clock
    back; when at least [maxDelay] has passed since the last dispatch it
    does not wait at all; and when it waits, the dispatch comes less than
    [maxDelay] plus one tick of the clock, plus the lateness of the timer,
    after the last one. *)
Theorem dispatch_window e s task rest :
  valid_turn e → interval_ok s →
  queue (limiter s) = task :: rest →
  let t := clock (after_wait e s) in
  dispatched (iteration e s) = dispatched s ++ [(promise task, t)]
  ∧ clock s ≤ t
  ∧ ((maxDelay (limiter s)
      <= inject_Z (clock s - lastRequestTime (limiter s)))%Q → t = clock s)
  ∧ (t = clock s
     ∨ (inject_Z t
        < inject_Z (lastRequestTime (limiter s)) + maxDelay (limiter s) + 1
          + inject_Z (late e))%Q).
Proof.
  intros (Hr0 & Hr1 & Hlate) Hint Hq t.
  split; [rewrite (iteration_head e s task rest Hq); reflexivity|].
  unfold interval_ok in Hint. unfold t, after_wait.
  set (lo := minDelay (limiter s)) in *.
  set (hi := maxDelay (limiter s)) in *.
  set (last_ := lastRequestTime (limiter s)).
  set (jitter := (random e * (hi - lo))%Q).
  assert (0 <= jitter)%Q as Hjit0.
  { apply Qmult_le_0_compat; [exact Hr0|lra]. }
  assert (jitter <= hi - lo)%Q as Hjit1.
  { unfold jitter. rewrite <- (Qmult_1_l (hi - lo)) at 2.
    apply Qmult_le_compat_r; lra. }
  set (x := (lo + jitter - inject_Z (clock s - last_))%Q).
  assert (x == lo + jitter - (inject_Z (clock s) - inject_Z last_))%Q as Hx.
  { unfold x, Z.sub. rewrite inject_Z_plus, inject_Z_opp. reflexivity. }
  assert (inject_Z (clock s - last_)
          == inject_Z (clock s) - inject_Z last_)%Q as Hdt.
  { unfold Z.sub. rewrite inject_Z_plus, inject_Z_opp. reflexivity. }
  pose proof (Q.le_max_r 0 x) as Hmax.
  pose proof (Q.le_max_l 0 x) as Hmax0.
  assert (Qmax 0 x == 0 ∨ Qmax 0 x == x)%Q as Hcases.
  { destruct (Q.max_spec 0 x) as [[_ ->]|[_ ->]]; [right|left]; reflexivity. }
  rewrite Zle_Qle in Hlate. change (inject_Z 0) with 0%Q in Hlate.
  clearbody x jitter lo hi.
  destruct (Qlt_le_dec 0 (Qmax 0 x)) as [Hpos|Hle]; simpl.
  - pose proof (Qle_ceiling (Qmax 0 x)) as Hceil.
    pose proof (Qceiling_lt (Qmax 0 x)) as Hlt.
    unfold Z.sub in Hlt. rewrite inject_Z_plus in Hlt.
    change (inject_Z (- (1))) with (- (1))%Q in Hlt.
    split; [|split].
    + rewrite Zle_Qle, !inject_Z_plus. lra.
    + intros Hlong. exfalso. destruct Hcases as [H0|H0]; lra.
    + right. rewrite !inject_Z_plus. destruct Hcases as [H0|H0]; lra.
  - split; [lia|]. split; [reflexivity|left; reflexivity].
Qed.

End Backlog.

(** ** The launcher: arguments and worker ids *)

Section LaunchArguments.
Import GameRepository Launcher.

Context (parseInt : string → option Z).

Lemma started_reject (msg : string) :
  started [ConsoleError msg; ConsoleError usage; Exit 1] = [].
Proof. reflexivity. Qed.

Lemma launch_accepted (argv : list string) (DEBUG WORKERS : option string)
    (fault failed : option Error) (db : Store) (n : Z) :
  numWorkers_of parseInt (positional argv) WORKERS = inr n →
  started (fst (runParallelScrapers parseInt argv DEBUG WORKERS fault failed db))
  = workerIds n.
Proof.
  intros Hn. unfold runParallelScrapers. fold (positional argv). rewrite Hn.
  destruct (sweep fault db) as [swept db'] eqn:Hs. cbn [fst].
  assert (started swept = []) as Hswept.
  { unfold sweep in Hs. destruct fault.
    - injection Hs as <- _. reflexivity.
    - destruct (releaseAllClaimedGames db). injection Hs as <- _. reflexivity. }
  change (started (?a :: ?b :: ?l)) with (started l).
  rewrite !started_app, Hswept, started_workers, started_join, app_nil_r.
  reflexivity.
Qed.

Lemma launch_rejected (argv : list string) (DEBUG WORKERS : option string)
    (fault failed : option Error) (db : Store) (msg : string) :
  numWorkers_of parseInt (positional argv) WORKERS
  = inl [ConsoleError msg; ConsoleError usage; Exit 1] →
  runParallelScrapers parseInt argv DEBUG WORKERS fault failed db
  = ([ConsoleError msg; ConsoleError usage; Exit 1], db).
Proof.
  intros Hn. unfold runParallelScrapers. fold (positional argv). rewrite Hn.
  reflexivity.
Qed.

(** X14.  The launcher checks the number of workers on the command line
    only.  A single positional argument starts that many workers when it is
    a number from 1 to 20, and otherwise, like two or more arguments, ends
    in [exit(1)] with nothing started and the store untouched; a number
    taken from the [WORKERS] variable is used as it is, whatever it is. *)
Theorem worker_count_is_checked_on_the_command_line_only
    (argv : list string) (DEBUG WORKERS : option string)
    (fault failed : option Error) (db : Store) :
  let r := runParallelScrapers parseInt argv DEBUG WORKERS fault failed db in
  (∀ a n, positional argv = [a] → parseInt a = Some n → 1 ≤ n ≤ 20 →
     started (fst r) = workerIds n)
  ∧ (∀ a, positional argv = [a] →
       parseInt a = None ∨ (∃ n, parseInt a = Some n ∧ (n < 1 ∨ 20 < n)) →
       started (fst r) = [] ∧ snd r = db ∧ last (fst r) = Some (Exit 1))
  ∧ ((2 ≤ length (positional argv))%nat →
     started (fst r) = [] ∧ snd r = db ∧ last (fst r) = Some (Exit 1))
  ∧ (∀ text n, positional argv = [] → WORKERS = Some text → text ≠ "" →
       parseInt text = Some n → n ≠ 0 →
       started (fst r) = workerIds n).
Proof.
  cbn zeta. split; [|split; [|split]].
  - intros a n Ha Hp Hn. apply launch_accepted. rewrite Ha. simpl. rewrite Hp.
    destruct (Z.ltb_spec n 1); [lia|]. destruct (Z.ltb_spec 20 n); [lia|].
    reflexivity.
  - intros a Ha Hbad.
    rewrite (launch_rejected argv DEBUG WORKERS fault failed db
               "Number of workers must be between 1 and 20").
    + repeat split.
    + rewrite Ha. simpl. destruct Hbad as [->|(n & -> & Hn)]; [reflexivity|].
      destruct (Z.ltb_spec n 1); [reflexivity|].
      destruct (Z.ltb_spec 20 n); [reflexivity|lia].
  - intros Hlen.
    rewrite (launch_rejected argv DEBUG WORKERS fault failed db
               "Too many arguments").
    + repeat split.
    + destruct (positional argv) as [|a [|b l]]; simpl in Hlen; try lia.
      reflexivity.
  - intros text n Ha -> Htext Hp Hn. apply launch_accepted. rewrite Ha. simpl.
    rewrite bool_decide_eq_false_2 by exact Htext. rewrite Hp.
    destruct (Z.eqb_spec n 0); [contradiction|reflexivity].
Qed.

Lemma worker_id_inj (i j : nat) :
  "worker-" +:+ pretty (S i) = "worker-" +:+ pretty (S j) → i = j.
Proof.
  intros H. simpl in H. injection H as H.
  change (pretty (S i) = pretty (S j)) in H.
  apply (inj pretty) in H. lia.
Qed.

(** X15.  The ids the launcher gives its workers are pairwise distinct, as
    many as asked for, and each starts with [worker-], which is what makes
    the worker process take its argument for a worker id; so no two workers
    of a launch share the leases of one id. *)
Theorem worker_ids_are_distinct (numWorkers : Z) :
  NoDup (workerIds numWorkers)
  ∧ length (workerIds numWorkers) = Z.to_nat numWorkers
  ∧ ∀ workerId, workerId ∈ workerIds numWorkers →
      String.prefix "worker-" workerId = true.
Proof.
  unfold workerIds. split; [|split].
  - apply NoDup_fmap_2_strong; [|apply NoDup_seq].
    intros i j _ _. apply worker_id_inj.
  - rewrite length_fmap, length_seq. reflexivity.
  - intros workerId Hin. apply list_elem_of_fmap in Hin as (i & -> & _).
    unfold String.app. simpl. destruct (pretty (S i)); reflexivity.
Qed.

End LaunchArguments.

(** ** The worker: single-game mode and pacing *)

Section WorkerModes.
Import GameRepository RateLimiter DetailScraper.

Context (browser : Game.pick → Result Details.t).
Context (timing : nat → Q * Z * Z).
Context (workerId : string) (batchSize : nat).

Implicit Types (s : State) (st : Store) (game : Game.pick).

(** X16.  With a game id the worker takes no lease and does not go through
    its limiter: whatever the browser does, the run returns, the leases are
    those a release of the worker's own leaves, and nothing was dispatched.
    An unknown id is logged and the run succeeds; a failure of the browser
    is logged and rethrown, with the store as it was. *)
Theorem single_game_mode_takes_no_lease (gid : Z) fuel s :
  gid ≠ 0 →
  let st := releaseClaimedGames workerId (store (world s)) in
  ∃ r s',
    scrapeGameDetails browser timing (Ok tt) workerId batchSize (Some gid)
      fuel s
    = Some (r, s')
    ∧ owners (store (world s')) = owners st
    ∧ dispatched s' = dispatched s ∧ promises s' = promises s
    ∧ (findById gid st = None →
       r = Ok tt ∧ store (world s') = st
       ∧ log (world s') = log (world s) ++ [GameNotFound gid])
    ∧ (∀ game e, findById gid st = Some game → browser game = Throw e →
         r = Throw e ∧ store (world s') = st
         ∧ WorkerError workerId e ∈ log (world s')).
Proof.
  intros Hgid st. unfold scrapeGameDetails, try_body.
  rewrite (proj2 (Z.eqb_neq gid 0) Hgid).
  change (store (world (on_store (releaseClaimedGames workerId) s))) with st.
  pose proof (proj1 (release_worker_idempotent workerId (store (world s))))
    as Hidem. fold st in Hidem.
  destruct (findById gid st) as [game|] eqn:Hfind.
  - pose proof (scrape_frame browser game
                  (clock (on_store (releaseClaimedGames workerId) s))
                  (world (on_store (releaseClaimedGames workerId) s)))
      as (Hown & _ & Hfail).
    destruct (scrapeGameDetailPage browser game _ _) as [r w] eqn:Hscrape.
    cbn [fst snd] in Hown, Hfail.
    change (store (world (on_store (releaseClaimedGames workerId) s)))
      with st in Hown, Hfail.
    eexists. eexists. split; [reflexivity|].
    split.
    { destruct r;
        change (owners (releaseClaimedGames workerId (store w)) = owners st);
        rewrite owners_release, Hown, <- owners_release, Hidem; reflexivity. }
    split; [destruct r; reflexivity|]. split; [destruct r; reflexivity|].
    split; [discriminate|].
    intros game' e [= <-] Hb. destruct (Hfail e Hb) as [-> Hst].
    split; [reflexivity|]. split.
    + change (releaseClaimedGames workerId (store w) = st).
      rewrite Hst. exact Hidem.
    + cbn. apply elem_of_app. right. left.
  - eexists. eexists. split; [reflexivity|].
    split.
    { change (owners (releaseClaimedGames workerId st) = owners st).
      rewrite Hidem. reflexivity. }
    split; [reflexivity|]. split; [reflexivity|]. split.
    + intros _. split; [reflexivity|]. split; [exact Hidem|reflexivity].
    + discriminate.
Qed.

Lemma valid_turn_for p :
  valid_timing (timing p) → valid_turn (turn_for timing p : Turn World unit).
Proof.
  unfold valid_timing, valid_turn, turn_for.
  destruct (timing p) as [[r l] d]. simpl. tauto.
Qed.

Lemma throttle_paced (f : Fn World unit) turns s :
  Forall valid_turn turns → well_paced s →
  well_paced (snd (throttle f turns s)).
Proof.
  apply (throttle_preserved well_paced valid_turn).
  - intros f' s' H. exact H.
  - intros b s' H. exact H.
  - apply iteration_paced.
Qed.

(** What one awaited [throttle] of an idle worker adds: one dispatch, and
    the pacing and the delays are kept. *)
Lemma await_dispatch (f : Fn World unit) s :
  idle s →
  let s1 := snd (throttle f [turn_for timing (promises s)] s) in
  length (dispatched s1) = S (length (dispatched s))
  ∧ minDelay (limiter s1) = minDelay (limiter s)
  ∧ (valid_timing (timing (promises s)) → well_paced s → well_paced s1).
Proof.
  intros (Hrun & Hq & _) s1. split; [|split].
  - unfold s1.
    rewrite (throttle_idle f _ s Hrun Hq (turn_for_quiet timing (promises s))).
    cbn [snd dispatched]. rewrite length_app. simpl. lia.
  - unfold s1.
    rewrite (throttle_idle f _ s Hrun Hq (turn_for_quiet timing (promises s))).
    reflexivity.
  - intros Hv Hp. apply throttle_paced; [|exact Hp].
    constructor; [apply valid_turn_for, Hv|constructor].
Qed.

Lemma process_batch_dispatches (batch : list Game.pick) total s total' s' :
  idle s →
  process_batch browser timing workerId batch total s = Some (total', s') →
  length (dispatched s') = (length (dispatched s) + length batch)%nat
  ∧ minDelay (limiter s') = minDelay (limiter s)
  ∧ ((∀ p, valid_timing (timing p)) → well_paced s → well_paced s').
Proof.
  revert total s. induction batch as [|game batch IH]; intros total s Hidle.
  - simpl. intros [= <- <-]. split; [lia|]. split; [reflexivity|tauto].
  - cbn [process_batch].
    destruct (await_throttle timing (scrapeGameDetailPage browser game) s Hidle)
      as (t & s1 & Hth & Hout & _ & Hidle1).
    pose proof (await_dispatch (scrapeGameDetailPage browser game) s Hidle)
      as (Hlen & Hmin & Hpaced).
    rewrite Hth in Hlen, Hmin, Hpaced |- *. cbn [snd] in Hlen, Hmin, Hpaced.
    rewrite Hout.
    destruct (fst (scrapeGameDetailPage browser game t (world s))) as [[]|e];
      intros Hrun; apply IH in Hrun as (Hlen' & Hmin' & Hpaced');
      try (apply logline_idle; exact Hidle1);
      (split; [|split]);
      try (rewrite Hlen'; cbn [dispatched logline]; rewrite Hlen; simpl; lia);
      try (rewrite Hmin'; exact Hmin);
      intros Hv Hp; apply Hpaced'; try exact Hv;
      apply (Hpaced (Hv _) Hp).
Qed.

Lemma batches_dispatches fuel total batchCount s total' s' :
  idle s →
  batches browser timing workerId batchSize fuel total batchCount s
  = Some (total', s') →
  (∃ k, length (dispatched s') = (length (dispatched s) + k)%nat
        ∧ length (verdicts s') = (length (verdicts s) + k)%nat)
  ∧ minDelay (limiter s') = minDelay (limiter s)
  ∧ ((∀ p, valid_timing (timing p)) → well_paced s → well_paced s').
Proof.
  revert total batchCount s.
  induction fuel as [|fuel IH]; intros total batchCount s Hidle;
    [discriminate|].
  cbn [batches].
  destruct (claimGamesForProcessing workerId batchSize (clock s)
              (store (world s))) as [found db].
  destruct found as [|game found].
  - intros [= <- <-]. split; [|split; [reflexivity|tauto]].
    exists 0%nat. unfold verdicts. cbn. rewrite omap_app. simpl.
    rewrite app_nil_r. split; lia.
  - set (s2 := logline _ (on_store _ s)).
    assert (idle s2) as Hidle2 by exact Hidle.
    destruct (process_batch_spec browser timing workerId (game :: found) total
                s2 Hidle2)
      as (total1 & s3 & Hrun & Hidle3 & _ & (lines & Hlog & Hlines) & _).
    rewrite Hrun.
    destruct (process_batch_dispatches _ _ _ _ _ Hidle2 Hrun)
      as (Hlen & Hmin & Hpaced).
    intros Hrest.
    apply (IH total1 (S batchCount) (pause s3)) in Hrest
      as ((k & Hk1 & Hk2) & Hmin' & Hpaced'); [|exact Hidle3].
    split; [|split].
    + exists (length (game :: found) + k)%nat. split.
      * rewrite Hk1. change (dispatched (pause s3)) with (dispatched s3).
        rewrite Hlen. change (dispatched s2) with (dispatched s). lia.
      * rewrite Hk2. unfold verdicts.
        change (log (world (pause s3))) with (log (world s3)).
        rewrite Hlog, omap_app, Hlines, length_app, length_fmap.
        change (log (world s2))
          with (log (world s) ++ [BatchStart (S batchCount) (length (game :: found))]).
        rewrite omap_app. simpl. rewrite app_nil_r. lia.
    + rewrite Hmin'. change (limiter (pause s3)) with (limiter s3).
      rewrite Hmin. reflexivity.
    + intros Hv Hp. apply (Hpaced' Hv). apply (Hpaced Hv). exact Hp.
Qed.

Lemma worker_returns fuel s :
  idle s → unique_ids (store (world s)) →
  (length (games (store (world s))) < fuel)%nat →
  ∃ total s2,
    batches browser timing workerId batchSize fuel 0 0
      (logline (Starting workerId) (on_store (releaseClaimedGames workerId) s))
    = Some (total, s2)
    ∧ scrapeGameDetails browser timing (Ok tt) workerId batchSize None fuel s
      = Some (Ok tt,
              on_store (releaseClaimedGames workerId)
                (logline (WorkerCompleted workerId total) s2))
    ∧ owners (releaseClaimedGames workerId (store (world s2)))
      = owners (releaseClaimedGames workerId (store (world s))).
Proof.
  intros Hidle Hnd Hfuel.
  unfold scrapeGameDetails, try_body.
  set (s1 := logline _ (on_store _ s)).
  assert (store (world s1) = releaseClaimedGames workerId (store (world s)))
    as Hs1 by reflexivity.
  assert (idle s1) as Hidle1 by exact Hidle.
  assert (unique_ids (store (world s1))) as Hnd1.
  { apply unique_ids_owners. rewrite Hs1, owners_release.
    rewrite <- list_fmap_compose. apply unique_ids_owners in Hnd.
    exact Hnd. }
  assert (free (store (world s1)) < fuel)%nat as Hfree.
  { pose proof (free_le_length (store (world s1))) as Hle.
    rewrite Hs1 in Hle at 2. unfold releaseClaimedGames, updateMany in Hle.
    cbn [games set_games] in Hle. rewrite length_fmap in Hle. lia. }
  destruct (batches_return browser timing workerId batchSize fuel 0%nat 0%nat
              s1 Hidle1 Hnd1 Hfree)
    as (total' & s2 & Hrun & _ & Hrel).
  exists total', s2. rewrite Hrun. split; [reflexivity|].
  split; [reflexivity|].
  rewrite Hrel, Hs1.
  rewrite (proj1 (release_worker_idempotent workerId (store (world s)))).
  reflexivity.
Qed.

(** X17.  A worker paces its page loads for the whole of its run, across
    batches: started on any store with unique ids, the run returns, it has
    made exactly one dispatch per verdict it logged, and when the timers do
    not fire early any two consecutive dispatches lie at least 2000 ms
    apart. *)
Theorem worker_paces_its_page_loads fuel clock0 (db : Store) :
  unique_ids db → (length (games db) < fuel)%nat →
  ∃ s',
    scrapeGameDetails browser timing (Ok tt) workerId batchSize None fuel
      (start clock0 db)
    = Some (Ok tt, s')
    ∧ length (dispatched s') = length (omap verdict_name (log (world s')))
    ∧ ((∀ p, valid_timing (timing p)) → paced 2000 (snd <$> dispatched s')).
Proof.
  intros Hnd Hfuel.
  assert (idle (start clock0 db)) as Hidle.
  { repeat split. }
  destruct (worker_returns fuel (start clock0 db) Hidle Hnd Hfuel)
    as (total & s2 & Hb & Hrun & _).
  eexists. split; [exact Hrun|].
  apply batches_dispatches in Hb as ((k & Hk1 & Hk2) & Hmin & Hpaced);
    [|exact Hidle].
  cbn [dispatched on_store logline world log].
  split.
  - rewrite omap_app. simpl. rewrite app_nil_r.
    fold (verdicts s2). rewrite Hk1, Hk2. reflexivity.
  - intros Hv.
    assert (well_paced s2) as [[Hp _] _].
    { apply (Hpaced Hv). apply (boot_paced (T := unit)). discriminate. }
    rewrite Hmin in Hp. exact Hp.
Qed.

End WorkerModes.

(** ** The worker process *)

Section WorkerProcess.
Import GameRepository RateLimiter DetailScraper DetailMain.

Context (parseInt : string → option Z).
Context (browser : Game.pick → Result Details.t).
Context (timing : nat → Q * Z * Z).

Implicit Types (s : State) (st db : Store).

Lemma swept_owners db :
  Forall (λ v, v.2 = None) (owners (snd (releaseAllClaimedGames db))).
Proof.
  unfold releaseAllClaimedGames. cbn [snd]. rewrite owners_updateMany.
  apply Forall_fmap, Forall_forall. intros g _. unfold compose, leased. simpl.
  destruct (Game.processingBy g); reflexivity.
Qed.

Lemma released_owners (w : string) st :
  Forall (λ v, v.2 = None) (owners st) →
  Forall (λ v, v.2 = None) (owners (releaseClaimedGames w st)).
Proof.
  intros Hall. rewrite owners_release. apply Forall_fmap.
  eapply Forall_impl; [exact Hall|]. intros v Hv. unfold compose. simpl.
  rewrite Hv. reflexivity.
Qed.

Lemma swept_unique_ids db :
  unique_ids db → unique_ids (snd (releaseAllClaimedGames db)).
Proof.
  intros Hnd. apply unique_ids_owners. unfold releaseAllClaimedGames.
  cbn [snd]. rewrite owners_updateMany, <- list_fmap_compose.
  exact Hnd.
Qed.

Lemma swept_length db :
  length (games (snd (releaseAllClaimedGames db))) = length (games db).
Proof.
  unfold releaseAllClaimedGames, updateMany. cbn [snd games set_games].
  apply length_fmap.
Qed.

Lemma start_idle clock0 db : idle (start clock0 db).
Proof. repeat split. Qed.

(** X18.  A worker process clears every lease there is before it claims:
    run in worker mode or without arguments, with the cleanup call
    succeeding, it reports the number of leases it found, returns, and
    leaves no row leased, whoever held it when the process started. *)
Theorem worker_process_sweeps_every_lease (argv : list string)
    (DEBUG WORKER_ID : option string) (generated : string) (fuel : nat)
    (clock0 : Date) db :
  (∃ workerId,
     mode_of parseInt (filter (λ arg, arg ≠ "--debug") argv) WORKER_ID
     = WorkerMode workerId)
  ∨ mode_of parseInt (filter (λ arg, arg ≠ "--debug") argv) WORKER_ID
    = AllGames →
  unique_ids db → (length (games db) < fuel)%nat →
  ∃ out s',
    main parseInt browser timing (Ok tt) argv DEBUG WORKER_ID generated None
      fuel clock0 db
    = Some (out, s')
    ∧ Released (count leased db) ∈ out
    ∧ last out = Some CompletedSuccessfully
    ∧ Forall (λ v, v.2 = None) (owners (store (world s'))).
Proof.
  intros Hmode Hnd Hfuel. unfold main. cbn zeta.
  assert (∃ w announce,
            (mode_of parseInt (filter (λ arg, arg ≠ "--debug") argv) WORKER_ID
             = WorkerMode w ∧ announce = [StartingWorker w])
            ∨ (mode_of parseInt (filter (λ arg, arg ≠ "--debug") argv) WORKER_ID
               = AllGames ∧ announce = [ScrapingAll] ∧ w = generated))
    as (w & announce & Hcase).
  { destruct Hmode as [[w Hw]|Ha].
    - exists w, [StartingWorker w]. left. split; [exact Hw|reflexivity].
    - exists generated, [ScrapingAll]. right. repeat split. exact Ha. }
  pose proof (swept_unique_ids db Hnd) as Hnd'.
  pose proof (swept_length db) as Hlen.
  pose proof (swept_owners db) as Hown.
  unfold releaseAllClaimedGames in *. cbn [snd] in Hnd', Hlen, Hown.
  set (db' := updateMany leased None None db) in *.
  assert (length (games (store (world (start clock0 db')))) < fuel)%nat
    as Hfuel'.
  { change (length (games db') < fuel)%nat. lia. }
  destruct (worker_returns browser timing w 5 fuel (start clock0 db')
              (start_idle clock0 db') Hnd' Hfuel')
    as (total & s2 & _ & Hrun & Hrel).
  assert (Forall (λ v, v.2 = None)
            (owners (releaseClaimedGames w (store (world s2))))) as Hfree.
  { rewrite Hrel. apply released_owners. exact Hown. }
  destruct Hcase as [[-> ->]|(-> & -> & ->)]; cbn beta iota; rewrite Hrun;
    eexists; eexists; (split; [reflexivity|]); (split; [|split]).
  - apply elem_of_app. right. apply elem_of_app. right. right. left.
  - rewrite !last_app. reflexivity.
  - exact Hfree.
  - apply elem_of_app. right. apply elem_of_app. right. right. left.
  - rewrite !last_app. reflexivity.
  - exact Hfree.
Qed.

(** X19.  Every process the launcher spawns runs in worker mode under the
    id the launcher gave it: its arguments after the script path, which are
    what [main] reads, start with an id that begins with [worker-]. *)
Theorem spawned_process_is_a_worker (numWorkers : Z) (debugMode : bool)
    (workerId : string) (args : list string) (env : string) :
  workerId ∈ Launcher.workerIds numWorkers →
  Launcher.Spawn args env ∈ Launcher.start_worker false debugMode workerId →
  env = workerId
  ∧ mode_of parseInt (filter (λ arg, arg ≠ "--debug") (drop 1 args)) (Some env)
    = WorkerMode workerId.
Proof.
  intros Hid Hspawn. unfold Launcher.start_worker in Hspawn.
  apply elem_of_cons in Hspawn as [Hs|Hs]; [discriminate|].
  apply list_elem_of_singleton in Hs. injection Hs as -> ->.
  split; [reflexivity|].
  unfold Launcher.workerIds in Hid.
  apply list_elem_of_fmap in Hid as (i & -> & _).
  set (w := "worker-" +:+ pretty (S i)).
  assert (String.prefix "worker-" w = true) as Hprefix.
  { unfold w, String.app. simpl. destruct (pretty (S i)); reflexivity. }
  assert (w ≠ "--debug") as Hnd.
  { unfold w, String.app. simpl. discriminate. }
  assert (w ≠ "") as Hne.
  { unfold w, String.app. simpl. discriminate. }
  assert (filter (λ arg, arg ≠ "--debug")
            (drop 1 ("src/run-detail-scraper.ts"
                       :: w :: (if debugMode then ["--debug"] else [])))
          = [w]) as ->.
  { destruct debugMode; cbn [drop]; rewrite filter_cons, decide_True by exact Hnd.
    - rewrite filter_cons, decide_False by (intros H; apply H; reflexivity).
      reflexivity.
    - reflexivity. }
  unfold mode_of. rewrite Hprefix. cbn [orb].
  rewrite bool_decide_eq_false_2 by exact Hne. reflexivity.
Qed.

End WorkerProcess.

Section SiblingSweep.
Import GameRepository RateLimiter DetailScraper DetailMain.

Context (parseInt : string → option Z).
Context (browser : Game.pick → Result Details.t).
Context (timing : nat → Q * Z * Z).

Implicit Types (s : State) (st db : Store).

Lemma batches_log_grows (workerId : string) (batchSize fuel : nat)
    total batchCount s total' s' :
  idle s →
  batches browser timing workerId batchSize fuel total batchCount s
  = Some (total', s') →
  ∃ extra, log (world s') = log (world s) ++ extra.
Proof.
  revert total batchCount s.
  induction fuel as [|fuel IH]; intros total batchCount s Hidle;
    [discriminate|].
  cbn [batches].
  destruct (claimGamesForProcessing workerId batchSize (clock s)
              (store (world s))) as [found db].
  destruct found as [|game found].
  - intros [= <- <-]. eexists. reflexivity.
  - set (s2 := logline _ (on_store _ s)).
    assert (idle s2) as Hidle2 by exact Hidle.
    destruct (process_batch_spec browser timing workerId (game :: found) total
                s2 Hidle2)
      as (total1 & s3 & Hrun & Hidle3 & _ & (lines & Hlog & _) & _).
    rewrite Hrun. intros Hrest.
    apply (IH total1 (S batchCount) (pause s3)) in Hrest as [extra Hextra];
      [|exact Hidle3].
    rewrite Hextra. change (log (world (pause s3))) with (log (world s3)).
    rewrite Hlog.
    change (log (world s2))
      with (log (world s)
              ++ [BatchStart (S batchCount) (length (game :: found))]).
    rewrite <- !app_assoc. eexists. reflexivity.
Qed.

Lemma release_all_undoes_claim (w : string) (n : nat) (now : Date) st :
  clean st →
  snd (releaseAllClaimedGames (snd (claimGamesForProcessing w n now st))) = st.
Proof.
  intros Hclean. rewrite claim_store. unfold releaseAllClaimedGames. cbn [snd].
  apply lease_then_release; [exact Hclean| |].
  - intros g _. destruct g. reflexivity.
  - intros g Hby _. unfold leased. rewrite Hby. reflexivity.
Qed.

Lemma release_clean (w : string) st :
  clean st → releaseClaimedGames w st = st.
Proof.
  intros Hclean. apply release_worker_idempotent. intros g Hg.
  unfold clean in Hclean. rewrite Forall_forall in Hclean.
  destruct (Hclean g Hg) as [-> _]. discriminate.
Qed.

(** X20.  A worker process that starts while a sibling holds a batch takes
    that batch over.  From a store without leases, let a worker claim its
    batch of 5; a second worker process started then releases those leases
    in its cleanup and claims the same rows, so its first verdicts are on
    the items of the sibling's batch, in the same order. *)
Theorem new_worker_process_retakes_a_sibling_batch (argv : list string)
    (DEBUG WORKER_ID : option string) (generated : string) (fuel : nat)
    (clock0 : Date) (st : Store) (w1 w2 : string) (now1 : Date) :
  clean st → unique_ids st → (length (games st) < fuel)%nat →
  mode_of parseInt (filter (λ arg, arg ≠ "--debug") argv) WORKER_ID
  = WorkerMode w2 →
  let batch := fst (claimGamesForProcessing w1 5 now1 st) in
  let db := snd (claimGamesForProcessing w1 5 now1 st) in
  ∃ out s',
    main parseInt browser timing (Ok tt) argv DEBUG WORKER_ID generated None
      fuel clock0 db
    = Some (out, s')
    ∧ ∃ rest, verdicts s' = (Game.pname <$> batch) ++ rest.
Proof.
  intros Hclean Hnd Hfuel Hmode batch db. unfold main. cbn zeta.
  rewrite Hmode. cbn beta iota.
  pose proof (release_all_undoes_claim w1 5 now1 st Hclean) as Hsw.
  fold db in Hsw.
  destruct (releaseAllClaimedGames db) as [n db'] eqn:Hall.
  cbn [snd] in Hsw. subst db'.
  assert (length (games (store (world (start clock0 st)))) < fuel)%nat
    as Hfuel' by exact Hfuel.
  destruct (worker_returns browser timing w2 5 fuel (start clock0 st)
              (start_idle clock0 st) Hnd Hfuel')
    as (total & s2 & Hb & Hrun & _).
  rewrite Hrun. eexists. eexists. split; [reflexivity|].
  unfold verdicts.
  change (log (world (on_store (releaseClaimedGames w2)
                        (logline (WorkerCompleted w2 total) s2))))
    with (log (world s2) ++ [WorkerCompleted w2 total]).
  rewrite omap_app. simpl. rewrite app_nil_r.
  destruct fuel as [|fuel]; [lia|]. cbn [batches] in Hb.
  change (store (world (logline (Starting w2)
                          (on_store (releaseClaimedGames w2)
                             (start clock0 st)))))
    with (releaseClaimedGames w2 st) in Hb.
  rewrite (release_clean w2 st Hclean) in Hb.
  pose proof (claim_found w2 5
                (clock (logline (Starting w2)
                          (on_store (releaseClaimedGames w2) (start clock0 st))))
                st) as Hfound.
  rewrite <- (claim_found w1 5 now1 st) in Hfound. fold batch in Hfound.
  destruct (claimGamesForProcessing w2 5 _ st) as [found dbc].
  cbn [fst] in Hfound. subst found.
  destruct batch as [|game found].
  - exists []. injection Hb as _ <-. reflexivity.
  - set (s3 := logline (BatchStart 1 _) _) in Hb.
    assert (idle s3) as Hidle3 by (repeat split).
    destruct (process_batch_spec browser timing w2 (game :: found) 0%nat s3
                Hidle3)
      as (total1 & s4 & Hrun4 & Hidle4 & _ & (lines & Hlog & Hlines) & _).
    rewrite Hrun4 in Hb.
    apply batches_log_grows in Hb as [extra Hextra]; [|exact Hidle4].
    change (log (world (pause s4))) with (log (world s4)) in Hextra.
    rewrite Hextra, Hlog, !omap_app, Hlines.
    exists (omap verdict_name extra). reflexivity.
Qed.

End SiblingSweep.

(** ** The list scraper *)

Section Saving.
Import GameRepository RateLimiter ListScraper.

Implicit Types (s : State) (w : World) (st : Store) (item : GameListItem).

Lemma same_other_tables_refl st : same_other_tables st st.
Proof. repeat split. Qed.

Lemma same_other_tables_trans st1 st2 st3 :
  same_other_tables st1 st2 → same_other_tables st2 st3 →
  same_other_tables st1 st3.
Proof.
  unfold same_other_tables.
  intros (A1 & A2 & A3 & A4 & A5 & A6 & A7 & A8 & A9)
         (B1 & B2 & B3 & B4 & B5 & B6 & B7 & B8 & B9).
  repeat split; congruence.
Qed.

Lemma known_stays_known url st st' added :
  games st' = games st ++ added →
  findByBggUrl url st ≠ None → findByBggUrl url st' ≠ None.
Proof.
  unfold findByBggUrl. intros -> Hk.
  destruct (List.find _ (games st)) as [g|] eqn:Hf; [|contradiction].
  rewrite (find_app_l _ _ _ _ Hf). discriminate.
Qed.

(** [saveGame] never fails: a known url is skipped, an unknown one is
    stored as a blank row under a fresh id. *)
Lemma saveGame_spec item now w :
  let r := saveGame item now w in
  fst r = Ok tt ∧ log (snd r) = log w
  ∧ same_other_tables (store w) (store (snd r))
  ∧ ((findByBggUrl (bggUrl item) (store w) ≠ None ∧ snd r = w)
     ∨ (findByBggUrl (bggUrl item) (store w) = None
        ∧ ∃ g, games (store (snd r)) = games (store w) ++ [g]
               ∧ stored_as item g
               ∧ Game.id g = next_game_id (games (store w)))).
Proof.
  cbn zeta. unfold saveGame.
  destruct (findByBggUrl (bggUrl item) (store w)) as [g0|] eqn:Hfind.
  - cbn [fst snd]. split; [reflexivity|]. split; [reflexivity|].
    split; [apply same_other_tables_refl|]. left. split; [discriminate|reflexivity].
  - unfold createGame, create_data.
    cbn [CreateData.languageDependenceText CreateData.bggUrl
         CreateData.categories CreateData.mechanisms CreateData.families
         link_all].
    unfold findByBggUrl in Hfind. apply find_existsb in Hfind. rewrite Hfind.
    cbn [fst snd store log games]. split; [reflexivity|].
    split; [reflexivity|]. split; [repeat split|]. right.
    split; [reflexivity|]. eexists. split; [reflexivity|].
    split; [repeat split|reflexivity].
Qed.

Lemma save_all_spec (items : list GameListItem) now w :
  let r := save_all items now w in
  fst r = Ok tt ∧ log (snd r) = log w
  ∧ same_other_tables (store w) (store (snd r))
  ∧ (∃ added,
       games (store (snd r)) = games (store w) ++ added
       ∧ Forall (λ g, ∃ item, item ∈ items ∧ stored_as item g) added)
  ∧ (∀ item, item ∈ items →
       findByBggUrl (bggUrl item) (store (snd r)) ≠ None)
  ∧ (unique_urls (store w) → unique_urls (store (snd r)))
  ∧ (unique_ids (store w) → unique_ids (store (snd r)))
  ∧ ((∀ item, item ∈ items → findByBggUrl (bggUrl item) (store w) ≠ None) →
     snd r = w).
Proof.
  revert w. induction items as [|item items IH]; intros w.
  - cbn. split; [reflexivity|]. split; [reflexivity|].
    split; [apply same_other_tables_refl|]. split.
    { exists []. rewrite app_nil_r. split; [reflexivity|constructor]. }
    split; [intros item Hin; inversion Hin|]. tauto.
  - cbn zeta. cbn [save_all].
    pose proof (saveGame_spec item now w) as (Hok & Hlog & Hsame & Hcase).
    destruct (saveGame item now w) as [r1 w1]. cbn [fst snd] in *. subst r1.
    destruct (IH w1) as (Hok' & Hlog' & Hsame' & (added' & Hadd' & Hall')
                         & Hknown' & Hurl' & Hid' & Hidem').
    assert (∃ added1, games (store w1) = games (store w) ++ added1
                      ∧ Forall (λ g, ∃ it, it ∈ item :: items ∧ stored_as it g)
                          added1
                      ∧ (unique_urls (store w) → unique_urls (store w1))
                      ∧ (unique_ids (store w) → unique_ids (store w1))
                      ∧ findByBggUrl (bggUrl item) (store w1) ≠ None)
      as (added1 & Hadd1 & Hall1 & Hurl1 & Hid1 & Hk1).
    { destruct Hcase as [[Hk ->]|(Hnone & g & Hg & Hst & Hgid)].
      - exists []. rewrite app_nil_r. split; [reflexivity|].
        split; [constructor|]. tauto.
      - exists [g]. split; [exact Hg|]. split.
        { constructor; [|constructor]. exists item. split; [left|exact Hst]. }
        split; [|split].
        + unfold unique_urls. rewrite Hg, fmap_app. intros Hnd.
          apply NoDup_app. split; [exact Hnd|]. split; [|apply NoDup_singleton].
          intros u Hu Hu'. simpl in Hu'. apply list_elem_of_singleton in Hu'.
          apply list_elem_of_fmap in Hu as (x & -> & Hx).
          unfold findByBggUrl in Hnone.
          pose proof (proj1 (find_none_all _ _) Hnone x Hx) as Hx'.
          apply bool_decide_eq_false in Hx'.
          destruct Hst as (_ & _ & Hu & _). congruence.
        + unfold unique_ids. rewrite Hg, fmap_app. intros Hnd.
          apply NoDup_app. split; [exact Hnd|]. split; [|apply NoDup_singleton].
          intros i Hi Hi'. simpl in Hi'. apply list_elem_of_singleton in Hi'.
          apply list_elem_of_fmap in Hi as (x & -> & Hx).
          pose proof (next_game_id_fresh _ _ Hx). lia.
        + unfold findByBggUrl. rewrite Hg.
          rewrite (find_snoc _ _ g); [discriminate| |].
          * exact Hnone.
          * apply bool_decide_eq_true. apply Hst. }
    split; [exact Hok'|]. split; [congruence|].
    split; [exact (same_other_tables_trans _ _ _ Hsame Hsame')|].
    split.
    { exists (added1 ++ added'). rewrite Hadd', Hadd1, app_assoc.
      split; [reflexivity|]. apply Forall_app. split; [exact Hall1|].
      eapply Forall_impl; [exact Hall'|].
      intros g (it & Hit & Hst). exists it. split; [right; exact Hit|exact Hst]. }
    split.
    { intros it Hit. apply elem_of_cons in Hit as [->|Hit].
      - exact (known_stays_known _ _ _ _ Hadd' Hk1).
      - apply Hknown'. exact Hit. }
    split; [tauto|]. split; [tauto|].
    intros Hall.
    destruct Hcase as [[_ ->]|(Hnone & _)].
    + apply Hidem'. intros it Hit. apply Hall. right. exact Hit.
    + destruct (Hall item). { left. } exact Hnone.
Qed.

End Saving.

Section Listing.
Import GameRepository RateLimiter ListScraper.

Context (listing : Z → Result (list GameListItem)).

Implicit Types (s : State) (w : World) (st : Store) (item : GameListItem).

(** X21.  What [scrapePage] does with a listing: it stores every entry
    whose url is not known yet as a blank row, pending and unleased, behind
    the rows that were there, which it never touches; both unique columns
    stay unique; every listed url is known afterwards, so that scraping the
    page again stores nothing.  When the browser fails, the error is
    rethrown and the store is as it was. *)
Theorem listed_games_are_ingested (pageNumber : Z) now w :
  let r := scrapePage listing pageNumber now w in
  (∀ items, listing pageNumber = Ok items →
     fst r = Ok tt
     ∧ (∃ added,
          games (store (snd r)) = games (store w) ++ added
          ∧ Forall (λ g, (∃ item, item ∈ items ∧ stored_as item g)
                         ∧ available (store (snd r)) g = true) added)
     ∧ same_other_tables (store w) (store (snd r))
     ∧ (∀ item, item ∈ items →
          findByBggUrl (bggUrl item) (store (snd r)) ≠ None)
     ∧ (unique_urls (store w) → unique_urls (store (snd r)))
     ∧ (unique_ids (store w) → unique_ids (store (snd r)))
     ∧ ∀ now', store (snd (scrapePage listing pageNumber now' (snd r)))
               = store (snd r))
  ∧ (∀ e, listing pageNumber = Throw e →
       fst r = Throw e ∧ store (snd r) = store w).
Proof.
  cbn zeta. unfold scrapePage. split.
  - intros items ->.
    set (w0 := match items with
               | [] => mkWorld (store w) (log w ++ [NoGamesFound pageNumber])
               | _ :: _ => w
               end).
    assert (store w0 = store w) as Hw0 by (destruct items; reflexivity).
    pose proof (save_all_spec items now w0)
      as (Hok & _ & Hsame & (added & Hadd & Hall) & Hknown & Hurl & Hid & _).
    destruct (save_all items now w0) as [r1 w1] eqn:Hsave.
    cbn [fst snd] in *. subst r1. cbn [fst snd]. rewrite Hw0 in *.
    split; [reflexivity|]. split.
    { exists added. split; [exact Hadd|].
      eapply Forall_impl; [exact Hall|]. intros g Hg. split; [exact Hg|].
      destruct Hg as (it & _ & _ & _ & _ & Hw & _ & Hby & _).
      unfold available, needs_details. rewrite Hby, Hw. reflexivity. }
    split; [exact Hsame|]. split; [exact Hknown|].
    split; [exact Hurl|]. split; [exact Hid|].
    intros now'.
    set (w2 := match items with
               | [] => mkWorld (store w1) (log w1 ++ [NoGamesFound pageNumber])
               | _ :: _ => w1
               end).
    assert (store w2 = store w1) as Hw2 by (destruct items; reflexivity).
    pose proof (save_all_spec items now' w2) as (Hok2 & _ & _ & _ & _ & _ & _ & Hidem).
    destruct (save_all items now' w2) as [r2 w3]. cbn [fst snd] in *.
    subst r2. cbn [snd]. rewrite Hidem; [exact Hw2|].
    intros it Hit. rewrite Hw2. apply Hknown. exact Hit.
  - intros e ->. split; reflexivity.
Qed.

End Listing.

Section Awaiting.
Import RateLimiter.
Context {W T : Type}.

(** A caller that awaits each [throttle] before the next finds the limiter
    at rest every time, and gets the outcome of its own operation. *)
Lemma await_at_rest (f : Fn W T) (e : Turn W T) (s : Sys W T) :
  at_rest s → quiet e →
  let t := clock (after_wait e (set_running true (push f s))) in
  ∃ s1,
    throttle f [e] s = (promises s, s1)
    ∧ outcome_of (promises s) s1 = Some (fst (f t (world s)))
    ∧ world s1 = snd (f t (world s))
    ∧ dispatched s1 = dispatched s ++ [(promises s, t)]
    ∧ at_rest s1.
Proof.
  intros (Hrun & Hq & Hfifo & Hset) Hquiet t.
  rewrite (throttle_idle f e s Hrun Hq Hquiet). fold t.
  eexists. split; [reflexivity|].
  split; [|split; [reflexivity|split; [reflexivity|]]].
  - unfold outcome_of. cbn [settled].
    rewrite (find_snoc _ _ (promises s, _)).
    + reflexivity.
    + apply settled_below; auto.
    + apply Nat.eqb_refl.
  - unfold at_rest, fifo, settled_in_order in *. cbn.
    rewrite Hq in Hfifo. rewrite app_nil_r in *.
    split; [reflexivity|]. split; [reflexivity|].
    rewrite !fmap_app, Hset, Hfifo. cbn.
    split; [|reflexivity].
    exact (eq_sym (seq_S (promises s) 0)).
Qed.
End Awaiting.

Section ListRun.
Import GameRepository RateLimiter ListScraper.

Context (listing : Z → Result (list GameListItem)).
Context (timing : nat → Q * Z * Z).

Implicit Types (s : State) (w : World) (st : Store) (item : GameListItem).

Lemma list_turn_quiet p : quiet (turn_for timing p : Turn World unit).
Proof. unfold quiet, turn_for. destruct (timing p) as [[r l] d]. reflexivity. Qed.

Lemma list_logline_at_rest l s : at_rest s → at_rest (logline l s).
Proof. intros H. exact H. Qed.

Lemma scrapePage_outcome (pageNumber : Z) now w :
  let r := scrapePage listing pageNumber now w in
  (∀ items, listing pageNumber = Ok items →
     fst r = Ok tt
     ∧ (∃ added, games (store (snd r)) = games (store w) ++ added)
     ∧ (∀ item, item ∈ items →
          findByBggUrl (bggUrl item) (store (snd r)) ≠ None))
  ∧ (∀ e, listing pageNumber = Throw e →
       fst r = Throw e ∧ store (snd r) = store w).
Proof.
  cbn zeta. unfold scrapePage. split.
  - intros items ->.
    set (w0 := match items with
               | [] => mkWorld (store w) (log w ++ [NoGamesFound pageNumber])
               | _ :: _ => w
               end).
    assert (store w0 = store w) as Hw0 by (destruct items; reflexivity).
    pose proof (save_all_spec items now w0)
      as (Hok & _ & _ & (added & Hadd & _) & Hknown & _).
    destruct (save_all items now w0) as [r1 w1].
    cbn [fst snd] in *. subst r1. cbn [fst snd]. rewrite Hw0 in *.
    split; [reflexivity|]. split; [exists added; exact Hadd|exact Hknown].
  - intros e ->. split; reflexivity.
Qed.

Lemma pages_loop_spec (pages : list Z) (cur : nat) (total : Z) s :
  at_rest s →
  ∃ r s',
    pages_loop listing timing pages cur total s = Some (r, s')
    ∧ (∃ added,
         games (store (world s')) = games (store (world s)) ++ added)
    ∧ ((∀ p, p ∈ pages → ∃ items, listing p = Ok items) →
       r = Ok tt
       ∧ length (dispatched s') = (length (dispatched s) + length pages)%nat
       ∧ ∀ p items item, p ∈ pages → listing p = Ok items → item ∈ items →
           findByBggUrl (bggUrl item) (store (world s')) ≠ None)
    ∧ (∀ done p rest e,
         pages = done ++ p :: rest →
         (∀ q, q ∈ done → ∃ items, listing q = Ok items) →
         listing p = Throw e →
         r = Throw e
         ∧ length (dispatched s') = (length (dispatched s) + S (length done))%nat).
Proof.
  revert cur s. induction pages as [|page pages IH]; intros cur s Hrest.
  - exists (Ok tt), s. split; [reflexivity|].
    split; [exists []; rewrite app_nil_r; reflexivity|]. split.
    + intros _. split; [reflexivity|]. split; [simpl; lia|].
      intros p items item Hp. inversion Hp.
    + intros done p rest e Hsplit. destruct done; discriminate.
  - cbn [pages_loop].
    destruct (await_at_rest (scrapePage listing page)
                (turn_for timing (promises s)) s Hrest (list_turn_quiet _))
      as (s1 & Hth & Hout & Hworld & Hdisp & Hrest1).
    rewrite Hth, Hout.
    set (t := clock (after_wait _ _)) in *.
    pose proof (scrapePage_outcome page t (world s)) as Hpage.
    destruct (listing page) as [items|e] eqn:Hlist.
    + destruct (proj1 Hpage items eq_refl)
        as (Hok & (added & Hadd) & Hknown).
      rewrite Hok.
      destruct (IH (S cur) (logline (Progress (S cur) total page) s1)
                  (list_logline_at_rest _ _ Hrest1))
        as (r & s' & Hrun & (added' & Hadd') & Hall & Hfail).
      exists r, s'. split; [exact Hrun|].
      change (store (world (logline (Progress (S cur) total page) s1)))
        with (store (world s1)) in *.
      change (dispatched (logline (Progress (S cur) total page) s1))
        with (dispatched s1) in *.
      rewrite Hworld in *.
      split.
      { exists (added ++ added'). rewrite Hadd', Hadd, app_assoc. reflexivity. }
      split.
      * intros Hpages.
        destruct Hall as (Hr & Hlen & Hitems).
        { intros p Hp. apply Hpages. right. exact Hp. }
        split; [exact Hr|]. split.
        { rewrite Hlen, Hdisp, length_app. simpl. lia. }
        intros p its item Hp Hits Hitem.
        apply elem_of_cons in Hp as [->|Hp].
        -- rewrite Hlist in Hits. injection Hits as <-.
           apply (known_stays_known _ _ _ added' Hadd').
           apply Hknown. exact Hitem.
        -- exact (Hitems p its item Hp Hits Hitem).
      * intros done p rest e Hsplit Hdone He.
        destruct done as [|q done].
        -- injection Hsplit as <- _. congruence.
        -- injection Hsplit as <- Hsplit.
           destruct (Hfail done p rest e Hsplit) as [Hr Hlen].
           { intros q' Hq'. apply Hdone. right. exact Hq'. }
           { exact He. }
           split; [exact Hr|].
           rewrite Hlen, Hdisp, length_app. simpl. lia.
    + destruct (proj2 Hpage e eq_refl) as [Hthrow Hstore].
      rewrite Hthrow.
      exists (Throw e), s1. split; [reflexivity|].
      rewrite Hworld, Hstore.
      split; [exists []; rewrite app_nil_r; reflexivity|]. split.
      * intros Hpages. destruct (Hpages page) as [items Hitems]; [left|].
        congruence.
      * intros done p rest e' Hsplit Hdone He.
        destruct done as [|q done].
        -- injection Hsplit as <- _. rewrite Hlist in He. injection He as <-.
           split; [reflexivity|]. rewrite Hdisp, length_app. simpl. lia.
        -- injection Hsplit as <- _.
           destruct (Hdone page) as [items Hitems]; [left|]. congruence.
Qed.

End ListRun.

Section ListRunResult.
Import GameRepository RateLimiter ListScraper.

Context (listing : Z → Result (list GameListItem)).
Context (timing : nat → Q * Z * Z).
Context (parseInt : string → option Z).

(** X22.  A run of the list scraper returns; it only ever appends games,
    and [getProgress()] grows by their number.  When every page of the
    range can be listed, it succeeds with one dispatch per page and every
    listed url known; at the first page that cannot, it rethrows that
    page's error, and no later page is requested. *)
Theorem list_scrape_stops_at_first_failure (options : Options)
    (clock0 : Date) (db : Store) :
  ∃ r s',
    scrapeTop5000Games listing timing (Ok tt) options (start clock0 db)
    = Some (r, s')
    ∧ (∃ added,
         games (store (world s')) = games db ++ added
         ∧ fst (getProgress s')
           = fst (getProgress (start clock0 db)) + Z.of_nat (length added))
    ∧ ((∀ p, p ∈ pages_of options → ∃ items, listing p = Ok items) →
       r = Ok tt
       ∧ length (dispatched s') = length (pages_of options)
       ∧ ∀ p items item,
           p ∈ pages_of options → listing p = Ok items → item ∈ items →
           findByBggUrl (bggUrl item) (store (world s')) ≠ None)
    ∧ (∀ done p rest e,
         pages_of options = done ++ p :: rest →
         (∀ q, q ∈ done → ∃ items, listing q = Ok items) →
         listing p = Throw e →
         r = Throw e ∧ length (dispatched s') = S (length done)).
Proof.
  unfold scrapeTop5000Games, pages_of.
  destruct (page_range options) as [a b]. cbn [fst snd].
  set (s1 := logline (StartingToScrape _ a b) (start clock0 db)).
  assert (at_rest s1) as Hrest by (repeat split).
  destruct (pages_loop_spec listing timing (seqZ a (b - a + 1)) 0 (b - a + 1)
              s1 Hrest)
    as (r & s2 & Hrun & (added & Hadd) & Hall & Hfail).
  rewrite Hrun.
  change (store (world s1)) with db in Hadd.
  change (dispatched s1) with (@nil (nat * Date)) in Hall, Hfail.
  assert (∀ l, ∃ s',
            s' = logline l s2
            ∧ (∃ added0,
                 games (store (world s')) = games db ++ added0
                 ∧ fst (getProgress s')
                   = fst (getProgress (start clock0 db))
                     + Z.of_nat (length added0))
            ∧ dispatched s' = dispatched s2
            ∧ store (world s') = store (world s2)) as Hfinal.
  { intros l. eexists. split; [reflexivity|]. split; [|split; reflexivity].
    exists added. split; [exact Hadd|].
    unfold getProgress, getStats. cbn [fst totalGames].
    change (store (world (logline l s2))) with (store (world s2)).
    change (store (world (start clock0 db))) with db.
    rewrite Hadd, length_app. lia. }
  destruct r as [[]|e].
  - destruct (Hfinal (SuccessfullyScraped ((b - a + 1) * 100) a b))
      as (s' & -> & Hprog & Hdisp & Hstore).
    eexists. eexists. split; [reflexivity|]. split; [exact Hprog|].
    rewrite Hdisp, Hstore. split; [exact Hall|exact Hfail].
  - destruct (Hfinal (ErrorScrapingList e)) as (s' & -> & Hprog & Hdisp & Hstore).
    eexists. eexists. split; [reflexivity|]. split; [exact Hprog|].
    rewrite Hdisp, Hstore. split; [exact Hall|exact Hfail].
Qed.





End ListRunResult.

(** ** The worker process and the cleanup that fails *)

Section FatalSweep.
Import GameRepository RateLimiter DetailScraper DetailMain.

Context (parseInt : string → option Z).
Context (browser : Game.pick → Result Details.t).
Context (timing : nat → Q * Z * Z).
Context (initializeScraper : Result unit).

(** X24.  In the worker process a cleanup that fails is fatal: in every
    mode that runs it, which includes a game id of 0, [main] ends in
    [exit(1)] with nothing initialised, claimed or written.  With any
    other game id the cleanup is not run, and its failing changes
    nothing. *)
Theorem failed_sweep_ends_the_worker_process (argv : list string)
    (DEBUG WORKER_ID : option string) (generated : string) (e : Error)
    (fuel : nat) (clock0 : Date) (db : Store) :
  let m := mode_of parseInt (filter (λ arg, arg ≠ "--debug") argv) WORKER_ID in
  let run fault :=
    main parseInt browser timing initializeScraper argv DEBUG WORKER_ID
      generated fault fuel clock0 db in
  (sweeping m →
   ∃ before,
     run (Some e)
     = Some (before ++ [Releasing; Failed e; Exit 1], start clock0 db))
  ∧ (∀ gameId, m = SingleGame gameId → gameId ≠ 0 → run (Some e) = run None).
Proof.
  cbn zeta. unfold main. cbn zeta. split.
  - intros Hsweep.
    destruct (mode_of parseInt _ WORKER_ID) as [w|gid| | |];
      cbn in Hsweep; try contradiction.
    + eexists. cbn beta iota. rewrite app_assoc. reflexivity.
    + subst gid. eexists. cbn beta iota. rewrite app_assoc. reflexivity.
    + eexists. cbn beta iota. rewrite app_assoc. reflexivity.
  - intros gid -> Hgid. cbn beta iota.
    rewrite (proj2 (Z.eqb_neq gid 0) Hgid). reflexivity.
Qed.

End FatalSweep.

(** ** The worker: what it counts and what it keeps *)

Section WorkerAccounts.
Import GameRepository RateLimiter DetailScraper.

Context (browser : Game.pick → Result Details.t).
Context (timing : nat → Q * Z * Z).
Context (workerId : string) (batchSize : nat).

Implicit Types (s : State) (st : Store) (game : Game.pick).

Lemma no_verdict_no_completion (lines : list LogLine) :
  omap verdict_name lines = [] →
  filter (λ l, Is_true (is_completed l)) lines = [].
Proof.
  induction lines as [|l lines IH]; [reflexivity|].
  intros Hnil. rewrite filter_cons.
  destruct l; try discriminate Hnil; rewrite (IH Hnil); reflexivity.
Qed.

Lemma process_batch_counts (batch : list Game.pick) total s total' s' :
  idle s →
  process_batch browser timing workerId batch total s = Some (total', s') →
  (total' + completions s = total + completions s')%nat.
Proof.
  revert total s. induction batch as [|game batch IH]; intros total s Hidle.
  - simpl. intros [= <- <-]. reflexivity.
  - cbn [process_batch].
    destruct (await_throttle timing (scrapeGameDetailPage browser game) s Hidle)
      as (t & s1 & Hth & Hout & Hworld & Hidle1).
    pose proof (scrape_frame browser game t (world s)) as (_ & Hlog & _).
    cbv zeta in Hlog. destruct Hlog as (extra & Hlog & Hextra).
    rewrite <- Hworld in Hlog.
    apply no_verdict_no_completion in Hextra.
    rewrite Hth, Hout.
    destruct (fst (scrapeGameDetailPage browser game t (world s))) as [[]|e];
      intros Hrun; apply IH in Hrun; try (apply logline_idle; exact Hidle1);
      revert Hrun; unfold completions; cbn [logline world log];
      rewrite Hlog, !filter_app, Hextra, !length_app; simpl; lia.
Qed.

Lemma batches_counts fuel total batchCount s total' s' :
  idle s →
  batches browser timing workerId batchSize fuel total batchCount s
  = Some (total', s') →
  (total' + completions s = total + completions s')%nat.
Proof.
  revert total batchCount s.
  induction fuel as [|fuel IH]; intros total batchCount s Hidle;
    [discriminate|].
  cbn [batches].
  destruct (claimGamesForProcessing workerId batchSize (clock s)
              (store (world s))) as [found db].
  destruct found as [|game found].
  - intros [= <- <-]. unfold completions. cbn [logline world log].
    rewrite filter_app, length_app. simpl. lia.
  - set (s2 := logline _ (on_store _ s)).
    assert (idle s2) as Hidle2 by exact Hidle.
    destruct (process_batch_spec browser timing workerId (game :: found) total
                s2 Hidle2)
      as (total1 & s3 & Hrun & Hidle3 & _).
    rewrite Hrun. pose proof (process_batch_counts _ _ _ _ _ Hidle2 Hrun) as H1.
    intros Hrest.
    apply (IH total1 (S batchCount) (pause s3)) in Hrest; [|exact Hidle3].
    change (completions (pause s3)) with (completions s3) in Hrest.
    assert (completions s2 = completions s) as H2.
    { unfold completions, s2. cbn [logline on_store world log].
      rewrite filter_app, length_app. simpl. lia. }
    lia.
Qed.

Lemma filter_le_omap {A B} (P : A → Prop) `{!∀ x, Decision (P x)}
    (f : A → option B) (l : list A) :
  (∀ x, P x → f x ≠ None) →
  (length (filter P l) ≤ length (omap f l))%nat.
Proof.
  intros Himp. induction l as [|x l IH]; [reflexivity|].
  rewrite filter_cons.
  change (omap f (x :: l))
    with (match f x with Some y => y :: omap f l | None => omap f l end).
  destruct (decide (P x)) as [Hp|Hp].
  - destruct (f x) eqn:Hf; [simpl; lia|]. destruct (Himp x Hp Hf).
  - destruct (f x); simpl; lia.
Qed.

End WorkerAccounts.

Section WorkerInvariant.
Import GameRepository RateLimiter DetailScraper.

Context (browser : Game.pick → Result Details.t).
Context (timing : nat → Q * Z * Z).
Context (workerId : string) (batchSize : nat).

Implicit Types (s : State) (st : Store) (game : Game.pick).

(** The lease invariant reads the id and the two lease columns only. *)
Lemma lease_invariant_ext st st' :
  Forall2
    (λ g g', Game.id g' = Game.id g
             ∧ Game.processingBy g' = Game.processingBy g
             ∧ Game.processingAt g' = Game.processingAt g)
    (games st) (games st') →
  lease_invariant st → lease_invariant st'.
Proof.
  intros Hrows [Hall Hone].
  assert (∀ g', g' ∈ games st' →
            ∃ g, g ∈ games st ∧ Game.id g' = Game.id g
                 ∧ Game.processingBy g' = Game.processingBy g
                 ∧ Game.processingAt g' = Game.processingAt g) as Hback.
  { intros g' Hg'. apply list_elem_of_lookup_1 in Hg' as [i Hi].
    destruct (Forall2_lookup_r _ _ _ _ _ Hrows Hi) as (g & Hg & Hr).
    exists g. split; [exact (list_elem_of_lookup_2 _ _ _ Hg)|exact Hr]. }
  split.
  - apply Forall_forall. intros g' Hg'.
    destruct (Hback g' Hg') as (g & Hg & _ & Hby & Hat).
    rewrite Forall_forall in Hall. specialize (Hall g Hg).
    unfold lease_all_or_nothing in *. rewrite Hby, Hat. exact Hall.
  - unfold single_owner in *. rewrite Forall_forall in *.
    intros g1' Hg1'. rewrite Forall_forall. intros g2' Hg2'.
    destruct (Hback g1' Hg1') as (g1 & Hg1 & Hid1 & Hby1 & _).
    destruct (Hback g2' Hg2') as (g2 & Hg2 & Hid2 & Hby2 & _).
    specialize (Hone g1 Hg1). rewrite Forall_forall in Hone.
    specialize (Hone g2 Hg2). rewrite Hid1, Hid2, Hby1, Hby2. exact Hone.
Qed.

Lemma update_keeps_invariant gid (d : Details.t) (now : Date) st :
  lease_invariant st →
  lease_invariant (snd (updateGameWithAllDetails gid d now st)).
Proof.
  apply lease_invariant_ext.
  pose proof (update_shape gid d now st) as [H _]. cbn zeta in H.
  eapply Forall2_impl; [exact H|].
  intros g g' Hgg. exact (payload_written_lease _ _ _ _ _ Hgg).
Qed.

Lemma claim_keeps_invariant (w : string) (n : nat) (now : Date) st :
  lease_invariant st →
  lease_invariant (snd (claimGamesForProcessing w n now st)).
Proof.
  rewrite claim_store. apply updateMany_invariant.
  - split; discriminate.
  - intros _ g1 g2 Hid. unfold id_in. rewrite Hid. tauto.
Qed.

Lemma release_keeps_invariant (w : string) st :
  lease_invariant st → lease_invariant (releaseClaimedGames w st).
Proof.
  apply updateMany_invariant; [tauto|]. intros H. contradiction.
Qed.

Lemma scrape_keeps_invariant game (t : Date) (w : World) :
  lease_invariant (store w) →
  lease_invariant (store (snd (scrapeGameDetailPage browser game t w))).
Proof.
  intros Hinv. unfold scrapeGameDetailPage.
  destruct (browser game) as [d|e]; [|exact Hinv].
  pose proof (update_keeps_invariant (Game.pid game) d t (store w) Hinv) as H.
  destruct (updateGameWithAllDetails _ _ _ _) as [[[]|e] db]; exact H.
Qed.

Lemma process_batch_invariant (batch : list Game.pick) total s total' s' :
  idle s →
  process_batch browser timing workerId batch total s = Some (total', s') →
  lease_invariant (store (world s)) → lease_invariant (store (world s')).
Proof.
  revert total s. induction batch as [|game batch IH]; intros total s Hidle.
  - simpl. intros [= <- <-]. tauto.
  - cbn [process_batch].
    destruct (await_throttle timing (scrapeGameDetailPage browser game) s Hidle)
      as (t & s1 & Hth & Hout & Hworld & Hidle1).
    rewrite Hth, Hout.
    pose proof (scrape_keeps_invariant game t (world s)) as Hkeep.
    rewrite <- Hworld in Hkeep.
    destruct (fst (scrapeGameDetailPage browser game t (world s))) as [[]|e];
      intros Hrun Hinv; apply IH in Hrun;
      try (apply logline_idle; exact Hidle1); try exact Hrun;
      apply Hkeep; exact Hinv.
Qed.

Lemma batches_invariant fuel total batchCount s total' s' :
  idle s →
  batches browser timing workerId batchSize fuel total batchCount s
  = Some (total', s') →
  lease_invariant (store (world s)) → lease_invariant (store (world s')).
Proof.
  revert total batchCount s.
  induction fuel as [|fuel IH]; intros total batchCount s Hidle;
    [discriminate|].
  cbn [batches].
  pose proof (claim_keeps_invariant workerId batchSize (clock s)
                (store (world s))) as Hclaim.
  destruct (claimGamesForProcessing workerId batchSize (clock s)
              (store (world s))) as [found db].
  cbn [snd] in Hclaim.
  destruct found as [|game found].
  - intros [= <- <-] Hinv. apply Hclaim. exact Hinv.
  - set (s2 := logline _ (on_store _ s)).
    assert (idle s2) as Hidle2 by exact Hidle.
    destruct (process_batch_spec browser timing workerId (game :: found) total
                s2 Hidle2)
      as (total1 & s3 & Hrun & Hidle3 & _).
    rewrite Hrun.
    pose proof (process_batch_invariant _ _ _ _ _ Hidle2 Hrun) as Hbatch.
    intros Hrest Hinv.
    apply (IH total1 (S batchCount) (pause s3)) in Hrest; [exact Hrest| |].
    + exact Hidle3.
    + apply Hbatch, Hclaim, Hinv.
Qed.

(** X26.  A whole worker run keeps the lease invariant: when on every row
    [processingBy] and [processingAt] are set or null together and no item
    has two owners before the run, the same holds of the store the run
    leaves, and no row is leased to the worker any more. *)
Theorem worker_run_keeps_lease_invariant fuel s :
  idle s → unique_ids (store (world s)) →
  (length (games (store (world s))) < fuel)%nat →
  lease_invariant (store (world s)) →
  ∃ s',
    scrapeGameDetails browser timing (Ok tt) workerId batchSize None fuel s
    = Some (Ok tt, s')
    ∧ lease_invariant (store (world s'))
    ∧ ∀ g, g ∈ games (store (world s')) → Game.processingBy g ≠ Some workerId.
Proof.
  intros Hidle Hnd Hfuel Hinv.
  destruct (worker_returns browser timing workerId batchSize fuel s Hidle Hnd
              Hfuel)
    as (total & s2 & Hb & Hrun & _).
  eexists. split; [exact Hrun|].
  apply batches_invariant in Hb; [| exact Hidle |].
  - split.
    + change (store (world (on_store (releaseClaimedGames workerId)
                              (logline (WorkerCompleted workerId total) s2))))
        with (releaseClaimedGames workerId (store (world s2))).
      apply release_keeps_invariant. exact Hb.
    + intros g Hg.
      change (store (world (on_store (releaseClaimedGames workerId)
                              (logline (WorkerCompleted workerId total) s2))))
        with (releaseClaimedGames workerId (store (world s2))) in Hg.
      apply released_not_leased_by in Hg.
      unfold leased_by in Hg. apply bool_decide_eq_false in Hg. exact Hg.
  - change (store (world (logline (Starting workerId)
                            (on_store (releaseClaimedGames workerId) s))))
      with (releaseClaimedGames workerId (store (world s))).
    apply release_keeps_invariant. exact Hinv.
Qed.

End WorkerInvariant.

(** ** The properties at work *)

Lemma created_game_is_found_witness :
  ∃ g s',
    GameRepository.createGame brass 5 three_pending = (Ok g, s')
    ∧ GameRepository.findByBggUrl (CreateData.bggUrl brass) three_pending = None
    ∧ GameRepository.findByBggUrl (CreateData.bggUrl brass) s' = Some g
    ∧ DetailScraper.findById (Game.id g) s' = Some (Game.select g).
Proof.
  eexists. eexists. split; [reflexivity|].
  pose proof (created_game_is_found brass 5 three_pending _ _ eq_refl)
    as (H1 & H2 & H3 & _).
  split; [exact H1|]. split; [exact H2|exact H3].
Defined.

(** Writing [weighted_payload] to item 4 of [shelf], whose join rows all
    point to lookup rows, and reading everything back. *)
Lemma stored_payload_is_read_back_witness :
  unique_named (mechanisms shelf)
  ∧ consistent shelf
  ∧ row 4 (Some (5 # 2)%Q) None None ∈ games shelf
  ∧ ∃ entries e,
      GameRepository.findAllWithDetails
        (snd (GameRepository.updateGameWithAllDetails 4 weighted_payload 80
                shelf))
      = Ok entries
      ∧ length entries = 7%nat
      ∧ e ∈ entries
      ∧ Game.id (GameRepository.game e) = 4
      ∧ Game.weight (GameRepository.game e) = Some (9 # 4)%Q
      ∧ "Deck Building" ∈ GameRepository.mechanismNames e.
Proof.
  assert (unique_named [mkNamed 1 "Economic"]) as Uc
    by (apply NoDup_singleton).
  assert (unique_named [mkNamed 1 "Hand Management"]) as Um
    by (apply NoDup_singleton).
  assert (unique_named [mkNamed 1 "Crowdfunding"]) as Uf
    by (apply NoDup_singleton).
  assert (consistent shelf) as Hs.
  { repeat split; intros l Hl; apply list_elem_of_In in Hl; simpl in Hl;
      repeat (destruct Hl as [<-|Hl]; [eexists; split; [left|reflexivity]|]);
      destruct Hl. }
  assert (row 4 (Some (5 # 2)%Q) None None ∈ games shelf) as Hin.
  { simpl. right. left. }
  split; [exact Um|]. split; [exact Hs|]. split; [exact Hin|].
  destruct (stored_payload_is_read_back 4 weighted_payload 80 shelf
              (row 4 (Some (5 # 2)%Q) None None) Uc Um Uf Hs Hin eq_refl)
    as (entries & e & Hread & Hgames & He & Hid & _ & _ & Hw & _ & _ & _ & Hm & _).
  exists entries, e. split; [exact Hread|]. split.
  { rewrite <- (length_fmap GameRepository.game), Hgames. reflexivity. }
  split; [exact He|]. split; [exact Hid|]. split; [exact Hw|]. apply Hm. left.
Defined.


Lemma dispatcher_stops_only_when_drained_witness :
  let s := RateLimiter.run demo_cmds (RateLimiter.boot 1000 2000 0 0%nat) in
  RateLimiter.running (RateLimiter.limiter s) = false
  ∧ RateLimiter.getQueueLength s = 0
  ∧ fst <$> RateLimiter.settled s = seq 0 (RateLimiter.promises s).
Proof.
  cbn zeta.
  assert (RateLimiter.running
            (RateLimiter.limiter
               (RateLimiter.run demo_cmds (RateLimiter.boot 1000 2000 0 0%nat)))
          = false) as Hstop by (vm_compute; reflexivity).
  split; [exact Hstop|].
  pose proof (dispatcher_stops_only_when_drained 1000 2000 0 0%nat demo_cmds
                Hstop) as (_ & Hlen & _ & Hset).
  split; [exact Hlen|exact Hset].
Defined.

Lemma dispatch_window_witness :
  RateLimiter.valid_turn (turn (W := nat) (T := Z) timing0 [])
  ∧ interval_ok one_queued
  ∧ (RateLimiter.maxDelay (RateLimiter.limiter one_queued)
     <= inject_Z (RateLimiter.clock one_queued
                  - RateLimiter.lastRequestTime (RateLimiter.limiter one_queued)))%Q
  ∧ RateLimiter.clock (RateLimiter.after_wait (turn timing0 []) one_queued)
    = RateLimiter.clock one_queued.
Proof.
  assert (RateLimiter.valid_turn (turn (W := nat) (T := Z) timing0 [])) as Hv.
  { unfold RateLimiter.valid_turn, Qle, Qlt. simpl. lia. }
  assert (interval_ok one_queued) as Hint.
  { unfold interval_ok, Qle. simpl. lia. }
  assert (RateLimiter.maxDelay (RateLimiter.limiter one_queued)
          <= inject_Z (RateLimiter.clock one_queued
                       - RateLimiter.lastRequestTime
                           (RateLimiter.limiter one_queued)))%Q as Hlong.
  { unfold Qle. simpl. lia. }
  split; [exact Hv|]. split; [exact Hint|]. split; [exact Hlong|].
  pose proof (dispatch_window (turn timing0 []) one_queued
                (RateLimiter.mkTask 0 (op_ok 10)) [] Hv Hint eq_refl)
    as (_ & _ & Hnow & _).
  exact (Hnow Hlong).
Defined.

Lemma single_game_mode_takes_no_lease_witness :
  2 ≠ 0
  ∧ ∃ r s',
      DetailScraper.scrapeGameDetails failing_browser steady (Ok tt) "worker-9"
        5 (Some 2) 0 (DetailScraper.start 0 five_items)
      = Some (r, s')
      ∧ owners (DetailScraper.store (RateLimiter.world s'))
        = owners (GameRepository.releaseClaimedGames "worker-9" five_items)
      ∧ RateLimiter.dispatched s' = []
      ∧ r = Throw "Timeout 30000ms exceeded".
Proof.
  assert (2 ≠ 0) as Hgid by lia.
  split; [exact Hgid|].
  destruct (single_game_mode_takes_no_lease failing_browser steady "worker-9" 5
              2 0%nat (DetailScraper.start 0 five_items) Hgid)
    as (r & s' & Hrun & Hown & Hdisp & _ & _ & Hfail).
  exists r, s'. split; [exact Hrun|]. split; [exact Hown|].
  split; [exact Hdisp|].
  exact (proj1 (Hfail (Game.mkPick 2 "https://boardgamegeek.com/boardgame/2"
                         "game-2")
                  "Timeout 30000ms exceeded" eq_refl eq_refl)).
Defined.

Lemma worker_paces_its_page_loads_witness :
  unique_ids three_pending
  ∧ (∀ p, valid_timing (steady p))
  ∧ ∃ s',
      DetailScraper.scrapeGameDetails browser_failing_on_2 steady (Ok tt)
        "worker-1" 2 None 4 (DetailScraper.start 0 three_pending)
      = Some (Ok tt, s')
      ∧ length (RateLimiter.dispatched s')
        = length (omap verdict_name (DetailScraper.log (RateLimiter.world s')))
      ∧ RateLimiter.paced 2000 (snd <$> RateLimiter.dispatched s').
Proof.
  assert (unique_ids three_pending) as Hnd.
  { unfold unique_ids. apply (bool_decide_unpack _). vm_compute. exact I. }
  assert (∀ p, valid_timing (steady p)) as Hv.
  { intros p. unfold valid_timing, Qle, Qlt. simpl. lia. }
  split; [exact Hnd|]. split; [exact Hv|].
  destruct (worker_paces_its_page_loads browser_failing_on_2 steady "worker-1"
              2 4 0 three_pending Hnd)
    as (s' & Hrun & Hlen & Hpaced); [simpl; lia|].
  exists s'. split; [exact Hrun|]. split; [exact Hlen|exact (Hpaced Hv)].
Defined.

Lemma worker_process_sweeps_every_lease_witness :
  DetailMain.mode_of parse_decimal
    (filter (λ arg, arg ≠ "--debug") ["worker-3"; "--debug"]) (Some "worker-3")
  = DetailMain.WorkerMode "worker-3"
  ∧ unique_ids five_items
  ∧ ∃ out s',
      DetailMain.main parse_decimal steady_browser steady (Ok tt)
        ["worker-3"; "--debug"] None (Some "worker-3") "worker-0" None 6 0
        five_items
      = Some (out, s')
      ∧ DetailMain.Released 2 ∈ out
      ∧ Forall (λ v, v.2 = None)
          (owners (DetailScraper.store (RateLimiter.world s'))).
Proof.
  assert (DetailMain.mode_of parse_decimal
            (filter (λ arg, arg ≠ "--debug") ["worker-3"; "--debug"])
            (Some "worker-3")
          = DetailMain.WorkerMode "worker-3") as Hmode by reflexivity.
  assert (unique_ids five_items) as Hnd.
  { unfold unique_ids. apply (bool_decide_unpack _). vm_compute. exact I. }
  split; [exact Hmode|]. split; [exact Hnd|].
  destruct (worker_process_sweeps_every_lease parse_decimal steady_browser
              steady ["worker-3"; "--debug"] None (Some "worker-3") "worker-0"
              6 0 five_items
              (or_introl (ex_intro _ "worker-3" Hmode)) Hnd)
    as (out & s' & Hrun & Hrel & _ & Hfree); [simpl; lia|].
  exists out, s'. split; [exact Hrun|]. split; [exact Hrel|exact Hfree].
Defined.

Lemma spawned_process_is_a_worker_witness :
  "worker-2" ∈ Launcher.workerIds 3
  ∧ Launcher.Spawn ["src/run-detail-scraper.ts"; "worker-2"; "--debug"]
      "worker-2"
    ∈ Launcher.start_worker false true "worker-2"
  ∧ DetailMain.mode_of parse_decimal
      (filter (λ arg, arg ≠ "--debug")
         (drop 1 ["src/run-detail-scraper.ts"; "worker-2"; "--debug"]))
      (Some "worker-2")
    = DetailMain.WorkerMode "worker-2".
Proof.
  assert ("worker-2" ∈ Launcher.workerIds 3) as Hid.
  { apply (bool_decide_unpack _). vm_compute. exact I. }
  assert (Launcher.Spawn ["src/run-detail-scraper.ts"; "worker-2"; "--debug"]
            "worker-2"
          ∈ Launcher.start_worker false true "worker-2") as Hspawn.
  { right. left. }
  split; [exact Hid|]. split; [exact Hspawn|].
  exact (proj2 (spawned_process_is_a_worker parse_decimal 3 true "worker-2" _ _
                  Hid Hspawn)).
Defined.

Lemma new_worker_process_retakes_a_sibling_batch_witness :
  clean three_pending ∧ unique_ids three_pending
  ∧ ∃ out s',
      DetailMain.main parse_decimal steady_browser steady (Ok tt) ["worker-2"]
        None (Some "worker-2") "worker-0" None 4 0
        (snd (GameRepository.claimGamesForProcessing "worker-1" 5 10
                three_pending))
      = Some (out, s')
      ∧ ∃ rest, verdicts s' = ["game-1"; "game-2"; "game-3"] ++ rest.
Proof.
  assert (clean three_pending) as Hclean.
  { unfold clean. simpl. repeat constructor. }
  assert (unique_ids three_pending) as Hnd.
  { unfold unique_ids. apply (bool_decide_unpack _). vm_compute. exact I. }
  split; [exact Hclean|]. split; [exact Hnd|].
  destruct (new_worker_process_retakes_a_sibling_batch parse_decimal
              steady_browser steady ["worker-2"] None (Some "worker-2")
              "worker-0" 4 0 three_pending "worker-1" "worker-2" 10 Hclean Hnd)
    as (out & s' & Hrun & Hrest); [simpl; lia|reflexivity|].
  exists out, s'. split; [exact Hrun|exact Hrest].
Defined.

Lemma worker_run_keeps_lease_invariant_witness :
  idle (DetailScraper.start 0 five_items)
  ∧ unique_ids five_items ∧ lease_invariant five_items
  ∧ ∃ s',
      DetailScraper.scrapeGameDetails steady_browser steady (Ok tt) "worker-2"
        5 None 6 (DetailScraper.start 0 five_items)
      = Some (Ok tt, s')
      ∧ lease_invariant (DetailScraper.store (RateLimiter.world s')).
Proof.
  assert (idle (DetailScraper.start 0 five_items)) as Hidle by (repeat split).
  assert (unique_ids five_items) as Hnd.
  { unfold unique_ids. apply (bool_decide_unpack _). vm_compute. exact I. }
  assert (lease_invariant five_items) as Hinv.
  { split.
    - repeat constructor; simpl; congruence.
    - repeat constructor; simpl; congruence. }
  split; [exact Hidle|]. split; [exact Hnd|]. split; [exact Hinv|].
  destruct (worker_run_keeps_lease_invariant steady_browser steady "worker-2" 5
              6 (DetailScraper.start 0 five_items) Hidle Hnd)
    as (s' & Hrun & Hkeep & _); [simpl; lia|exact Hinv|].
  exists s'. split; [exact Hrun|exact Hkeep].
Defined.

Lemma create_is_all_or_nothing_witness :
  ¬ NoDup (CreateData.categories brass_twice)
  ∧ ∃ e, GameRepository.createGame brass_twice 5 three_pending
         = (Throw e, three_pending).
Proof.
  assert (¬ NoDup (CreateData.categories brass_twice)) as Hdup.
  { intros Hnd. apply NoDup_cons in Hnd as [Hnot _]. apply Hnot. left. }
  split; [exact Hdup|].
  exact (proj2 (create_is_all_or_nothing brass_twice 5 three_pending)
           (or_intror (or_introl Hdup))).
Defined.

Lemma update_needs_the_row_witness :
  (∀ g, g ∈ games three_pending → Game.id g ≠ 9)
  ∧ let r :=
      GameRepository.updateGameWithAllDetails 9 weighted_payload 80
        three_pending in
    fst r = Throw "Record to update not found"
    ∧ games (snd r) = games three_pending
    ∧ "Deck Building" ∈ ntext <$> mechanisms (snd r).
Proof.
  assert (∀ g, g ∈ games three_pending → Game.id g ≠ 9) as Hno.
  { intros g Hg. simpl in Hg.
    repeat (apply elem_of_cons in Hg as [->|Hg]; [simpl; lia|]).
    inversion Hg. }
  split; [exact Hno|].
  pose proof (update_needs_the_row 9 weighted_payload 80 three_pending)
    as [_ Hmiss].
  destruct (Hmiss Hno) as (Hthrow & Hgames & _ & _ & _ & _ & _ & _ & Hm & _).
  cbn zeta. split; [exact Hthrow|]. split; [exact Hgames|]. apply Hm. left.
Defined.

Lemma worker_count_is_checked_on_the_command_line_only_witness :
  positional ["--debug"] = []
  ∧ parse_decimal "40" = Some 40
  ∧ started
      (fst (Launcher.runParallelScrapers parse_decimal ["--debug"] None
              (Some "40") None None five_items))
    = Launcher.workerIds 40
  ∧ positional ["40"] = ["40"]
  ∧ started
      (fst (Launcher.runParallelScrapers parse_decimal ["40"] None None None
              None five_items))
    = [].
Proof.
  pose proof (worker_count_is_checked_on_the_command_line_only parse_decimal
                ["--debug"] None (Some "40") None None five_items)
    as (_ & _ & _ & Henv).
  pose proof (worker_count_is_checked_on_the_command_line_only parse_decimal
                ["40"] None None None None five_items)
    as (_ & Hbad & _).
  split; [reflexivity|]. split; [reflexivity|]. split.
  - apply (Henv "40" 40); [reflexivity|reflexivity|discriminate|reflexivity|lia].
  - split; [reflexivity|].
    apply (Hbad "40"); [reflexivity|].
    right. exists 40. split; [reflexivity|lia].
Defined.

Lemma listed_games_are_ingested_witness :
  let w := ListScraper.mkWorld three_pending [] in
  let r := ListScraper.scrapePage ranking 2 7 w in
  fst r = Ok tt
  ∧ (∃ added,
       games (ListScraper.store (snd r)) = games three_pending ++ added
       ∧ length added = 2%nat)
  ∧ fst (ListScraper.scrapePage ranking 3 7 w) = Throw "Timeout 30000ms exceeded".
Proof.
  cbn zeta.
  pose proof (listed_games_are_ingested ranking 2 7
                (ListScraper.mkWorld three_pending [])) as [Hok _].
  pose proof (listed_games_are_ingested ranking 3 7
                (ListScraper.mkWorld three_pending [])) as [_ Hfail].
  destruct (Hok _ eq_refl) as (Hr & _).
  split; [exact Hr|]. split.
  - eexists. split; [reflexivity|reflexivity].
  - exact (proj1 (Hfail _ eq_refl)).
Defined.

Lemma failed_sweep_ends_the_worker_process_witness :
  sweeping
    (DetailMain.mode_of parse_decimal (filter (λ arg, arg ≠ "--debug") ["0"])
       None)
  ∧ ∃ before,
      DetailMain.main parse_decimal steady_browser steady (Ok tt) ["0"] None
        None "worker-0" (Some "Can't reach database server") 6 0 five_items
      = Some (before
                ++ [DetailMain.Releasing;
                    DetailMain.Failed "Can't reach database server";
                    DetailMain.Exit 1],
              DetailScraper.start 0 five_items).
Proof.
  assert (sweeping
            (DetailMain.mode_of parse_decimal
               (filter (λ arg, arg ≠ "--debug") ["0"]) None)) as Hsweep
    by reflexivity.
  split; [exact Hsweep|].
  exact (proj1 (failed_sweep_ends_the_worker_process parse_decimal
                  steady_browser steady (Ok tt) ["0"] None None "worker-0"
                  "Can't reach database server" 6 0 five_items) Hsweep).
Defined.

(** A run over the three pages of the fixture: the two pages that load
    leave three games, the entry listed twice stored once, and the third
    page ends the run with its error. *)
Example list_run_over_three_pages :
  ∃ s',
    ListScraper.scrapeTop5000Games ranking steady (Ok tt)
      (ListScraper.mkOptions (Some 1) (Some 3) None)
      (ListScraper.start 0 (backlog [] []))
    = Some (Throw "Timeout 30000ms exceeded", s')
    ∧ Game.name <$> games (ListScraper.store (RateLimiter.world s'))
      = ["Brass: Birmingham"; "Pandemic Legacy: Season 1"; "Gloomhaven"]
    ∧ Game.id <$> games (ListScraper.store (RateLimiter.world s')) = [1; 2; 3]
    ∧ fst <$> RateLimiter.dispatched s' = [0; 1; 2]%nat
    ∧ fst (ListScraper.getProgress s') = 3.
Proof. eexists. split; [vm_compute; reflexivity|]. vm_compute. repeat split. Qed.

(** ** The worker: every available item once, in id order *)

Section WorkerCoverage.
Import GameRepository RateLimiter DetailScraper.

Implicit Types (s : State) (st : Store) (game : Game.pick) (g : Game.t).

Lemma candidates_nodup st :
  unique_ids st → NoDup (Game.id <$> candidates st).
Proof.
  intros Hnd. unfold candidates. rewrite merge_sort_Permutation.
  apply (sublist_NoDup _ (Game.id <$> games st)); [exact Hnd|].
  apply fmap_sublist, sublist_filter.
Qed.

Lemma sorted_rows_unique (l1 l2 : list Game.t) :
  NoDup (Game.id <$> l1) →
  StronglySorted id_le l1 → StronglySorted id_le l2 → l1 ≡ₚ l2 → l1 = l2.
Proof.
  intros Hnd H1 H2 Hperm.
  apply (StronglySorted_unique_strong id_le); [|exact H1|exact H2|exact Hperm].
  intros x1 x2 Hx1 Hx2 Hle Hge. unfold id_le in Hle, Hge.
  apply (unique_row Game.id l1); [exact Hnd|exact Hx1| |lia].
  rewrite Hperm. exact Hx2.
Qed.

Lemma filter_none {A} (P : A → Prop) `{!∀ x, Decision (P x)} (l : list A) :
  (∀ x, x ∈ l → ¬ P x) → filter P l = [].
Proof.
  induction l as [|x l IH]; intros Hall; [reflexivity|].
  rewrite filter_cons, decide_False by (apply Hall; left).
  apply IH. intros y Hy. apply Hall. right. exact Hy.
Qed.

Lemma filter_all {A} (P : A → Prop) `{!∀ x, Decision (P x)} (l : list A) :
  (∀ x, x ∈ l → P x) → filter P l = l.
Proof.
  induction l as [|x l IH]; intros Hall; [reflexivity|].
  rewrite filter_cons, decide_True by (apply Hall; left).
  f_equal. apply IH. intros y Hy. apply Hall. right. exact Hy.
Qed.

Lemma filter_out_front (l1 l2 : list Game.t) :
  NoDup (Game.id <$> (l1 ++ l2)) →
  filter (λ g, Game.id g ∉ Game.id <$> l1) (l1 ++ l2) = l2.
Proof.
  rewrite fmap_app. intros Hnd. apply NoDup_app in Hnd as (_ & Hdisj & _).
  rewrite filter_app, filter_none, filter_all; [reflexivity| |].
  - intros g Hg Hin. apply (Hdisj _ Hin). apply list_elem_of_fmap_2. exact Hg.
  - intros g Hg Hnot. apply Hnot. apply list_elem_of_fmap_2. exact Hg.
Qed.

Lemma filter_fmap_agree {A} (P Q : A → Prop) `{!∀ x, Decision (P x)}
    `{!∀ x, Decision (Q x)} (f : A → A) (l : list A) :
  (∀ x, x ∈ l → (P (f x) ↔ Q x) ∧ (Q x → f x = x)) →
  filter P (f <$> l) = filter Q l.
Proof.
  induction l as [|x l IH]; intros Hall; [reflexivity|].
  rewrite fmap_cons, !filter_cons.
  rewrite IH by (intros y Hy; apply Hall; right; exact Hy).
  destruct (Hall x (list_elem_of_here _ _)) as [Hiff Hfix].
  destruct (decide (P (f x))) as [Hp|Hp], (decide (Q x)) as [Hq|Hq].
  - rewrite (Hfix Hq). reflexivity.
  - destruct Hq. apply Hiff. exact Hp.
  - destruct Hp. apply Hiff. exact Hq.
  - reflexivity.
Qed.

Lemma claim_filter (ids : list Z) (w : string) (t : Date) st :
  filter (λ g, Is_true (available (updateMany (id_in ids) (Some w) (Some t) st) g))
    (games (updateMany (id_in ids) (Some w) (Some t) st))
  = filter (λ g, (Game.id g ∉ ids) ∧ Is_true (available st g)) (games st).
Proof.
  pose proof (updateMany_other_tables (id_in ids) (Some w) (Some t) st) as Hsame.
  change (games (updateMany (id_in ids) (Some w) (Some t) st))
    with ((λ g, if id_in ids g then Game.set_lease (Some w) (Some t) g else g)
            <$> games st).
  apply filter_fmap_agree. intros g _.
  destruct (id_in ids g) eqn:Hid; unfold id_in in Hid.
  - apply bool_decide_eq_true in Hid. split; [|tauto].
    unfold available. simpl. tauto.
  - apply bool_decide_eq_false in Hid. split; [|reflexivity].
    unfold available. rewrite (needs_details_other_tables _ _ g Hsame). tauto.
Qed.

(** A claim takes the first [n] candidates and leaves the others as they
    were, in their order. *)
Lemma claim_candidates (w : string) (n : nat) (t : Date) st :
  unique_ids st →
  candidates (snd (claimGamesForProcessing w n t st)) = drop n (candidates st).
Proof.
  intros Hnd.
  pose proof (candidates_nodup st Hnd) as HndC.
  pose proof (candidates_sorted st) as HsC.
  apply sorted_rows_unique.
  - apply candidates_nodup, claim_keeps_ids, Hnd.
  - apply candidates_sorted.
  - rewrite <- (take_drop n (candidates st)) in HsC.
    exact (StronglySorted_app_1_r _ _ _ HsC).
  - rewrite claim_store. unfold candidates at 1.
    rewrite merge_sort_Permutation, claim_filter.
    rewrite <- (list_filter_filter (λ g, Game.id g ∉ _)
                  (λ g, Is_true (available st g))).
    rewrite <- (merge_sort_Permutation id_le
                  (filter (λ g, Is_true (available st g)) (games st))).
    fold (candidates st).
    rewrite availableGames_eq, pid_select.
    pose proof (filter_out_front (take n (candidates st))
                  (drop n (candidates st))) as Hfront.
    rewrite take_drop in Hfront. rewrite (Hfront HndC). reflexivity.
Qed.

Lemma none_for_upsert_links gid (ids : list Z) (links : list Link) g :
  Game.id g ≠ gid →
  none_for g (upsert_links gid ids links) = none_for g links.
Proof.
  intros Hne. unfold upsert_links. revert links.
  induction ids as [|i ids IH]; intros links; [reflexivity|].
  simpl. rewrite IH. unfold upsert_link.
  destruct (existsb (link_eqb (mkLink gid i)) links); [reflexivity|].
  unfold none_for. rewrite forallb_app. simpl.
  rewrite (proj2 (Z.eqb_neq gid (Game.id g))) by congruence.
  simpl. rewrite andb_true_r. reflexivity.
Qed.

(** Writing the payload of a leased item changes no candidate. *)
Lemma update_candidates gid (d : Details.t) (now : Date) st :
  (∀ g, g ∈ games st → Game.id g = gid → Game.processingBy g ≠ None) →
  candidates (snd (updateGameWithAllDetails gid d now st)) = candidates st.
Proof.
  intros Hleased. unfold candidates. f_equal.
  rewrite updateGameWithAllDetails_eq.
  pose proof (lookups_frame d st) as (Hg & Hc & Hm & Hf).
  destruct (lookups d st) as [[[[lang cs] ms] fs] s1].
  cbn [fst snd] in Hg, Hc, Hm, Hf.
  destruct (negb (existsb (has_id gid) (games s1))); cbn [snd].
  - rewrite Hg. apply list_filter_iff. intros g.
    unfold available, needs_details. rewrite Hc, Hm, Hf. reflexivity.
  - cbn [games community_upserts]. rewrite Hg.
    set (st' := community_upserts _ _ _ _).
    assert (∀ g, Game.id g ≠ gid → available st' g = available st g) as Hother.
    { intros g Hne. unfold available, needs_details, st'.
      cbn [community_upserts gameCategories gameMechanisms
           gameFamilies].
      rewrite !none_for_upsert_links by exact Hne.
      rewrite Hc, Hm, Hf. reflexivity. }
    clearbody st'.
    apply filter_fmap_agree. intros g Hin.
    unfold has_id. destruct (Z.eqb_spec (Game.id g) gid) as [Heq|Hne].
    + pose proof (Hleased g Hin Heq) as Hby. split.
      * unfold available. simpl.
        destruct (Game.processingBy g); [simpl; tauto|contradiction].
      * unfold available.
        destruct (Game.processingBy g); [simpl; tauto|contradiction].
    + rewrite (Hother g Hne). split; [tauto|reflexivity].
Qed.

End WorkerCoverage.

Section WorkerCoverageRun.
Import GameRepository RateLimiter DetailScraper.

Context (browser : Game.pick → Result Details.t).
Context (timing : nat → Q * Z * Z).
Context (workerId : string) (batchSize : nat).

Implicit Types (s : State) (st : Store) (game : Game.pick) (g : Game.t).

Lemma leased_in_owners st gid :
  (∀ v, v ∈ owners st → v.1 = gid → v.2 ≠ None) →
  ∀ g, g ∈ games st → Game.id g = gid → Game.processingBy g ≠ None.
Proof.
  intros Hown g Hg Hid.
  apply (Hown (Game.id g, Game.processingBy g)); [|exact Hid].
  unfold owners. apply (list_elem_of_fmap_2 (λ g, (Game.id g, Game.processingBy g))).
  exact Hg.
Qed.

Lemma scrape_candidates game (t : Date) (w : World) :
  (∀ v, v ∈ owners (store w) → v.1 = Game.pid game → v.2 ≠ None) →
  candidates (store (snd (scrapeGameDetailPage browser game t w)))
  = candidates (store w).
Proof.
  intros Hown. unfold scrapeGameDetailPage.
  destruct (browser game) as [d|e]; [|reflexivity].
  pose proof (update_candidates (Game.pid game) d t (store w)
                (leased_in_owners _ _ Hown)) as H.
  destruct (updateGameWithAllDetails _ _ _ _) as [[[]|e] db]; exact H.
Qed.

Lemma process_batch_candidates (batch : list Game.pick) total s total' s' :
  idle s →
  process_batch browser timing workerId batch total s = Some (total', s') →
  (∀ game v, game ∈ batch → v ∈ owners (store (world s)) →
             v.1 = Game.pid game → v.2 ≠ None) →
  candidates (store (world s')) = candidates (store (world s)).
Proof.
  revert total s. induction batch as [|game batch IH]; intros total s Hidle.
  - simpl. intros [= <- <-] _. reflexivity.
  - cbn [process_batch].
    destruct (await_throttle timing (scrapeGameDetailPage browser game) s Hidle)
      as (t & s1 & Hth & Hout & Hworld & Hidle1).
    rewrite Hth, Hout.
    pose proof (scrape_candidates game t (world s)) as Hkeep.
    pose proof (scrape_frame browser game t (world s)) as (Hown & _).
    cbv zeta in Hown. rewrite <- Hworld in Hkeep, Hown.
    destruct (fst (scrapeGameDetailPage browser game t (world s))) as [[]|e];
      intros Hrun Hleased; apply IH in Hrun;
      try (apply logline_idle; exact Hidle1).
    + rewrite Hrun. apply Hkeep. intros v. apply Hleased. left.
    + intros game' v Hin. cbn [logline world store]. rewrite Hown.
      apply Hleased. right. exact Hin.
    + rewrite Hrun. apply Hkeep. intros v. apply Hleased. left.
    + intros game' v Hin. cbn [logline world store]. rewrite Hown.
      apply Hleased. right. exact Hin.
Qed.

Lemma claimed_rows_are_leased (w : string) (n : nat) (t : Date) st :
  ∀ game v,
    game ∈ fst (claimGamesForProcessing w n t st) →
    v ∈ owners (snd (claimGamesForProcessing w n t st)) →
    v.1 = Game.pid game → v.2 ≠ None.
Proof.
  intros game v Hgame Hv Hid.
  rewrite claim_store, owners_updateMany in Hv.
  apply list_elem_of_fmap in Hv as (g & -> & _). cbn [fst snd] in *.
  rewrite claim_found in Hgame.
  assert (id_in (Game.pid <$> availableGames n st) g = true) as ->.
  { unfold id_in. apply bool_decide_eq_true. rewrite Hid.
    apply list_elem_of_fmap_2. exact Hgame. }
  discriminate.
Qed.

Lemma batches_verdicts fuel total batchCount s :
  idle s → unique_ids (store (world s)) → (0 < batchSize)%nat →
  (length (candidates (store (world s))) < fuel)%nat →
  ∃ total' s',
    batches browser timing workerId batchSize fuel total batchCount s
    = Some (total', s')
    ∧ verdicts s'
      = verdicts s
          ++ (Game.pname <$> (Game.select <$> candidates (store (world s)))).
Proof.
  revert total batchCount s.
  induction fuel as [|fuel IH]; intros total batchCount s Hidle Hnd Hpos Hfuel;
    [lia|].
  cbn [batches].
  pose proof (claim_found workerId batchSize (clock s) (store (world s)))
    as Hfound.
  pose proof (claim_candidates workerId batchSize (clock s) (store (world s))
                Hnd) as Hcand.
  pose proof (claim_keeps_ids workerId batchSize (clock s) (store (world s))
                Hnd) as Hnd1.
  pose proof (claimed_rows_are_leased workerId batchSize (clock s)
                (store (world s))) as Hleased.
  rewrite availableGames_eq in Hfound.
  destruct (claimGamesForProcessing workerId batchSize (clock s)
              (store (world s))) as [found db].
  cbn [fst snd] in Hfound, Hcand, Hnd1, Hleased.
  set (C := candidates (store (world s))) in *.
  destruct found as [|game found].
  - eexists. eexists. split; [reflexivity|].
    assert (C = []) as ->.
    { symmetry in Hfound. apply fmap_nil_inv in Hfound.
      destruct C as [|g C']; [reflexivity|].
      destruct batchSize; [lia|discriminate]. }
    unfold verdicts. cbn [logline on_store world log].
    rewrite omap_app. simpl. rewrite !app_nil_r. reflexivity.
  - set (s2 := logline _ (on_store _ s)).
    assert (idle s2) as Hidle2 by exact Hidle.
    destruct (process_batch_spec browser timing workerId (game :: found) total
                s2 Hidle2)
      as (total1 & s3 & Hrun & Hidle3 & Hown & (lines & Hlog & Hlines) & _).
    rewrite Hrun.
    pose proof (process_batch_candidates _ _ _ _ _ Hidle2 Hrun) as Hkeep.
    change (store (world s2)) with db in Hkeep, Hown.
    assert (candidates (store (world s3)) = drop batchSize C) as Hc3.
    { rewrite (Hkeep Hleased). exact Hcand. }
    assert (C ≠ []) as Hne.
    { intros HC. rewrite HC, take_nil in Hfound. discriminate. }
    destruct (IH total1 (S batchCount) (pause s3)) as (total' & s' & Hrest & Hv).
    + exact Hidle3.
    + apply unique_ids_owners.
      change (store (world (pause s3))) with (store (world s3)).
      rewrite Hown. apply unique_ids_owners, Hnd1.
    + exact Hpos.
    + change (store (world (pause s3))) with (store (world s3)).
      rewrite Hc3, length_drop.
      destruct C; [contradiction|]. simpl in *. lia.
    + exists total', s'. split; [exact Hrest|].
      rewrite Hv. unfold verdicts at 1.
      change (log (world (pause s3))) with (log (world s3)).
      change (store (world (pause s3))) with (store (world s3)).
      rewrite Hc3, Hlog, omap_app, Hlines, Hfound.
      change (log (world s2))
        with (log (world s)
                ++ [BatchStart (S batchCount) (length (game :: found))]).
      rewrite omap_app. simpl. rewrite app_nil_r.
      fold (verdicts s). rewrite <- !app_assoc, <- !fmap_app, take_drop.
      reflexivity.
Qed.

(** X27.  A worker gives its verdict on every available item exactly once,
    in ascending id order: started with a positive batch size on a store
    with unique ids, the run returns, and the names it has given a verdict
    on are those of the rows that are unleased and pending once the
    worker's own stale leases are released, sorted by id.  Rows leased to
    other workers and complete rows are not attempted, and no row is
    attempted twice. *)
Theorem worker_attempts_each_available_item_once fuel clock0 (db : Store) :
  unique_ids db → (0 < batchSize)%nat → (length (games db) < fuel)%nat →
  ∃ s',
    scrapeGameDetails browser timing (Ok tt) workerId batchSize None fuel
      (start clock0 db)
    = Some (Ok tt, s')
    ∧ verdicts s'
      = Game.pname
          <$> (Game.select
                 <$> candidates (releaseClaimedGames workerId db)).
Proof.
  intros Hnd Hpos Hfuel. unfold scrapeGameDetails, try_body.
  set (s1 := logline _ (on_store _ (start clock0 db))).
  assert (store (world s1) = releaseClaimedGames workerId db) as Hs1
    by reflexivity.
  assert (idle s1) as Hidle1 by (repeat split).
  assert (unique_ids (store (world s1))) as Hnd1.
  { apply unique_ids_owners. rewrite Hs1, owners_release.
    rewrite <- list_fmap_compose. apply unique_ids_owners in Hnd.
    exact Hnd. }
  assert (length (candidates (store (world s1))) < fuel)%nat as Hlen.
  { rewrite candidates_length. unfold count.
    pose proof (length_filter (λ g, Is_true (available (store (world s1)) g))
                  (games (store (world s1)))) as Hle.
    rewrite Hs1 in Hle at 2. unfold releaseClaimedGames, updateMany in Hle.
    cbn [games set_games] in Hle. rewrite length_fmap in Hle. lia. }
  destruct (batches_verdicts fuel 0%nat 0%nat s1 Hidle1 Hnd1 Hpos Hlen)
    as (total & s2 & Hrun & Hv).
  rewrite Hrun. eexists. split; [reflexivity|].
  unfold verdicts in *. cbn [logline on_store world log].
  rewrite omap_app. simpl. rewrite app_nil_r, Hv, Hs1. reflexivity.
Qed.

End WorkerCoverageRun.

Lemma worker_attempts_each_available_item_once_witness :
  unique_ids five_items
  ∧ ∃ s',
      DetailScraper.scrapeGameDetails steady_browser steady (Ok tt) "worker-2"
        2 None 6 (DetailScraper.start 0 five_items)
      = Some (Ok tt, s')
      ∧ verdicts s' = ["game-1"; "game-2"; "game-3"].
Proof.
  assert (unique_ids five_items) as Hnd.
  { unfold unique_ids. apply (bool_decide_unpack _). vm_compute. exact I. }
  split; [exact Hnd|].
  destruct (worker_attempts_each_available_item_once steady_browser steady
              "worker-2" 2 6 0 five_items Hnd)
    as (s' & Hrun & Hv); [lia|simpl; lia|].
  exists s'. split; [exact Hrun|]. rewrite Hv. vm_compute. reflexivity.
Defined.

(** ** The worker: what it counts *)

Section WorkerOutcomes.
Import GameRepository RateLimiter DetailScraper.

Context (browser : Game.pick → Result Details.t).
Context (timing : nat → Q * Z * Z).
Context (workerId : string) (batchSize : nat).

Implicit Types (s : State) (st : Store) (game : Game.pick) (g : Game.t).

Lemma filter_agree_on {A} (P Q : A → Prop) `{!∀ x, Decision (P x)}
    `{!∀ x, Decision (Q x)} (l : list A) :
  (∀ x, x ∈ l → (P x ↔ Q x)) → filter P l = filter Q l.
Proof.
  induction l as [|x l IH]; intros Hall; [reflexivity|].
  rewrite !filter_cons.
  rewrite IH by (intros y Hy; apply Hall; right; exact Hy).
  destruct (Hall x (list_elem_of_here _ _)) as [Hpq Hqp].
  destruct (decide (P x)) as [Hp|Hp], (decide (Q x)) as [Hq|Hq];
    try reflexivity.
  - destruct (Hq (Hpq Hp)).
  - destruct (Hp (Hqp Hq)).
Qed.

(** Among the verdicts of a batch, as many lines say [Completed] as
    attempts went through, and as many say [FailedToScrape] as did not. *)
Lemma verdicts_counted st0 (batch : list Game.pick) (lines : list LogLine) :
  Forall2 (verdict_on browser workerId st0) batch lines →
  length (filter (λ l, Is_true (is_completed l)) lines)
  = length (filter (goes_through browser st0) batch)
  ∧ length (filter (λ l, Is_true (is_failed l)) lines)
    = length (filter (λ game, ¬ goes_through browser st0 game) batch).
Proof.
  induction 1 as [|game line batch lines Hv _ [IH1 IH2]]; [split; reflexivity|].
  rewrite !filter_cons.
  destruct Hv as [[Hgo (k & ->)]|[Hno (e & -> & _)]].
  - rewrite (decide_True (P := goes_through browser st0 game)) by exact Hgo.
    rewrite (decide_False (P := ¬ goes_through browser st0 game))
      by (intros Hn; exact (Hn Hgo)).
    simpl. rewrite IH1, IH2. split; reflexivity.
  - rewrite (decide_False (P := goes_through browser st0 game)) by exact Hno.
    rewrite (decide_True (P := ¬ goes_through browser st0 game)) by exact Hno.
    simpl. rewrite IH1, IH2. split; reflexivity.
Qed.

Lemma completed_among_verdicts (lines : list LogLine) :
  filter (λ l, Is_true (is_completed l)) (filter is_verdict lines)
  = filter (λ l, Is_true (is_completed l)) lines
  ∧ filter (λ l, Is_true (is_failed l)) (filter is_verdict lines)
    = filter (λ l, Is_true (is_failed l)) lines.
Proof.
  induction lines as [|l lines [IH1 IH2]]; [split; reflexivity|].
  rewrite (filter_cons is_verdict).
  destruct l;
    first [ rewrite (decide_True (P := is_verdict _))
              by (unfold is_verdict; simpl; eauto)
          | rewrite (decide_False (P := is_verdict _))
              by (unfold is_verdict; simpl; intros [? Hx]; discriminate Hx) ];
    rewrite ?filter_cons; simpl; rewrite ?IH1, ?IH2; split; reflexivity.
Qed.

Lemma claim_ids (w : string) (n : nat) (t : Date) st :
  Game.id <$> games (snd (claimGamesForProcessing w n t st))
  = Game.id <$> games st.
Proof.
  rewrite claim_store. unfold updateMany. cbn [games set_games].
  rewrite <- list_fmap_compose. apply list_fmap_ext. intros i g _.
  unfold compose. destruct (id_in _ g); reflexivity.
Qed.

(** The verdicts of the whole loop, item by item over the candidates in
    claim order, and the total the loop arrives at. *)
Lemma batches_outcomes fuel total batchCount s st0 :
  idle s → unique_ids (store (world s)) → (0 < batchSize)%nat →
  (length (candidates (store (world s))) < fuel)%nat →
  Game.id <$> games (store (world s)) = Game.id <$> games st0 →
  ∃ total' s' lines,
    batches browser timing workerId batchSize fuel total batchCount s
    = Some (total', s')
    ∧ filter is_verdict (log (world s'))
      = filter is_verdict (log (world s)) ++ lines
    ∧ Forall2 (verdict_on browser workerId st0)
        (Game.select <$> candidates (store (world s))) lines
    ∧ total'
      = (total
         + length (filter (goes_through browser st0)
                     (Game.select <$> candidates (store (world s)))))%nat.
Proof.
  revert total batchCount s.
  induction fuel as [|fuel IH];
    intros total batchCount s Hidle Hnd Hpos Hfuel Hids; [lia|].
  cbn [batches].
  pose proof (claim_found workerId batchSize (clock s) (store (world s)))
    as Hfound.
  pose proof (claim_candidates workerId batchSize (clock s) (store (world s))
                Hnd) as Hcand.
  pose proof (claim_keeps_ids workerId batchSize (clock s) (store (world s))
                Hnd) as Hnd1.
  pose proof (claimed_rows_are_leased workerId batchSize (clock s)
                (store (world s))) as Hleased.
  pose proof (claim_ids workerId batchSize (clock s) (store (world s)))
    as Hids1.
  rewrite availableGames_eq in Hfound.
  destruct (claimGamesForProcessing workerId batchSize (clock s)
              (store (world s))) as [found db].
  cbn [fst snd] in Hfound, Hcand, Hnd1, Hleased, Hids1.
  set (C := candidates (store (world s))) in *.
  destruct found as [|game found].
  - exists total, (logline (NoMoreGames workerId) (on_store (λ _, db) s)), [].
    split; [reflexivity|].
    assert (C = []) as ->.
    { symmetry in Hfound. apply fmap_nil_inv in Hfound.
      destruct C as [|g C']; [reflexivity|].
      destruct batchSize; [lia|discriminate]. }
    cbn [logline on_store world log].
    rewrite filter_app. split; [reflexivity|].
    split; [constructor|]. simpl. lia.
  - set (s2 := logline _ (on_store _ s)).
    assert (idle s2) as Hidle2 by exact Hidle.
    assert (Game.id <$> games (store (world s2)) = Game.id <$> games st0)
      as Hids2.
    { change (store (world s2)) with db. rewrite Hids1. exact Hids. }
    destruct (process_batch_spec browser timing workerId (game :: found) total
                s2 Hidle2)
      as (total1 & s3 & Hrun & Hidle3 & Hown & _).
    destruct (process_batch_outcomes browser timing workerId (game :: found)
                total s2 st0 Hidle2 Hids2)
      as (total1' & s3' & lines1 & Hrun' & Hlog1 & Hall1 & Htot1).
    rewrite Hrun in Hrun'. injection Hrun' as <- <-.
    rewrite Hrun.
    pose proof (process_batch_candidates browser timing workerId _ _ _ _ _ Hidle2
                  Hrun) as Hkeep.
    change (store (world s2)) with db in Hkeep, Hown.
    assert (candidates (store (world s3)) = drop batchSize C) as Hc3.
    { rewrite (Hkeep Hleased). exact Hcand. }
    assert (C ≠ []) as Hne.
    { intros HC. rewrite HC, take_nil in Hfound. discriminate. }
    destruct (IH total1 (S batchCount) (pause s3))
      as (total' & s' & lines' & Hrest & Hlog' & Hall' & Htot').
    + exact Hidle3.
    + apply unique_ids_owners.
      change (store (world (pause s3))) with (store (world s3)).
      rewrite Hown. apply unique_ids_owners, Hnd1.
    + exact Hpos.
    + change (store (world (pause s3))) with (store (world s3)).
      rewrite Hc3, length_drop.
      destruct C; [contradiction|]. simpl in *. lia.
    + change (store (world (pause s3))) with (store (world s3)).
      rewrite <- Hids, <- Hids1, <- !owners_ids, Hown. reflexivity.
    + change (store (world (pause s3))) with (store (world s3)) in Hall', Htot'.
      change (log (world (pause s3))) with (log (world s3)) in Hlog'.
      rewrite Hc3 in Hall', Htot'.
      exists total', s', (filter is_verdict lines1 ++ lines').
      split; [exact Hrest|]. split.
      { rewrite Hlog', Hlog1.
        change (log (world s2))
          with (log (world s)
                  ++ [BatchStart (S batchCount) (length (game :: found))]).
        rewrite !filter_app.
        rewrite (filter_cons is_verdict (BatchStart _ _)), decide_False
          by (unfold is_verdict; simpl; intros [? Hx]; discriminate Hx).
        rewrite filter_nil, app_nil_r, <- app_assoc. reflexivity. }
      rewrite <- (take_drop batchSize C), fmap_app, <- Hfound. split.
      { apply Forall2_app; assumption. }
      rewrite filter_app, length_app. lia.
Qed.

(** X25.  Only what went through is counted.  In a batch the total grows by
    the number of attempts that went through (the browser yielded a payload
    and the item had a row to write it to); those are logged as completed,
    the others, whether the browser or the write failed, as failed.  A
    whole run over a store with unique ids attempts the candidates, which
    all have rows: it ends with the line [WorkerCompleted] carrying the
    number of candidates on which the browser did not fail, it has logged
    that many completions and a failure for each other candidate, and item
    by item the verdict is [Completed] where the browser returned and
    [FailedToScrape] with the browser's error where it threw. *)
Theorem worker_reports_what_it_completed :
  (∀ (batch : list Game.pick) total s,
     idle s →
     let went := filter (goes_through browser (store (world s))) batch in
     ∃ total' s',
       process_batch browser timing workerId batch total s = Some (total', s')
       ∧ total' = (total + length went)%nat
       ∧ completions s' = (completions s + length went)%nat
       ∧ failures s' = (failures s + (length batch - length went))%nat)
  ∧ (∀ fuel clock0 (db : Store),
       unique_ids db → (0 < batchSize)%nat → (length (games db) < fuel)%nat →
       let attempted :=
         Game.select <$> candidates (releaseClaimedGames workerId db) in
       let done := filter (λ game, returned (browser game)) attempted in
       ∃ s',
         scrapeGameDetails browser timing (Ok tt) workerId batchSize None fuel
           (start clock0 db)
         = Some (Ok tt, s')
         ∧ last (log (world s'))
           = Some (WorkerCompleted workerId (length done))
         ∧ completions s' = length done
         ∧ failures s' = (length attempted - length done)%nat
         ∧ Forall2
             (λ game line,
                match browser game with
                | Ok _ => ∃ k, line = Completed workerId k (Game.pname game)
                | Throw e =>
                    line = FailedToScrape workerId (Game.pname game) e
                end)
             attempted (filter is_verdict (log (world s')))).
Proof.
  split.
  - intros batch total s Hidle went.
    destruct (process_batch_outcomes browser timing workerId batch total s
                (store (world s)) Hidle eq_refl)
      as (total' & s' & lines & Hrun & Hlog & Hall & Htot).
    exists total', s'. split; [exact Hrun|]. split; [exact Htot|].
    destruct (verdicts_counted _ _ _ Hall) as [Hc Hf].
    destruct (completed_among_verdicts lines) as [Ec Ef].
    rewrite Ec in Hc. rewrite Ef in Hf.
    pose proof (filter_split_length (goes_through browser (store (world s)))
                  batch) as Hsum.
    fold went in Hc, Hsum.
    unfold completions, failures.
    rewrite Hlog, !filter_app, !length_app, Hc, Hf. split; [reflexivity|].
    f_equal. lia.
  - intros fuel clock0 db Hnd Hpos Hfuel attempted done.
    unfold scrapeGameDetails, try_body.
    set (s1 := logline _ (on_store _ (start clock0 db))).
    set (st1 := releaseClaimedGames workerId db) in *.
    assert (store (world s1) = st1) as Hs1 by reflexivity.
    assert (idle s1) as Hidle1 by (repeat split).
    assert (unique_ids (store (world s1))) as Hnd1.
    { apply unique_ids_owners. rewrite Hs1. unfold st1.
      rewrite owners_release, <- list_fmap_compose.
      apply unique_ids_owners in Hnd. exact Hnd. }
    assert (length (candidates (store (world s1))) < fuel)%nat as Hlen.
    { rewrite candidates_length. unfold count.
      pose proof (length_filter (λ g, Is_true (available (store (world s1)) g))
                    (games (store (world s1)))) as Hle.
      rewrite Hs1 in Hle at 2. unfold st1, releaseClaimedGames, updateMany in Hle.
      cbn [games set_games] in Hle. rewrite length_fmap in Hle. lia. }
    destruct (batches_outcomes fuel 0%nat 0%nat s1 st1 Hidle1 Hnd1 Hpos Hlen
                eq_refl)
      as (total & s2 & lines & Hrun & Hlog & Hall & Htot).
    rewrite Hs1 in Hall, Htot. fold attempted in Hall, Htot.
    rewrite Hrun.
    assert (∀ game, game ∈ attempted →
              Game.pid game ∈ Game.id <$> games st1) as Hrows.
    { intros game (g & -> & Hg)%list_elem_of_fmap.
      apply candidates_elem in Hg as [_ Hg].
      exact (list_elem_of_fmap_2 Game.id _ _ Hg). }
    assert (filter (goes_through browser st1) attempted = done) as Hdone.
    { apply filter_agree_on. intros game Hgame. unfold goes_through.
      pose proof (Hrows game Hgame). split; [intros [H1 _]; exact H1|].
      intros H1. split; assumption. }
    rewrite Hdone in Htot. simpl in Htot. subst total.
    change (filter is_verdict (log (world s1))) with (@nil LogLine) in Hlog.
    rewrite app_nil_l in Hlog.
    destruct (verdicts_counted _ _ _ Hall) as [Hc Hf].
    rewrite Hdone in Hc.
    pose proof (filter_split_length (goes_through browser st1) attempted)
      as Hsum.
    rewrite Hdone in Hsum.
    destruct (completed_among_verdicts (log (world s2))) as [Ec Ef].
    rewrite Hlog in Ec, Ef.
    eexists. split; [reflexivity|].
    cbn [logline on_store world log]. split; [apply last_snoc|].
    unfold completions, failures. cbn [logline on_store world log].
    rewrite !filter_app, !length_app, <- Ec, <- Ef, Hc, Hf.
    split; [simpl; lia|]. split; [simpl; lia|].
    rewrite (filter_cons is_verdict (WorkerCompleted _ _)), decide_False
      by (unfold is_verdict; simpl; intros [? Hx]; discriminate Hx).
    rewrite filter_nil, app_nil_r, Hlog.
    apply Forall2_same_length_lookup.
    split; [exact (Forall2_length _ _ _ Hall)|].
    intros i game line Hgame Hline.
    pose proof (Forall2_lookup_lr _ _ _ _ _ _ Hall Hgame Hline) as Hv.
    pose proof (Hrows game (list_elem_of_lookup_2 _ _ _ Hgame)) as Hrow.
    destruct Hv as [[[Hret _] Hk]|[Hno (e & -> & He)]].
    + destruct (browser game); [exact Hk|destruct Hret].
    + destruct (browser game) as [d|e0] eqn:Hb.
      * destruct Hno. split; [rewrite Hb; exact I|exact Hrow].
      * rewrite (He e0 eq_refl). reflexivity.
Qed.

End WorkerOutcomes.

(** A batch on [one_item_claimed] with the browser failing on item 1 and
    the write failing on item 9, and a whole run over [three_pending] with
    the browser failing on item 2. *)
Lemma worker_reports_what_it_completed_witness :
  (idle one_item_claimed
   ∧ ∃ total' s',
       DetailScraper.process_batch browser_failing_on_1 steady "worker-1"
         [Game.mkPick 1 "https://boardgamegeek.com/boardgame/1" "game-1";
          Game.mkPick 9 "https://boardgamegeek.com/boardgame/9" "game-9"]
         0 one_item_claimed
       = Some (total', s')
       ∧ total' = 0%nat ∧ completions s' = 0%nat ∧ failures s' = 2%nat)
  ∧ (unique_ids three_pending
     ∧ ∃ s',
         DetailScraper.scrapeGameDetails browser_failing_on_2 steady (Ok tt)
           "worker-1" 2 None 4 (DetailScraper.start 0 three_pending)
         = Some (Ok tt, s')
         ∧ last (DetailScraper.log (RateLimiter.world s'))
           = Some (DetailScraper.WorkerCompleted "worker-1" 2)
         ∧ completions s' = 2%nat
         ∧ failures s' = 1%nat).
Proof.
  split.
  - assert (idle one_item_claimed) as Hidle by (repeat split).
    split; [exact Hidle|].
    pose proof (worker_reports_what_it_completed browser_failing_on_1 steady
                  "worker-1" 5) as [Hbatch _].
    destruct (Hbatch
                [Game.mkPick 1 "https://boardgamegeek.com/boardgame/1" "game-1";
                 Game.mkPick 9 "https://boardgamegeek.com/boardgame/9" "game-9"]
                0%nat one_item_claimed Hidle)
      as (total' & s' & Hrun & Htot & Hc & Hf).
    exists total', s'. split; [exact Hrun|].
    split; [exact Htot|]. split; [exact Hc|exact Hf].
  - assert (unique_ids three_pending) as Hnd.
    { unfold unique_ids. apply (bool_decide_unpack _). vm_compute. exact I. }
    split; [exact Hnd|].
    pose proof (worker_reports_what_it_completed browser_failing_on_2 steady
                  "worker-1" 2) as [_ Hwhole].
    destruct (Hwhole 4%nat 0 three_pending Hnd)
      as (s' & Hrun & Hlast & Hc & Hf & _); [lia|simpl; lia|].
    exists s'. split; [exact Hrun|].
    split; [exact Hlast|]. split; [exact Hc|exact Hf].
Defined.

(** ** From the launch to the verdicts *)

Section LaunchThenWork.
Import GameRepository RateLimiter DetailScraper.

Context (parseInt : string → option Z).
Context (browser : Game.pick → Result Details.t).
Context (timing : nat → Q * Z * Z).
Context (workerId : string) (batchSize : nat).

Lemma filter_ext_in {A} (P Q : A → Prop) `{!∀ x, Decision (P x)}
    `{!∀ x, Decision (Q x)} (l : list A) :
  (∀ x, x ∈ l → P x ↔ Q x) → filter P l = filter Q l.
Proof.
  induction l as [|x l IH]; intros Hall; [reflexivity|].
  rewrite !filter_cons, IH by (intros y Hy; apply Hall; right; exact Hy).
  pose proof (Hall x (list_elem_of_here _ _)) as Hx.
  destruct (decide (P x)), (decide (Q x)); tauto || reflexivity.
Qed.

Lemma launch_store (argv : list string) (DEBUG WORKERS : option string)
    (failed : option Error) (db : Store) (n : Z) :
  Launcher.numWorkers_of parseInt (positional argv) WORKERS = inr n →
  snd (Launcher.runParallelScrapers parseInt argv DEBUG WORKERS None failed db)
  = snd (releaseAllClaimedGames db).
Proof.
  intros Hn. unfold Launcher.runParallelScrapers. fold (positional argv).
  rewrite Hn. unfold Launcher.sweep.
  destruct (releaseAllClaimedGames db) as [k db1]. reflexivity.
Qed.

(** X28.  After a launch whose cleanup succeeds no row is leased, and a
    worker started on the store the launcher leaves gives its verdict on
    exactly the games of the pending list, each once: its verdicts are the
    names of [findAllWithoutDetails()] up to order, in ascending id
    order. *)
Theorem a_launched_worker_attempts_the_pending_list (argv : list string)
    (DEBUG WORKERS : option string) (failed : option Error) (db : Store)
    (n : Z) (fuel : nat) (clock0 : Date) :
  Launcher.numWorkers_of parseInt (positional argv) WORKERS = inr n →
  unique_ids db → (0 < batchSize)%nat → (length (games db) < fuel)%nat →
  let db' :=
    snd (Launcher.runParallelScrapers parseInt argv DEBUG WORKERS None failed
           db) in
  Forall (λ v, v.2 = None) (owners db')
  ∧ ∃ s',
      scrapeGameDetails browser timing (Ok tt) workerId batchSize None fuel
        (start clock0 db')
      = Some (Ok tt, s')
      ∧ verdicts s' = Game.pname <$> (Game.select <$> candidates db')
      ∧ verdicts s' ≡ₚ Game.pname <$> findAllWithoutDetails db.
Proof.
  intros Hn Hnd Hpos Hfuel db'. unfold db'. rewrite (launch_store _ _ _ _ _ _ Hn).
  pose proof (swept_owners db) as Hfree.
  pose proof (swept_unique_ids db Hnd) as Hnd'.
  pose proof (swept_length db) as Hlen.
  assert (findAllWithoutDetails (snd (releaseAllClaimedGames db))
          = findAllWithoutDetails db) as Hpend by apply pending_updateMany.
  set (db1 := snd (releaseAllClaimedGames db)) in *.
  assert (∀ g, g ∈ games db1 → Game.processingBy g = None) as Hnone.
  { intros g Hg. rewrite Forall_forall in Hfree.
    apply (Hfree (Game.id g, Game.processingBy g)).
    apply (list_elem_of_fmap_2 (λ g, (Game.id g, Game.processingBy g))).
    exact Hg. }
  assert (releaseClaimedGames workerId db1 = db1) as Hrel.
  { apply release_worker_idempotent. intros g Hg. rewrite (Hnone g Hg).
    discriminate. }
  split; [exact Hfree|].
  unfold scrapeGameDetails, try_body.
  set (s1 := logline _ (on_store _ (start clock0 db1))).
  assert (store (world s1) = db1) as Hs1 by exact Hrel.
  assert (idle s1) as Hidle1 by (repeat split).
  assert (length (candidates (store (world s1))) < fuel)%nat as Hc.
  { rewrite Hs1, candidates_length. unfold count.
    pose proof (length_filter (λ g, Is_true (available db1 g)) (games db1)).
    lia. }
  destruct (batches_verdicts browser timing workerId batchSize fuel 0%nat 0%nat
              s1 Hidle1 ltac:(rewrite Hs1; exact Hnd') Hpos Hc)
    as (total & s2 & Hrun & Hv).
  rewrite Hrun. eexists. split; [reflexivity|].
  assert (verdicts
            (on_store (releaseClaimedGames workerId)
               (logline (WorkerCompleted workerId total) s2))
          = Game.pname <$> (Game.select <$> candidates db1)) as Hverdicts.
  { unfold verdicts in *. cbn [logline on_store world log].
    rewrite omap_app. simpl. rewrite app_nil_r, Hv, Hs1. reflexivity. }
  split; [exact Hverdicts|]. rewrite Hverdicts, <- Hpend.
  unfold findAllWithoutDetails, candidates.
  rewrite merge_sort_Permutation.
  rewrite (filter_ext_in (λ g, Is_true (available db1 g))
             (λ g, Is_true (needs_details db1 g))); [reflexivity|].
  intros g Hg. unfold available. rewrite (Hnone g Hg). reflexivity.
Qed.

End LaunchThenWork.

Lemma a_launched_worker_attempts_the_pending_list_witness :
  Launcher.numWorkers_of parse_decimal (positional ["1"; "--single-process"])
    None
  = inr 1
  ∧ unique_ids five_items
  ∧ let db' :=
      snd (Launcher.runParallelScrapers parse_decimal
             ["1"; "--single-process"] None None None None five_items) in
    ∃ s',
      DetailScraper.scrapeGameDetails steady_browser steady (Ok tt) "worker-1"
        5 None 6 (DetailScraper.start 0 db')
      = Some (Ok tt, s')
      ∧ verdicts s' = ["game-1"; "game-2"; "game-3"]
      ∧ verdicts s'
        ≡ₚ Game.pname <$> GameRepository.findAllWithoutDetails five_items.
Proof.
  assert (Launcher.numWorkers_of parse_decimal
            (positional ["1"; "--single-process"]) None = inr 1) as Hn
    by reflexivity.
  assert (unique_ids five_items) as Hnd.
  { unfold unique_ids. apply (bool_decide_unpack _). vm_compute. exact I. }
  split; [exact Hn|]. split; [exact Hnd|]. cbn zeta.
  destruct (a_launched_worker_attempts_the_pending_list parse_decimal
              steady_browser steady "worker-1" 5 ["1"; "--single-process"]
              None None None five_items 1 6 0 Hn Hnd)
    as (_ & s' & Hrun & Hv & Hperm); [lia|simpl; lia|].
  exists s'. split; [exact Hrun|]. split; [|exact Hperm].
  rewrite Hv. vm_compute. reflexivity.
Defined.
